(** * newa: the pipeline commands of [newa/cli.py]

    A shallow embedding of [get_state_dir] and of the commands [jira],
    [execute] and [report] of [src/newa/cli.py], and the properties of
    the state directory, of the issue reconciliation loop, of the
    execution worker and of the result reporter.

    Python data is modelled as follows:
    - [str] as [string]; [Optional[str]] as [option string], whose
      truth value is given by [truthy];
    - [dict] used as a finite map as [gmap]; a [dict] that is iterated
      as an association list in insertion order ([Report.PyDict]);
    - a raised exception as the [Raise] constructor of an outcome, which
      carries the state reached when the exception leaves the function;
    - a loop that waits for the outside as a function with a bound on
      its iterations;
    - the collaborators that [cli.py] imports (the Jira handler, the
      Testing Farm request, ReportPortal, the template engine) as the
      fields of an interface class, their calls recorded in a trace. A
      call of a collaborator returns, except the comment call of
      [cmd_report] and the issue lookup of [cmd_jira], whose failures
      the code handles or lets pass; the state of a collaborator is
      threaded through the calls that change it;
    - messages of the logger are left out, except the errors that
      [cmd_report] logs instead of raising;
    - the directory [/var/tmp/newa] as the list of the entries that
      [os.scandir] yields, in the order of the scan. *)

From stdpp Require Import gmap strings list fin_maps pretty.
From Stdlib Require Import Ascii.

(** ** Python strings *)

Module PyStr.

(** Truth value of an [Optional[str]]: [None] and [''] are false. *)
Definition truthy (o : option string) : bool :=
  match o with
  | Some s => negb (bool_decide (s = ""))
  | None => false
  end.

(** [s.startswith(p)] *)
Fixpoint is_prefix (p s : string) : bool :=
  match p, s with
  | EmptyString, _ => true
  | String a p', String b s' => Ascii.eqb a b && is_prefix p' s'
  | String _ _, EmptyString => false
  end.

(** [sub in s] *)
Fixpoint contains (sub s : string) : bool :=
  is_prefix sub s ||
  match s with
  | EmptyString => false
  | String _ s' => contains sub s'
  end.

(** [s[n:]] *)
Fixpoint drop (n : nat) (s : string) : string :=
  match n, s with
  | O, _ => s
  | S _, EmptyString => EmptyString
  | S n', String _ s' => drop n' s'
  end.

(** The scan of [s.replace(old, new)] for a non-empty [old]: [skip]
    counts the characters of a match that are still to be consumed. *)
Fixpoint replace_go (old new : string) (skip : nat) (s : string) : string :=
  match s with
  | EmptyString => EmptyString
  | String c s' =>
      match skip with
      | S k => replace_go old new k s'
      | O =>
          if is_prefix old s
          then new +:+ replace_go old new (String.length old - 1) s'
          else String c (replace_go old new 0 s')
      end
  end.

(** [s.replace('', new)]: [new] before every character and at the end. *)
Fixpoint intersperse (new s : string) : string :=
  match s with
  | EmptyString => new
  | String c s' => new +:+ String c (intersperse new s')
  end.

(** [s.replace(old, new)]: every occurrence, leftmost first, without
    overlap. *)
Definition replace (old new s : string) : string :=
  match old with
  | EmptyString => intersperse new s
  | String _ _ => replace_go old new 0 s
  end.

(** [s.replace(old, new, 1)]: the first occurrence only. *)
Fixpoint replace_first (old new s : string) : string :=
  if is_prefix old s then new +:+ drop (String.length old) s
  else match s with
       | EmptyString => EmptyString
       | String c s' => String c (replace_first old new s')
       end.

(** [sep.join(l)] *)
Fixpoint join (sep : string) (l : list string) : string :=
  match l with
  | [] => ""
  | [x] => x
  | x :: xs => x +:+ sep +:+ join sep xs
  end.

(** [s.split(sep)] for a separator of one character. *)
Fixpoint split (sep : ascii) (s : string) : list string :=
  match s with
  | EmptyString => [EmptyString]
  | String c s' =>
      if Ascii.eqb c sep then EmptyString :: split sep s'
      else match split sep s' with
           | h :: t => String c h :: t
           | [] => [String c EmptyString]
           end
  end.

(** [l[-1]] of a list of strings ([split] never returns an empty list). *)
Definition last_item (l : list string) : string := List.last l "".

(** The character [c] does not occur in [s]. *)
Fixpoint lacks (c : ascii) (s : string) : bool :=
  match s with
  | EmptyString => true
  | String a s' => negb (Ascii.eqb a c) && lacks c s'
  end.

(** [sorted(l)] on strings, by insertion. *)
Fixpoint insert_sorted (x : string) (l : list string) : list string :=
  match l with
  | [] => [x]
  | y :: l' => if String.leb x y then x :: l else y :: insert_sorted x l'
  end.

Definition sorted (l : list string) : list string :=
  foldr insert_sorted [] l.

Example replace_ex1 : replace "ab" "***" "xabab-aab" = "x******-a***".
Proof. reflexivity. Qed.

Example replace_ex2 : replace "aa" "-" "aaa" = "-a".
Proof. reflexivity. Qed.

Example replace_ex3 : replace "" "-" "abc" = "-a-b-c-".
Proof. reflexivity. Qed.

Example replace_first_ex :
  replace_first "schedule-" "execute-" "schedule-schedule-1.yaml"
  = "execute-schedule-1.yaml".
Proof. reflexivity. Qed.

Example split_ex : split "%" "a%b%%c" = ["a"; "b"; ""; "c"].
Proof. reflexivity. Qed.

Example join_ex : join ", " ["a"; "b"; "c"] = "a, b, c".
Proof. reflexivity. Qed.

Example sorted_ex : sorted ["b"; "a"; "ab"; "B"] = ["B"; "a"; "ab"; "b"].
Proof. reflexivity. Qed.

(** *** Facts about the scan *)

Lemma replace_go_skip old new k s :
  replace_go old new k s = replace_go old new 0 (drop k s).
Proof.
  revert k. induction s as [|c s IH]; intros [|k]; simpl; try reflexivity.
  apply IH.
Qed.

Lemma drop_length_le k s : String.length (drop k s) <= String.length s.
Proof.
  revert s. induction k as [|k IH]; intros [|c s]; simpl; try lia.
  specialize (IH s). lia.
Qed.

Lemma replace_go_cons old new c s :
  replace_go old new 0 (String c s) =
  if is_prefix old (String c s)
  then new +:+ replace_go old new 0 (drop (String.length old - 1) s)
  else String c (replace_go old new 0 s).
Proof.
  cbn [replace_go]. destruct (is_prefix old (String c s)); [|reflexivity].
  by rewrite replace_go_skip.
Qed.

Lemma is_prefix_lacks_head c p r :
  p <> "" -> lacks c p = true -> is_prefix p (String c r) = false.
Proof.
  destruct p as [|a p]; [done|]. intros _. simpl.
  destruct (Ascii.eqb a c); simpl; [discriminate|done].
Qed.

(** A star-free pattern that matches the output of the scan at its
    head matches the input at its head: the scan copies the input up
    to the first replacement, and a replacement starts with a star. *)
Lemma is_prefix_replace_go old p s :
  lacks "*" p = true ->
  is_prefix p (replace_go old "***" 0 s) = true ->
  is_prefix p s = true.
Proof.
  revert s. induction p as [|a p IH]; intros s Hl Hp; [done|].
  simpl in Hl. apply andb_prop in Hl as [Ha Hl].
  destruct s as [|c s]; [done|].
  rewrite replace_go_cons in Hp.
  destruct (is_prefix old (String c s)).
  - simpl in Hp. destruct (Ascii.eqb a "*"); done.
  - simpl in Hp. simpl. apply andb_prop in Hp as [-> Hp]. simpl.
    by apply IH.
Qed.

Lemma contains_stars p r :
  p <> "" -> lacks "*" p = true ->
  contains p ("***" +:+ r) = contains p r.
Proof.
  intros Hne Hl.
  change ("***" +:+ r) with (String "*" (String "*" (String "*" r))).
  cbn [contains]. by rewrite !is_prefix_lacks_head.
Qed.

Lemma replace_go_hides old s :
  old <> "" -> lacks "*" old = true ->
  contains old (replace_go old "***" 0 s) = false.
Proof.
  intros Hne Hl.
  remember (String.length s) as n eqn:Hn.
  revert s Hn. induction (lt_wf n) as [n _ IH]. intros s ->.
  destruct s as [|c s].
  - simpl. destruct old; done.
  - rewrite replace_go_cons.
    destruct (is_prefix old (String c s)) eqn:Hp.
    + rewrite contains_stars by done.
      eapply IH; [|reflexivity].
      simpl. pose proof (drop_length_le (String.length old - 1) s). lia.
    + cbn [contains]. rewrite (IH (String.length s)); [|simpl; lia|done].
      rewrite orb_false_r.
      destruct (is_prefix old (String c (replace_go old "***" 0 s))) eqn:Hq;
        [|done].
      assert (is_prefix old (String c s) = true); [|congruence].
      destruct old as [|a old]; [done|]. simpl in *.
      apply andb_prop in Hl as [_ Hl].
      apply andb_prop in Hq as [-> Hq]. simpl.
      by apply is_prefix_replace_go in Hq.
Qed.

(** Replacing a non-empty, star-free token by three stars leaves no
    occurrence of the token. *)
Lemma replace_hides old s :
  old <> "" -> lacks "*" old = true ->
  contains old (replace old "***" s) = false.
Proof.
  intros Hne Hl. destruct old as [|a old]; [done|].
  by apply replace_go_hides.
Qed.


(** *** Facts about [split] and [sorted] *)

Lemma append_assoc (s1 s2 s3 : string) :
  (s1 +:+ s2) +:+ s3 = s1 +:+ (s2 +:+ s3).
Proof.
  induction s1 as [|a s1 IH]; [done|].
  change (String a ((s1 +:+ s2) +:+ s3) = String a (s1 +:+ (s2 +:+ s3))).
  by rewrite IH.
Qed.

Lemma append_cons (c : ascii) (s t : string) :
  String c s +:+ t = String c (s +:+ t).
Proof. reflexivity. Qed.

Lemma split_nonempty sep s : split sep s <> [].
Proof.
  destruct s as [|c s]; simpl; [done|].
  destruct (Ascii.eqb c sep); [done|]. by destruct (split sep s).
Qed.

(** [(s + sep + t).split(sep) == s.split(sep) + t.split(sep)] *)
Lemma split_app sep s t :
  split sep (s +:+ String sep t) = split sep s ++ split sep t.
Proof.
  induction s as [|c s IH].
  - change ("" +:+ String sep t) with (String sep t). simpl.
    by rewrite Ascii.eqb_refl.
  - rewrite append_cons. simpl.
    destruct (Ascii.eqb c sep); [by rewrite IH|].
    rewrite IH. pose proof (split_nonempty sep s).
    by destruct (split sep s).
Qed.

Lemma split_lacks sep t : lacks sep t = true -> split sep t = [t].
Proof.
  induction t as [|c t IH]; simpl; [done|].
  intros [Hc Ht]%andb_prop. apply negb_true_iff in Hc. rewrite Hc.
  by rewrite IH.
Qed.

Lemma last_item_app l l' : l' <> [] -> last_item (l ++ l') = last_item l'.
Proof.
  intros Hne. unfold last_item.
  induction l as [|x l IH]; [done|]. simpl.
  destruct (l ++ l') eqn:Hl; [|exact IH].
  apply app_eq_nil in Hl as [_ ?]. done.
Qed.

(** The text after the last separator is the last item. *)
Lemma last_item_split sep s t :
  lacks sep t = true -> last_item (split sep (s +:+ String sep t)) = t.
Proof.
  intros Ht. rewrite split_app, last_item_app by apply split_nonempty.
  by rewrite split_lacks.
Qed.

Lemma insert_sorted_perm x l : insert_sorted x l ≡ₚ x :: l.
Proof.
  induction l as [|y l IH]; simpl; [done|].
  destruct (String.leb x y); [done|]. rewrite IH. apply Permutation_swap.
Qed.

(** [sorted] keeps the items. *)
Lemma sorted_perm l : sorted l ≡ₚ l.
Proof.
  induction l as [|x l IH]; simpl; [done|].
  unfold sorted in *. by rewrite insert_sorted_perm, IH.
Qed.
End PyStr.

(** ** Data model

    The records that [cli.py] imports from the package, with the fields
    the commands read or write. *)

Inductive EventType := ERRATUM | COMPOSE.

Record Event := { event_type : EventType; event_id : string }.

Record Compose := { compose_id : string }.

Record Erratum := {
  erratum_release : string;
  erratum_builds : list string;
  erratum_components : list string;
  erratum_archs : list string;
}.

Record ArtifactJob := {
  job_event : Event;
  job_erratum : option Erratum;
  job_compose : option Compose;
}.

Inductive OnRespinAction := KEEP | CLOSE.

Global Instance OnRespinAction_eq_dec : EqDecision OnRespinAction.
Proof. solve_decision. Defined.

Record IssueAction := {
  action_id : string;
  action_parent_id : option string;
  action_when : option string;
  action_summary : string;
  action_description : string;
  action_assignee : option string;
  action_newa_id : option string;
  action_on_respin : OnRespinAction;
  action_job_recipe : option string;
}.

Record Issue := {
  issue_id : string;
  issue_group : option string;
  issue_closed : bool;
}.

Global Instance Issue_eq_dec : EqDecision Issue.
Proof. solve_decision. Defined.

(** [Issue(id)]: no group, not closed. *)
Definition mk_issue (id : string) : Issue :=
  {| issue_id := id; issue_group := None; issue_closed := false |}.

Record IssueConfig := {
  config_project : string;
  config_group : option string;
  config_issues : list IssueAction;
}.

Record Recipe := { recipe_url : string }.

Record JiraJob := {
  jira_job_event : Event;
  jira_job_erratum : option Erratum;
  jira_job_compose : option Compose;
  jira_job_jira : Issue;
  jira_job_recipe : Recipe;
}.

(** An entry of the search result of the Jira handler: the fields of the
    raw issue that [cmd_jira] reads. *)
Record RawIssue := {
  raw_description : string;
  raw_status : string;
}.

Definition JIRA_NONE_ID : string := "_NO_ISSUE".

(** [RawRecipeReportPortalConfigDimension]: the keys that the commands
    read. *)
Record ReportPortalDimension := {
  launch_name : option string;
  launch_description : option string;
}.

(** A request, with the fields that [cmd_report] reads; the worker uses
    a request through its methods only. *)
Record Request := {
  request_id : string;
  request_reportportal : ReportPortalDimension;
}.

Record ScheduleJob := {
  schedule_event : Event;
  schedule_erratum : option Erratum;
  schedule_compose : option Compose;
  schedule_jira : Issue;
  schedule_recipe : Recipe;
  schedule_request : Request;
}.

(** [Execution(...)]: [artifacts_url] and [return_code] are [None]
    until the request has finished. *)
Record Execution := {
  request_uuid : string;
  request_api : string;
  batch_id : string;
  command : string;
  artifacts_url : option string;
  return_code : option Z;
}.

Record ExecuteJob := {
  execute_event : Event;
  execute_erratum : option Erratum;
  execute_compose : option Compose;
  execute_jira : Issue;
  execute_recipe : Recipe;
  execute_request : Request;
  execute_execution : Execution;
}.

(** The details of a Testing Farm request that the worker reads. *)
Record TFDetails := {
  details_state : string;
  details_environments_requested : list (string * string);
  details_result_overall : string;
  details_run_artifacts : option string;
}.

(** ** The [jira] command *)

Module Jira.
Import PyStr.

(** The collaborators of [cmd_jira]: [eval_test], [render_template]
    (both with the keyword arguments built from the artifact job and
    the command line), [IssueConfig.from_yaml_with_include], and the
    methods of [IssueHandler] on a tracker of type [H]. *)
Class Handler (H : Type) := {
  eval_test : ArtifactJob -> string -> bool;
  render_template : ArtifactJob -> string -> string;
  load_config : string -> IssueConfig;
  newa_id : ArtifactJob -> IssueAction -> string;
  get_related_issues :
    H -> ArtifactJob -> IssueAction -> bool -> list (string * RawIssue);
  create_issue :
    H -> ArtifactJob -> IssueAction -> string -> string -> option string ->
    option Issue -> option string -> Issue * H;
  refresh_issue : H -> ArtifactJob -> IssueAction -> Issue -> H;
  drop_obsoleted_issue : H -> ArtifactJob -> Issue -> Issue -> H;
  issue_exists : H -> string -> bool;
}.

(** What [cmd_jira] does to the outside, in order. *)
Inductive Call :=
| Search (action : IssueAction) (closed : bool)
| Create (action : IssueAction) (summary description : string)
    (assignee : option string) (parent : option Issue)
    (group : option string)
| Refresh (action : IssueAction) (issue : Issue)
| Drop (old_issue obsoleted_by : Issue)
| SaveJiraJob (job : JiraJob)
| Deferred (action_id : string) (queue_length : nat).

Inductive Error :=
| UsageError (message : string)
| ParentNotFound (parent_id action_id : string)
| MoreThanOneNew (action_id : string) (new_issues : list Issue)
| InvalidRespinAction (on_respin : OnRespinAction) (old_issues : list Issue)
| KeyError (key : string)
| JobRecipeMandatory
| IssueLookupFailed (issue : string).

(** The variables of [cmd_jira] while one artifact job is processed. *)
Record State (H : Type) := {
  tracker : H;
  calls : list Call;
  issue_actions : list IssueAction;
  processed_actions : gmap string Issue;
  created_action_ids : list string;
  endless_loop_check : gmap string nat;
}.
Arguments tracker {H}. Arguments calls {H}. Arguments issue_actions {H}.
Arguments processed_actions {H}. Arguments created_action_ids {H}.
Arguments endless_loop_check {H}.

(** The result of a piece of the loop body: a value and the new state,
    or the exception raised and the state it leaves behind. *)
Inductive Outcome (H A : Type) :=
| Ok (a : A) (st : State H)
| Raise (e : Error) (st : State H).
Arguments Ok {H A}. Arguments Raise {H A}.

(** The result of the [while] loop run with a bound on its iterations. *)
Inductive Run (H : Type) :=
| Finished (st : State H)
| Failed (e : Error) (st : State H)
| OutOfFuel (st : State H).
Arguments Finished {H}. Arguments Failed {H}. Arguments OutOfFuel {H}.

Section Reconcile.
Context {H : Type} `{Handler H}.

(** Options of the command. *)
Variables (recreate : bool) (assignee : option string) (unassigned : bool).
Variable artifact_job : ArtifactJob.
(** [config.group] *)
Variable group : option string.

Definition set_tracker (t : H) (c : Call) (st : State H) : State H :=
  {| tracker := t; calls := calls st ++ [c];
     issue_actions := issue_actions st;
     processed_actions := processed_actions st;
     created_action_ids := created_action_ids st;
     endless_loop_check := endless_loop_check st |}.

Definition record_call (c : Call) (st : State H) : State H :=
  set_tracker (tracker st) c st.

Definition set_queue (q : list IssueAction) (st : State H) : State H :=
  {| tracker := tracker st; calls := calls st;
     issue_actions := q;
     processed_actions := processed_actions st;
     created_action_ids := created_action_ids st;
     endless_loop_check := endless_loop_check st |}.

(** [processed_actions[id] = issue], and [created_action_ids.append(id)]
    when the issue was created. *)
Definition set_processed (id : string) (i : Issue) (created : bool)
    (st : State H) : State H :=
  {| tracker := tracker st; calls := calls st;
     issue_actions := issue_actions st;
     processed_actions := <[id := i]> (processed_actions st);
     created_action_ids :=
       if created then created_action_ids st ++ [id]
       else created_action_ids st;
     endless_loop_check := endless_loop_check st |}.

(** The deferral of lines 378-381: the queue length is remembered
    and the action goes back to the end of the queue. *)
Definition defer (action : IssueAction) (queue_length : nat)
    (st : State H) : State H :=
  {| tracker := tracker st;
     calls := calls st ++ [Deferred (action_id action) queue_length];
     issue_actions := issue_actions st ++ [action];
     processed_actions := processed_actions st;
     created_action_ids := created_action_ids st;
     endless_loop_check :=
       <[action_id action := queue_length]> (endless_loop_check st) |}.

(** Lines 351-362. *)
Definition rendered_assignee (action : IssueAction) : option string :=
  if truthy assignee then assignee
  else if unassigned then None
  else match action_assignee action with
       | Some a =>
           if truthy (Some a) then Some (render_template artifact_job a)
           else None
       | None => None
       end.

(** Lines 363-368: the action's [newa_id] is rendered in place. *)
Definition render_newa_id (action : IssueAction) : IssueAction :=
  match action_newa_id action with
  | Some n =>
      if truthy (Some n) then
        {| action_id := action_id action;
           action_parent_id := action_parent_id action;
           action_when := action_when action;
           action_summary := action_summary action;
           action_description := action_description action;
           action_assignee := action_assignee action;
           action_newa_id := Some (render_template artifact_job n);
           action_on_respin := action_on_respin action;
           action_job_recipe := action_job_recipe action |}
      else action
  | None => action
  end.

(** [action.when and not eval_test(action.when, ...)] *)
Definition irrelevant (action : IssueAction) : bool :=
  match action_when action with
  | Some w => truthy (Some w) && negb (eval_test artifact_job w)
  | None => false
  end.

(** [action.parent_id and action.parent_id not in processed_actions] *)
Definition parent_missing (action : IssueAction)
    (processed : gmap string Issue) : bool :=
  match action_parent_id action with
  | Some p => truthy (Some p) && negb (bool_decide (is_Some (processed !! p)))
  | None => false
  end.

(** [not action.parent_id or action.parent_id not in created_action_ids] *)
Definition parent_not_recreated (action : IssueAction)
    (created : list string) : bool :=
  match action_parent_id action with
  | Some p => negb (truthy (Some p)) || negb (bool_decide (p ∈ created))
  | None => true
  end.

(** Lines 406-410. *)
Definition is_new (action : IssueAction) (created : list string)
    (jira_issue : RawIssue) : bool :=
  contains (newa_id artifact_job action) (raw_description jira_issue)
  && parent_not_recreated action created.

(** Lines 394-424: the search result is split into the issues of the
    current respin and the opened issues of the previous ones. *)
Fixpoint classify (action : IssueAction) (created : list string)
    (search_result : list (string * RawIssue))
    (new_issues old_issues : list Issue) : list Issue * list Issue :=
  match search_result with
  | [] => (new_issues, old_issues)
  | (jira_issue_key, jira_issue) :: rest =>
      if is_new action created jira_issue then
        classify action created rest
          (new_issues ++
             [{| issue_id := jira_issue_key; issue_group := group;
                 issue_closed :=
                   bool_decide (raw_status jira_issue = "closed") |}])
          old_issues
      else if bool_decide (raw_status jira_issue = "opened") then
        classify action created rest new_issues
          (old_issues ++
             [{| issue_id := jira_issue_key; issue_group := group;
                 issue_closed := false |}])
      else classify action created rest new_issues old_issues
  end.

(** Lines 426-429. *)
Definition reuse_old (action : IssueAction)
    (new_issues old_issues : list Issue) : list Issue * list Issue :=
  match old_issues with
  | _ :: _ =>
      if bool_decide (action_on_respin action = KEEP)
      then (new_issues ++ old_issues, [])
      else (new_issues, old_issues)
  | [] => (new_issues, old_issues)
  end.

(** Lines 433-443: [None] stands for the [continue] of line 441. *)
Definition keep_opened (new_issues : list Issue) : option (list Issue) :=
  match new_issues with
  | _ :: _ =>
      if recreate then Some new_issues
      else
        match filter (fun i => issue_closed i = false) new_issues with
        | [] => None
        | opened_issues => Some opened_issues
        end
  | [] => Some new_issues
  end.

(** [processed_actions.get(action.parent_id, None)] under
    [if action.parent_id], lines 449-451. *)
Definition parent_issue (action : IssueAction)
    (processed : gmap string Issue) : option Issue :=
  match action_parent_id action with
  | Some p => if truthy (Some p) then processed !! p else None
  | None => None
  end.

(** Lines 445-478: the action is resolved to [new_issue]. *)
Definition resolve (rendered_summary rendered_description : string)
    (action : IssueAction) (new_issues : list Issue) (st : State H)
    : Outcome H Issue :=
  match new_issues with
  | [] =>
      let parent := parent_issue action (processed_actions st) in
      let '(new_issue, t) :=
        create_issue (tracker st) artifact_job action rendered_summary
          rendered_description (rendered_assignee action) parent group in
      let st :=
        set_tracker t
          (Create action rendered_summary rendered_description
             (rendered_assignee action) parent group) st in
      Ok new_issue (set_processed (action_id action) new_issue true st)
  | [new_issue] =>
      let st := set_processed (action_id action) new_issue false st in
      (* parent = processed_actions[action.parent_id]
                  if action.parent_id else None *)
      match action_parent_id action with
      | Some p =>
          if truthy (Some p) && negb (bool_decide (is_Some (processed_actions st !! p)))
          then Raise (KeyError p) st
          else
            Ok new_issue
              (set_tracker
                 (refresh_issue (tracker st) artifact_job action new_issue)
                 (Refresh action new_issue) st)
      | None =>
          Ok new_issue
            (set_tracker
               (refresh_issue (tracker st) artifact_job action new_issue)
               (Refresh action new_issue) st)
      end
  | _ :: _ :: _ => Raise (MoreThanOneNew (action_id action) new_issues) st
  end.

(** Lines 480-486. *)
Definition emit_jira_job (action : IssueAction) (new_issue : Issue)
    (st : State H) : State H :=
  match action_job_recipe action with
  | Some r =>
      if truthy (Some r) then
        record_call
          (SaveJiraJob
             {| jira_job_event := job_event artifact_job;
                jira_job_erratum := job_erratum artifact_job;
                jira_job_compose := job_compose artifact_job;
                jira_job_jira := new_issue;
                jira_job_recipe := {| recipe_url := r |} |}) st
      else st
  | None => st
  end.

(** The [for] loop of lines 493-496. *)
Fixpoint drop_old_issues (old_issues : list Issue) (obsoleted_by : Issue)
    (st : State H) : State H :=
  match old_issues with
  | [] => st
  | old_issue :: rest =>
      drop_old_issues rest obsoleted_by
        (set_tracker
           (drop_obsoleted_issue (tracker st) artifact_job old_issue
              obsoleted_by)
           (Drop old_issue obsoleted_by) st)
  end.

(** Lines 488-496; [processed_actions[action.id]] is read once per
    old issue and does not change in between. *)
Definition close_old_issues (action : IssueAction)
    (old_issues : list Issue) (st : State H) : Outcome H unit :=
  match old_issues with
  | [] => Ok () st
  | _ :: _ =>
      if bool_decide (action_on_respin action <> CLOSE)
      then Raise (InvalidRespinAction (action_on_respin action) old_issues) st
      else
        match processed_actions st !! action_id action with
        | Some obsoleted_by =>
            Ok () (drop_old_issues old_issues obsoleted_by st)
        | None => Raise (KeyError (action_id action)) st
        end
  end.

(** Lines 384-496: what happens to an action whose parent, if any,
    is resolved. *)
Definition reconcile_action (action : IssueAction) (st : State H)
    : Outcome H unit :=
  let rendered_summary :=
    render_template artifact_job (action_summary action) in
  let rendered_description :=
    render_template artifact_job (action_description action) in
  let search_result :=
    get_related_issues (tracker st) artifact_job action (negb recreate) in
  let st := record_call (Search action (negb recreate)) st in
  let '(new_issues, old_issues) :=
    classify action (created_action_ids st) search_result [] [] in
  let '(new_issues, old_issues) := reuse_old action new_issues old_issues in
  match keep_opened new_issues with
  | None => Ok () st
  | Some new_issues =>
      match resolve rendered_summary rendered_description action
              new_issues st with
      | Raise e st => Raise e st
      | Ok new_issue st =>
          close_old_issues action old_issues
            (emit_jira_job action new_issue st)
      end
  end.

(** Lines 370-382. *)
Definition await_parent (action : IssueAction) (st : State H) : Outcome H unit :=
  let queue_length := length (issue_actions st) in
  let last_queue_length :=
    default 0 (endless_loop_check st !! action_id action) in
  if bool_decide (last_queue_length = queue_length)
  then
    Raise
      (ParentNotFound (default "" (action_parent_id action))
         (action_id action)) st
  else Ok () (defer action queue_length st).

(** The body of the [while] loop, lines 330-496, for the action that
    was popped; [issue_actions st] is the rest of the queue. *)
Definition process_action (action : IssueAction) (st : State H)
    : Outcome H unit :=
  if irrelevant action then Ok () st
  else
    let action := render_newa_id action in
    if parent_missing action (processed_actions st) then await_parent action st
    else reconcile_action action st.

(** The [while issue_actions] loop of line 327. *)
Fixpoint reconcile (fuel : nat) (st : State H) : Run H :=
  match issue_actions st with
  | [] => Finished st
  | action :: rest =>
      match fuel with
      | O => OutOfFuel st
      | S fuel' =>
          match process_action action (set_queue rest st) with
          | Ok _ st' => reconcile fuel' st'
          | Raise e st' => Failed e st'
          end
      end
  end.

(** Iterations that the loop needs at most for a queue of [n]
    actions: more than [n * n + n], the largest value of the measure
    below. *)
Definition enough (n : nat) : nat := S (n * n + n).

(** Lines 312-323: the queue and the empty dictionaries. *)
Definition init_state (t : H) (c : list Call)
    (actions : list IssueAction) : State H :=
  {| tracker := t; calls := c; issue_actions := actions;
     processed_actions := ∅; created_action_ids := [];
     endless_loop_check := ∅ |}.

(** *** The loop leaves the queue alone unless it defers *)

Definition outcome_state {A} (o : Outcome H A) : State H :=
  match o with Ok _ st => st | Raise _ st => st end.

Definition is_deferral (id : string) (c : Call) : bool :=
  match c with
  | Deferred i _ => bool_decide (i = id)
  | _ => false
  end.

(** How often the action [id] was put back into the queue. *)
Definition deferrals (id : string) (cs : list Call) : nat :=
  length (List.filter (is_deferral id) cs).

Lemma deferrals_app id cs cs' :
  deferrals id (cs ++ cs') = deferrals id cs + deferrals id cs'.
Proof. unfold deferrals. by rewrite List.filter_app, length_app. Qed.

(** [st'] has the queue, the deferral record and the deferrals of
    [st]. *)
Definition same_queue (st st' : State H) : Prop :=
  issue_actions st' = issue_actions st
  /\ endless_loop_check st' = endless_loop_check st
  /\ forall id, deferrals id (calls st') = deferrals id (calls st).

Lemma same_queue_refl st : same_queue st st.
Proof. by repeat split. Qed.

Lemma same_queue_trans st1 st2 st3 :
  same_queue st1 st2 -> same_queue st2 st3 -> same_queue st1 st3.
Proof.
  intros (? & ? & ?) (? & ? & ?). repeat split; congruence.
Qed.

Lemma same_queue_set_tracker t c st :
  (forall id, is_deferral id c = false) ->
  same_queue st (set_tracker t c st).
Proof.
  intros Hc. repeat split. intros id. simpl.
  rewrite deferrals_app. unfold deferrals at 2. simpl. rewrite Hc. simpl. lia.
Qed.

Lemma same_queue_set_processed id i b st :
  same_queue st (set_processed id i b st).
Proof. by repeat split. Qed.

Lemma same_queue_drop_old_issues old_issues obsoleted_by st :
  same_queue st (drop_old_issues old_issues obsoleted_by st).
Proof.
  revert st. induction old_issues as [|o l IH]; intros st; simpl.
  - apply same_queue_refl.
  - eapply same_queue_trans; [|apply IH].
    by apply same_queue_set_tracker.
Qed.

Lemma same_queue_emit_jira_job action new_issue st :
  same_queue st (emit_jira_job action new_issue st).
Proof.
  unfold emit_jira_job.
  destruct (action_job_recipe action) as [r|]; [|apply same_queue_refl].
  destruct (truthy (Some r)); [|apply same_queue_refl].
  by apply same_queue_set_tracker.
Qed.

Lemma same_queue_resolve s d action new_issues st :
  same_queue st (outcome_state (resolve s d action new_issues st)).
Proof.
  unfold resolve. destruct new_issues as [|i [|j l]].
  - destruct (create_issue _ _ _ _ _ _ _ _) as [new_issue t]. simpl.
    eapply same_queue_trans; [|apply same_queue_set_processed].
    by apply same_queue_set_tracker.
  - destruct (action_parent_id action) as [p|].
    + destruct (_ && _); simpl.
      * apply same_queue_set_processed.
      * eapply same_queue_trans; [apply same_queue_set_processed|].
        by apply same_queue_set_tracker.
    + simpl. eapply same_queue_trans; [apply same_queue_set_processed|].
      by apply same_queue_set_tracker.
  - apply same_queue_refl.
Qed.

Lemma same_queue_close_old_issues action old_issues st :
  same_queue st (outcome_state (close_old_issues action old_issues st)).
Proof.
  unfold close_old_issues. destruct old_issues as [|o l].
  - apply same_queue_refl.
  - destruct (bool_decide _); [apply same_queue_refl|].
    destruct (processed_actions st !! action_id action).
    + apply (same_queue_drop_old_issues (o :: l)).
    + apply same_queue_refl.
Qed.

Lemma same_queue_reconcile_action action st :
  same_queue st (outcome_state (reconcile_action action st)).
Proof.
  unfold reconcile_action.
  destruct (classify _ _ _ _ _) as [new_issues old_issues].
  destruct (reuse_old _ _ _) as [new_issues' old_issues'].
  assert (same_queue st (record_call (Search action (negb recreate)) st))
    as Hs by by apply same_queue_set_tracker.
  destruct (keep_opened new_issues') as [l|]; [|exact Hs].
  pose proof (same_queue_resolve
    (render_template artifact_job (action_summary action))
    (render_template artifact_job (action_description action))
    action l (record_call (Search action (negb recreate)) st)) as Hr.
  destruct (resolve _ _ _ _ _) as [new_issue st1|e st1]; simpl in Hr.
  - eapply same_queue_trans; [exact Hs|].
    eapply same_queue_trans; [exact Hr|].
    eapply same_queue_trans; [apply same_queue_emit_jira_job|].
    apply same_queue_close_old_issues.
  - simpl. eapply same_queue_trans; eauto.
Qed.

Lemma render_newa_id_id action :
  action_id (render_newa_id action) = action_id action.
Proof.
  unfold render_newa_id. destruct (action_newa_id action); [|done].
  by destruct (truthy _).
Qed.

(** One iteration either raises, or leaves the rest of the queue as
    it is, or defers the action. *)
Lemma process_action_cases action st :
  (exists e st', process_action action st = Raise e st'
                 /\ forall id, deferrals id (calls st') = deferrals id (calls st))
  \/ (exists st', process_action action st = Ok () st' /\ same_queue st st')
  \/ (process_action action st
       = Ok () (defer (render_newa_id action) (length (issue_actions st)) st)
      /\ default 0 (endless_loop_check st !! action_id action)
         <> length (issue_actions st)).
Proof.
  unfold process_action.
  destruct (irrelevant action).
  { right; left. eexists; split; [done|apply same_queue_refl]. }
  destruct (parent_missing _ _).
  - unfold await_parent. rewrite render_newa_id_id. case_bool_decide.
    + left. by do 2 eexists.
    + by right; right.
  - pose proof (same_queue_reconcile_action (render_newa_id action) st) as Hq.
    destruct (reconcile_action _ _) as [[] st'|e st']; simpl in Hq.
    + right; left. eauto.
    + left. do 2 eexists; split; [done|]. apply Hq.
Qed.

(** *** Termination of the loop *)

(** The actions of the queue whose last recorded queue length is not
    [len]: those that can still be deferred at this queue length. *)
Definition deferrable (chk : gmap string nat) (len : nat)
    (queue : list IssueAction) : nat :=
  length (List.filter
            (fun a => negb (bool_decide (default 0 (chk !! action_id a) = len)))
            queue).

Lemma deferrable_le chk len queue : deferrable chk len queue <= length queue.
Proof. apply List.filter_length_le. Qed.

Lemma deferrable_insert chk id len queue :
  deferrable (<[id := len]> chk) len queue <= deferrable chk len queue.
Proof.
  unfold deferrable. induction queue as [|a q IH]; simpl; [lia|].
  destruct (decide (id = action_id a)) as [->|Hne].
  - rewrite lookup_insert_eq. simpl. rewrite bool_decide_eq_true_2 by done.
    simpl. destruct (negb _); simpl; lia.
  - rewrite lookup_insert_ne by done. destruct (negb _); simpl; lia.
Qed.

(** The measure that decreases with every iteration. *)
Definition measure (st : State H) : nat :=
  let n := length (issue_actions st) in
  n * n + deferrable (endless_loop_check st) (n - 1) (issue_actions st).

Lemma measure_enough st : measure st < enough (length (issue_actions st)).
Proof.
  unfold measure, enough.
  pose proof (deferrable_le (endless_loop_check st)
                (length (issue_actions st) - 1) (issue_actions st)).
  lia.
Qed.

Lemma process_action_measure action rest st st' :
  issue_actions st = action :: rest ->
  process_action action (set_queue rest st) = Ok () st' ->
  measure st' < measure st.
Proof.
  intros Hq Hp.
  destruct (process_action_cases action (set_queue rest st))
    as [(e & st1 & He & _)|[(st1 & Hs & Hsame)|[Hd Hne]]].
  - congruence.
  - assert (st1 = st') as -> by congruence.
    destruct Hsame as (Hq' & Hc' & _). simpl in Hq', Hc'.
    unfold measure. rewrite Hq', Hc', Hq. simpl.
    pose proof (deferrable_le (endless_loop_check st) (length rest - 1) rest).
    lia.
  - rewrite Hd in Hp. injection Hp as <-. simpl in Hne.
    unfold measure. rewrite Hq. simpl.
    rewrite length_app. simpl.
    replace (length rest + 1 - 1) with (length rest) by lia.
    replace (length rest - 0) with (length rest) by lia.
    rewrite render_newa_id_id.
    unfold deferrable at 2. simpl.
    rewrite bool_decide_eq_false_2 by done. simpl.
    fold (deferrable (endless_loop_check st) (length rest) rest).
    unfold deferrable at 1. rewrite List.filter_app, length_app. simpl.
    rewrite render_newa_id_id, lookup_insert_eq. simpl.
    rewrite bool_decide_eq_true_2 by done. simpl.
    pose proof (deferrable_insert (endless_loop_check st) (action_id action)
                  (length rest) rest) as Hle.
    unfold deferrable in Hle at 1. lia.
Qed.

(** With more iterations allowed than the measure, the loop ends: it
    empties the queue or raises. *)
Lemma reconcile_ends fuel st :
  measure st < fuel ->
  exists st',
    (reconcile fuel st = Finished st' /\ issue_actions st' = [])
    \/ exists e, reconcile fuel st = Failed e st'.
Proof.
  revert st. induction fuel as [|fuel IH]; intros st Hm; [lia|].
  simpl. destruct (issue_actions st) as [|action rest] eqn:Hq.
  - exists st. by left.
  - destruct (process_action action (set_queue rest st)) as [[] st1|e st1] eqn:Hp.
    + apply IH. pose proof (process_action_measure _ _ _ _ Hq Hp). lia.
    + exists st1. right. by exists e.
Qed.

(** *** Each action is deferred at most as often as the queue is long *)

Definition run_state (r : Run H) : State H :=
  match r with Finished st | Failed _ st | OutOfFuel st => st end.

(** The invariant of the loop, for a run that started with [n0] actions
    and the calls [c0]: the queue length recorded for an action bounds
    the deferrals this action has left. *)
Definition deferral_inv (n0 : nat) (c0 : list Call) (st : State H) : Prop :=
  length (issue_actions st) <= n0
  /\ forall id,
       match endless_loop_check st !! id with
       | None => deferrals id (calls st) = deferrals id c0
       | Some c =>
           length (issue_actions st) <= c + 1
           /\ deferrals id (calls st) + c <= deferrals id c0 + n0
       end.

Lemma deferral_inv_bound n0 c0 st id :
  deferral_inv n0 c0 st -> deferrals id (calls st) <= deferrals id c0 + n0.
Proof.
  intros [_ Hi]. specialize (Hi id).
  destruct (endless_loop_check st !! id); lia.
Qed.

Lemma deferral_inv_init n0 c0 t actions :
  length actions <= n0 -> deferral_inv n0 c0 (init_state t c0 actions).
Proof. intros Hn. split; [done|]. intros id. simpl. by rewrite lookup_empty. Qed.

Lemma deferral_inv_same_queue n0 c0 action rest st st' :
  issue_actions st = action :: rest ->
  deferral_inv n0 c0 st -> same_queue (set_queue rest st) st' ->
  deferral_inv n0 c0 st'.
Proof.
  intros Hq [Hn Hi] (Hq' & Hc' & Hd'). simpl in Hq', Hc', Hd'.
  rewrite Hq in Hn, Hi. simpl in Hn, Hi.
  split; [rewrite Hq'; lia|].
  intros id. specialize (Hi id). rewrite Hc', Hq', Hd'.
  destruct (endless_loop_check st !! id); lia.
Qed.

Lemma deferrals_single id id' len :
  deferrals id [Deferred id' len] = if bool_decide (id' = id) then 1 else 0.
Proof. unfold deferrals. simpl. by destruct (bool_decide _). Qed.

Lemma deferral_inv_defer n0 c0 action rest st :
  issue_actions st = action :: rest ->
  default 0 (endless_loop_check st !! action_id action) <> length rest ->
  deferral_inv n0 c0 st ->
  deferral_inv n0 c0 (defer (render_newa_id action) (length rest) (set_queue rest st)).
Proof.
  intros Hq Hne [Hn Hi]. rewrite Hq in Hn, Hi. simpl in Hn, Hi.
  split; simpl; [rewrite length_app; simpl; lia|].
  intros id.
  rewrite render_newa_id_id, length_app, deferrals_app, deferrals_single. simpl.
  destruct (decide (action_id action = id)) as [<-|Hid].
  - rewrite lookup_insert_eq, bool_decide_eq_true_2 by done. simpl.
    specialize (Hi (action_id action)).
    destruct (endless_loop_check st !! action_id action); simpl in Hne; lia.
  - rewrite lookup_insert_ne, bool_decide_eq_false_2 by done. simpl.
    specialize (Hi id).
    destruct (endless_loop_check st !! id); lia.
Qed.

Lemma reconcile_deferrals n0 c0 fuel st id :
  deferral_inv n0 c0 st ->
  deferrals id (calls (run_state (reconcile fuel st))) <= deferrals id c0 + n0.
Proof.
  revert st. induction fuel as [|fuel IH]; intros st Hinv.
  - simpl. destruct (issue_actions st); simpl; by apply deferral_inv_bound.
  - simpl. destruct (issue_actions st) as [|action rest] eqn:Hq.
    { simpl. by apply deferral_inv_bound. }
    destruct (process_action_cases action (set_queue rest st))
      as [(e & st1 & -> & Hd)|[(st1 & -> & Hsame)|[-> Hne]]].
    + simpl. rewrite Hd. simpl. by apply deferral_inv_bound.
    + apply IH. eapply deferral_inv_same_queue; eauto.
    + apply IH. simpl. by apply deferral_inv_defer.
Qed.

(** *** The classification of the search result *)

Definition new_issue_of (entry : string * RawIssue) : Issue :=
  {| issue_id := entry.1; issue_group := group;
     issue_closed := bool_decide (raw_status entry.2 = "closed") |}.

Definition old_issue_of (entry : string * RawIssue) : Issue :=
  {| issue_id := entry.1; issue_group := group; issue_closed := false |}.

Lemma classify_filter action created search_result new_issues old_issues :
  classify action created search_result new_issues old_issues =
  (new_issues ++
     map new_issue_of
       (List.filter (fun e => is_new action created e.2) search_result),
   old_issues ++
     map old_issue_of
       (List.filter
          (fun e => negb (is_new action created e.2)
                    && bool_decide (raw_status e.2 = "opened"))
          search_result)).
Proof.
  revert new_issues old_issues.
  induction search_result as [|[k ri] l IH]; intros new_issues old_issues.
  - simpl. by rewrite !app_nil_r.
  - simpl. destruct (is_new action created ri); simpl.
    + rewrite IH. by rewrite <- app_assoc.
    + destruct (bool_decide (raw_status ri = "opened")); simpl.
      * rewrite IH. by rewrite <- app_assoc.
      * apply IH.
Qed.

(** *** The resolution of an action *)

Lemma parent_issue_resolved action processed p :
  parent_missing action processed = false ->
  action_parent_id action = Some p -> p <> "" ->
  parent_issue action processed = processed !! p
  /\ is_Some (parent_issue action processed).
Proof.
  unfold parent_missing, parent_issue. intros Hm Ha Hp. rewrite Ha in *.
  assert (truthy (Some p) = true) as Ht.
  { simpl. by rewrite bool_decide_eq_false_2. }
  rewrite Ht in *. simpl in Hm. split; [done|].
  by apply negb_false_iff, bool_decide_eq_true in Hm.
Qed.

Lemma resolve_create s d action st :
  resolve s d action [] st =
  let parent := parent_issue action (processed_actions st) in
  let created :=
    create_issue (tracker st) artifact_job action s d
      (rendered_assignee action) parent group in
  Ok created.1
    (set_processed (action_id action) created.1 true
       (set_tracker created.2
          (Create action s d (rendered_assignee action) parent group) st)).
Proof. unfold resolve. simpl. by destruct (create_issue _ _ _ _ _ _ _ _). Qed.

Definition refreshed (action : IssueAction) (new_issue : Issue)
    (st : State H) : State H :=
  let st := set_processed (action_id action) new_issue false st in
  set_tracker (refresh_issue (tracker st) artifact_job action new_issue)
    (Refresh action new_issue) st.

Lemma resolve_refresh s d action new_issue st :
  parent_missing action (processed_actions st) = false ->
  resolve s d action [new_issue] st = Ok new_issue (refreshed action new_issue st).
Proof.
  unfold resolve, parent_missing, refreshed. intros Hm.
  destruct (action_parent_id action) as [p|]; [|done].
  destruct (truthy (Some p)); [|done]. simpl in *.
  apply negb_false_iff, bool_decide_eq_true in Hm.
  rewrite bool_decide_eq_true_2; [done|].
  apply lookup_insert_is_Some'. by right.
Qed.

Lemma resolve_refresh_inv s d action new_issue st i st' :
  resolve s d action [new_issue] st = Ok i st' ->
  i = new_issue /\ st' = refreshed action new_issue st.
Proof.
  unfold resolve, refreshed.
  destruct (action_parent_id action) as [p|].
  - destruct (_ && _); [done|]. by intros [= <- <-].
  - by intros [= <- <-].
Qed.

Lemma calls_emit_jira_job action new_issue st c :
  c ∈ calls (emit_jira_job action new_issue st) ->
  c ∈ calls st \/ exists j, c = SaveJiraJob j.
Proof.
  unfold emit_jira_job. destruct (action_job_recipe action) as [r|]; [|by left].
  destruct (truthy (Some r)); [|by left]. simpl.
  intros [?|Hc]%elem_of_app; [by left|].
  apply list_elem_of_singleton in Hc as ->. right; eauto.
Qed.

Lemma processed_emit_jira_job action new_issue st :
  processed_actions (emit_jira_job action new_issue st) = processed_actions st
  /\ created_action_ids (emit_jira_job action new_issue st)
     = created_action_ids st.
Proof.
  unfold emit_jira_job. destruct (action_job_recipe action) as [r|]; [|done].
  by destruct (truthy (Some r)).
Qed.

(** *** Closing the old issues *)

Lemma drop_old_issues_calls old_issues obsoleted_by st :
  calls (drop_old_issues old_issues obsoleted_by st)
  = calls st ++ map (fun o => Drop o obsoleted_by) old_issues
  /\ tracker (drop_old_issues old_issues obsoleted_by st)
     = foldl (fun t o => drop_obsoleted_issue t artifact_job o obsoleted_by)
         (tracker st) old_issues
  /\ processed_actions (drop_old_issues old_issues obsoleted_by st)
     = processed_actions st.
Proof.
  revert st. induction old_issues as [|o l IH]; intros st; simpl.
  - by rewrite app_nil_r.
  - destruct (IH (set_tracker
                    (drop_obsoleted_issue (tracker st) artifact_job o obsoleted_by)
                    (Drop o obsoleted_by) st)) as (-> & -> & ->).
    simpl. by rewrite <- app_assoc.
Qed.

(** *** Reuse of the old issues *)

Lemma reconcile_action_resolve action st new_issues old_issues l :
  classify action (created_action_ids st)
    (get_related_issues (tracker st) artifact_job action (negb recreate)) [] []
  = (new_issues, old_issues) ->
  keep_opened (reuse_old action new_issues old_issues).1 = Some l ->
  reconcile_action action st =
  match resolve (render_template artifact_job (action_summary action))
          (render_template artifact_job (action_description action))
          action l (record_call (Search action (negb recreate)) st) with
  | Raise e st' => Raise e st'
  | Ok new_issue st' =>
      close_old_issues action (reuse_old action new_issues old_issues).2
        (emit_jira_job action new_issue st')
  end.
Proof.
  intros Hc Hk. unfold reconcile_action. simpl. rewrite Hc.
  destruct (reuse_old action new_issues old_issues) as [n o]. simpl in *.
  by rewrite Hk.
Qed.

(** *** The calls of one step come after the earlier ones *)

Definition extends (st st' : State H) : Prop :=
  exists rest, calls st' = calls st ++ rest.

Lemma extends_refl st : extends st st.
Proof. exists []. by rewrite app_nil_r. Qed.

Lemma extends_trans st1 st2 st3 :
  extends st1 st2 -> extends st2 st3 -> extends st1 st3.
Proof.
  intros [r1 H1] [r2 H2]. exists (r1 ++ r2). by rewrite H2, H1, app_assoc.
Qed.

Lemma extends_resolve s d action new_issues st :
  extends st (outcome_state (resolve s d action new_issues st)).
Proof.
  unfold resolve. destruct new_issues as [|i [|j l]].
  - destruct (create_issue _ _ _ _ _ _ _ _). simpl. by eexists.
  - destruct (action_parent_id action) as [p|]; [destruct (_ && _)|]; simpl.
    + exists []. simpl. by rewrite app_nil_r.
    + by eexists.
    + by eexists.
  - apply extends_refl.
Qed.

Lemma extends_emit_jira_job action new_issue st :
  extends st (emit_jira_job action new_issue st).
Proof.
  unfold emit_jira_job.
  destruct (action_job_recipe action) as [r|]; [|apply extends_refl].
  destruct (truthy (Some r)); [|apply extends_refl]. by eexists.
Qed.

Lemma extends_close_old_issues action old_issues st :
  extends st (outcome_state (close_old_issues action old_issues st)).
Proof.
  unfold close_old_issues. destruct old_issues as [|o l]; [apply extends_refl|].
  destruct (bool_decide _); [apply extends_refl|].
  destruct (processed_actions st !! action_id action) as [i|];
    [|apply extends_refl].
  destruct (drop_old_issues_calls (o :: l) i st) as (Hc & _). by eexists.
Qed.

Lemma reconcile_action_searches action st :
  exists rest,
    calls (outcome_state (reconcile_action action st))
    = calls st ++ Search action (negb recreate) :: rest.
Proof.
  assert (forall st',
    extends (record_call (Search action (negb recreate)) st) st' ->
    exists rest, calls st' = calls st ++ Search action (negb recreate) :: rest)
    as Hx.
  { intros st' [rest Hr]. exists rest. rewrite Hr. simpl.
    by rewrite <- app_assoc. }
  unfold reconcile_action.
  destruct (classify _ _ _ _ _) as [new_issues old_issues].
  destruct (reuse_old _ _ _) as [new_issues' old_issues'].
  destruct (keep_opened new_issues') as [l|]; [|apply Hx, extends_refl].
  pose proof (extends_resolve
    (render_template artifact_job (action_summary action))
    (render_template artifact_job (action_description action))
    action l (record_call (Search action (negb recreate)) st)) as Hr.
  destruct (resolve _ _ _ _ _) as [new_issue st1|e st1]; simpl in Hr.
  - apply Hx. eapply extends_trans; [exact Hr|].
    eapply extends_trans; [apply extends_emit_jira_job|].
    apply extends_close_old_issues.
  - by apply Hx.
Qed.

(** *** Properties of the reconciliation *)

(** C2, as the code has it. The search includes closed issues unless
    [recreate] is set. An issue of the search result is new exactly when
    the identifier of the action occurs in its description and the
    action has no parent or its parent's issue was not created in this
    run; an issue that is not new is old exactly when its status is
    "opened". *)
Theorem classify_new_and_old (action : IssueAction) (st : State H)
    (created : list string) (search_result : list (string * RawIssue)) :
  (exists rest,
     calls (outcome_state (reconcile_action action st))
     = calls st ++ Search action (negb recreate) :: rest)
  /\ classify action created search_result [] [] =
     (map new_issue_of
        (List.filter
           (fun e =>
              contains (newa_id artifact_job action) (raw_description e.2)
              && parent_not_recreated action created)
           search_result),
      map old_issue_of
        (List.filter
           (fun e =>
              negb (contains (newa_id artifact_job action) (raw_description e.2)
                    && parent_not_recreated action created)
              && bool_decide (raw_status e.2 = "opened"))
           search_result)).
Proof.
  split; [apply reconcile_action_searches|].
  by rewrite classify_filter.
Qed.

Lemma resolve_records s d action new_issues st new_issue st' :
  resolve s d action new_issues st = Ok new_issue st' ->
  processed_actions st' !! action_id action = Some new_issue.
Proof.
  destruct new_issues as [|i [|j l]].
  - rewrite resolve_create. simpl. intros [= <- <-]. simpl.
    apply lookup_insert_eq.
  - intros [-> ->]%resolve_refresh_inv. simpl. apply lookup_insert_eq.
  - done.
Qed.

Lemma keep_opened_elem new_issues l i :
  keep_opened new_issues = Some l -> i ∈ l -> i ∈ new_issues.
Proof.
  unfold keep_opened. destruct new_issues as [|x xs]; [by intros [= <-]|].
  destruct recreate; [by intros [= <-]|].
  destruct (filter _ _) as [|y ys] eqn:Hf; [done|].
  intros [= <-] Hi. rewrite <- Hf in Hi.
  by apply list_elem_of_filter in Hi as [_ ?].
Qed.

Lemma filter_fst_NoDup (f : string * RawIssue -> bool)
    (search_result : list (string * RawIssue)) :
  NoDup search_result.*1 -> NoDup (List.filter f search_result).*1.
Proof.
  induction search_result as [|e l IH]; simpl; [done|].
  intros [Hn Hl]%NoDup_cons. destruct (f e); simpl; [|by apply IH].
  apply NoDup_cons. split; [|by apply IH].
  intros (e' & He & Hin)%list_elem_of_fmap. apply Hn.
  apply list_elem_of_fmap. exists e'. split; [done|].
  apply list_elem_of_In, filter_In in Hin as [Hin _]. by apply list_elem_of_In.
Qed.

(** C3. After the respin handling the loop body resolves the action
    with the new issues that remain, and an action that reaches the
    resolution is resolved like this.
    Without a new issue one is created, with the issue of the parent
    action as its parent when the action declares a parent, and the
    action is noted as created. With exactly one new issue this issue is
    refreshed and nothing is created. In both cases the issue is
    recorded for the action in [processed_actions]. With more than one
    new issue the error is raised and nothing else happens. *)
Theorem resolve_to_one_issue (s d : string) (action : IssueAction)
    (new_issues : list Issue) (st : State H) :
  parent_missing action (processed_actions st) = false ->
  (forall st0 found_new found_old remaining,
     classify action (created_action_ids st0)
       (get_related_issues (tracker st0) artifact_job action (negb recreate))
       [] []
     = (found_new, found_old) ->
     keep_opened (reuse_old action found_new found_old).1 = Some remaining ->
     reconcile_action action st0 =
     match resolve (render_template artifact_job (action_summary action))
             (render_template artifact_job (action_description action))
             action remaining
             (record_call (Search action (negb recreate)) st0) with
     | Raise e st' => Raise e st'
     | Ok new_issue st' =>
         close_old_issues action (reuse_old action found_new found_old).2
           (emit_jira_job action new_issue st')
     end)
  /\
  match new_issues with
  | [] =>
      let parent := parent_issue action (processed_actions st) in
      let created :=
        create_issue (tracker st) artifact_job action s d
          (rendered_assignee action) parent group in
      (forall p, action_parent_id action = Some p -> p <> "" ->
                 parent = processed_actions st !! p /\ is_Some parent)
      /\ exists st',
           resolve s d action new_issues st = Ok created.1 st'
           /\ tracker st' = created.2
           /\ calls st'
              = calls st
                ++ [Create action s d (rendered_assignee action) parent group]
           /\ processed_actions st'
              = <[action_id action := created.1]> (processed_actions st)
           /\ created_action_ids st'
              = created_action_ids st ++ [action_id action]
  | [issue] =>
      exists st',
        resolve s d action new_issues st = Ok issue st'
        /\ tracker st' = refresh_issue (tracker st) artifact_job action issue
        /\ calls st' = calls st ++ [Refresh action issue]
        /\ processed_actions st'
           = <[action_id action := issue]> (processed_actions st)
        /\ created_action_ids st' = created_action_ids st
  | _ :: _ :: _ =>
      resolve s d action new_issues st
      = Raise (MoreThanOneNew (action_id action) new_issues) st
  end.
Proof.
  intros Hm. split; [apply reconcile_action_resolve|].
  destruct new_issues as [|i [|j l]].
  - cbv zeta. split.
    + intros p Hp Hne. by apply parent_issue_resolved.
    + eexists. rewrite resolve_create. by repeat split.
  - eexists. rewrite resolve_refresh by done. by repeat split.
  - done.
Qed.

Lemma reuse_old_keep action new_issues old_issues :
  action_on_respin action = KEEP -> old_issues <> [] ->
  reuse_old action new_issues old_issues = (new_issues ++ old_issues, []).
Proof.
  intros Hkeep Hne. unfold reuse_old. destruct old_issues; [done|].
  by rewrite bool_decide_eq_true_2.
Qed.

Lemma reused_state action i st :
  let st' :=
    emit_jira_job action i
      (refreshed action i (record_call (Search action (negb recreate)) st)) in
  processed_actions st' !! action_id action = Some i
  /\ created_action_ids st' = created_action_ids st
  /\ (forall c, c ∈ calls st' ->
        c ∈ calls st \/ c = Search action (negb recreate)
        \/ c = Refresh action i \/ exists j, c = SaveJiraJob j).
Proof.
  simpl. destruct (processed_emit_jira_job action i
    (refreshed action i (record_call (Search action (negb recreate)) st)))
    as [-> ->]. simpl.
  split; [apply lookup_insert_eq|]. split; [done|].
  intros c [Hc|Hc]%calls_emit_jira_job; [|by do 3 right]. simpl in Hc.
  apply elem_of_app in Hc as [Hc|Hc].
  - apply elem_of_app in Hc as [Hc|Hc]; [by left|].
    apply list_elem_of_singleton in Hc. by right; left.
  - apply list_elem_of_singleton in Hc. by right; right; left.
Qed.

(** *** What KEEP leaves to resolve *)

(** The keys and the statuses of a search result. *)
Definition statuses (search_result : list (string * RawIssue))
    : list (string * string) :=
  map (fun e => (e.1, raw_status e.2)) search_result.

(** The issues of the entries whose status is opened. *)
Definition opened_issues (search_result : list (string * RawIssue))
    : list Issue :=
  map old_issue_of
    (List.filter (fun e => bool_decide (raw_status e.2 = "opened"))
       search_result).

(** Every issue found is opened, or it is closed and the search
    includes the closed issues. *)
Definition statuses_known (search_result : list (string * RawIssue)) : Prop :=
  Forall (fun e => raw_status e.2 = "opened"
                   \/ (recreate = false /\ raw_status e.2 = "closed"))
    search_result.

Lemma opened_issues_statuses search_result search_result' :
  statuses search_result' = statuses search_result ->
  opened_issues search_result' = opened_issues search_result.
Proof.
  revert search_result'.
  induction search_result as [|[k r] l IH]; intros [|[k' r'] l']; try done.
  unfold statuses, opened_issues. simpl. intros [= -> -> Hl].
  destruct (bool_decide (raw_status r = "opened")); simpl;
    [f_equal|]; by apply IH.
Qed.

Lemma statuses_known_statuses search_result search_result' :
  statuses search_result' = statuses search_result ->
  statuses_known search_result -> statuses_known search_result'.
Proof.
  revert search_result'.
  induction search_result as [|[k r] l IH]; intros [|[k' r'] l']; try done.
  unfold statuses. simpl. intros [= -> Hr Hl] Hk.
  apply Forall_cons in Hk as [Hx Hk]. apply Forall_cons. simpl in *.
  split; [by rewrite Hr|by apply IH].
Qed.

Lemma reuse_old_keep_all action new_issues old_issues :
  action_on_respin action = KEEP ->
  reuse_old action new_issues old_issues = (new_issues ++ old_issues, []).
Proof.
  intros Hkeep. unfold reuse_old. destruct old_issues; [by rewrite app_nil_r|].
  by rewrite bool_decide_eq_true_2.
Qed.

Lemma filter_opened_old (entries : list (string * RawIssue)) :
  filter (fun i => issue_closed i = false) (map old_issue_of entries)
  = map old_issue_of entries.
Proof.
  induction entries as [|e l IH]; [done|]. simpl.
  rewrite filter_cons_True by done. by rewrite IH.
Qed.

Lemma filter_opened_new f search_result :
  statuses_known search_result ->
  filter (fun i => issue_closed i = false)
    (map new_issue_of (List.filter f search_result))
  = map old_issue_of
      (List.filter
         (fun e => f e && bool_decide (raw_status e.2 = "opened"))
         search_result).
Proof.
  induction 1 as [|e l He _ IH]; [done|]. simpl.
  destruct (f e); simpl; [|exact IH].
  destruct He as [He|[_ He]].
  - rewrite filter_cons_True by (unfold new_issue_of; simpl; by rewrite He).
    rewrite (bool_decide_eq_true_2 _ He). simpl. rewrite IH. f_equal.
    unfold new_issue_of, old_issue_of. by rewrite He.
  - rewrite filter_cons_False by (unfold new_issue_of; simpl; by rewrite He).
    rewrite bool_decide_eq_false_2 by (by rewrite He). exact IH.
Qed.

Lemma all_opened_new f search_result :
  recreate = true -> statuses_known search_result ->
  map new_issue_of (List.filter f search_result)
  = map old_issue_of
      (List.filter
         (fun e => f e && bool_decide (raw_status e.2 = "opened"))
         search_result).
Proof.
  intros Hr. induction 1 as [|e l He _ IH]; [done|]. simpl.
  destruct He as [He|[? _]]; [|congruence].
  rewrite (bool_decide_eq_true_2 _ He), andb_true_r.
  destruct (f e); simpl; [|exact IH]. rewrite IH. f_equal.
  unfold new_issue_of, old_issue_of. by rewrite He.
Qed.

Lemma filter_split {A} (f g : A -> bool) (l : list A) :
  List.filter (fun x => f x && g x) l
  ++ List.filter (fun x => negb (f x) && g x) l
  ≡ₚ List.filter g l.
Proof.
  induction l as [|x l IH]; [done|]. simpl.
  destruct (f x), (g x); simpl; try exact IH.
  - by rewrite IH.
  - rewrite <- Permutation_middle. by rewrite IH.
Qed.

(** With KEEP the issues left to resolve are the opened issues found,
    whichever of them belong to the current respin, and no old issue is
    left. *)
Lemma keep_leaves_opened action created search_result :
  action_on_respin action = KEEP ->
  statuses_known search_result ->
  opened_issues search_result <> [] ->
  exists new_issues old_issues l,
    classify action created search_result [] [] = (new_issues, old_issues)
    /\ (reuse_old action new_issues old_issues).2 = []
    /\ keep_opened (reuse_old action new_issues old_issues).1 = Some l
    /\ l ≡ₚ opened_issues search_result.
Proof.
  intros Hkeep Hknown Hne. rewrite classify_filter. simpl.
  eexists _, _. rewrite reuse_old_keep_all by done. simpl.
  set (kept :=
         map old_issue_of
           (List.filter
              (fun e => is_new action created e.2
                        && bool_decide (raw_status e.2 = "opened"))
              search_result)
         ++ map old_issue_of
              (List.filter
                 (fun e => negb (is_new action created e.2)
                           && bool_decide (raw_status e.2 = "opened"))
                 search_result)).
  assert (kept ≡ₚ opened_issues search_result) as Hperm.
  { subst kept. unfold opened_issues. rewrite <- map_app.
    apply Permutation_map.
    apply (filter_split (fun e => is_new action created e.2)
             (fun e => bool_decide (raw_status e.2 = "opened"))). }
  assert (kept <> []) as Hkept.
  { intros Hnil. rewrite Hnil in Hperm.
    by apply Permutation_nil_l in Hperm. }
  exists kept. split; [done|]. split; [done|]. split; [|done].
  unfold keep_opened. destruct recreate eqn:Hrec.
  - rewrite (all_opened_new _ _ Hrec Hknown). fold kept.
    by destruct kept.
  - match goal with |- match ?l with _ => _ end = _ =>
      assert (filter (fun i => issue_closed i = false) l = kept) as Hf
    end.
    { rewrite filter_app, filter_opened_new, filter_opened_old by done.
      done. }
    destruct (map new_issue_of _ ++ map old_issue_of _) as [|i l] eqn:Hl.
    { by rewrite filter_nil in Hf. }
    rewrite Hf. by destruct kept.
Qed.

(** C4, as the code has it. With [on_respin] KEEP and old opened issues,
    the old issues join the new ones and the old list is emptied. What
    is then done depends only on the keys and the statuses of the issues
    found: when one of them is opened, the action is resolved to it by a
    refresh and nothing is created, in the first run and in every run
    that finds the same issues with the same statuses, whatever their
    descriptions and whatever was created before; when several are
    opened, every such run raises "more than one new" instead. *)
Theorem keep_reuse_is_idempotent (action : IssueAction) (st1 : State H)
    (new_issues old_issues : list Issue) :
  let found st :=
    get_related_issues (tracker st) artifact_job action (negb recreate) in
  action_on_respin action = KEEP ->
  statuses_known (found st1) ->
  classify action (created_action_ids st1) (found st1) [] []
  = (new_issues, old_issues) ->
  old_issues <> [] ->
  reuse_old action new_issues old_issues = (new_issues ++ old_issues, [])
  /\ opened_issues (found st1) <> []
  /\ forall st2,
       statuses (found st2) = statuses (found st1) ->
       parent_missing action (processed_actions st2) = false ->
       (forall i,
          opened_issues (found st1) = [i] ->
          exists st2',
            reconcile_action action st2 = Ok () st2'
            /\ st2'
               = emit_jira_job action i
                   (refreshed action i
                      (record_call (Search action (negb recreate)) st2))
            /\ processed_actions st2' !! action_id action = Some i
            /\ created_action_ids st2' = created_action_ids st2
            /\ (forall c, c ∈ calls st2' ->
                  c ∈ calls st2 \/ c = Search action (negb recreate)
                  \/ c = Refresh action i \/ exists j, c = SaveJiraJob j))
       /\ (1 < length (opened_issues (found st1)) ->
           exists l,
             l ≡ₚ opened_issues (found st1)
             /\ reconcile_action action st2
                = Raise (MoreThanOneNew (action_id action) l)
                    (record_call (Search action (negb recreate)) st2)).
Proof.
  intros found Hkeep Hknown Hc Hne.
  split; [by apply reuse_old_keep|].
  assert (opened_issues (found st1) <> []) as Hopened.
  { intros Hnil. revert Hc. rewrite classify_filter. simpl. intros [= _ Ho].
    pose proof (filter_split
                  (fun e => is_new action (created_action_ids st1) e.2)
                  (fun e => bool_decide (raw_status e.2 = "opened"))
                  (found st1)) as Hp.
    apply (Permutation_map old_issue_of) in Hp. fold (opened_issues (found st1)) in Hp.
    rewrite Hnil, map_app in Hp. apply Permutation_nil_r in Hp.
    apply app_eq_nil in Hp as [_ Hp]. rewrite Hp in Ho. by subst. }
  split; [exact Hopened|].
  intros st2 Hstatuses Hpm.
  destruct (keep_leaves_opened action (created_action_ids st2) (found st2) Hkeep)
    as (new2 & old2 & l & Hc2 & Hold & Hk & Hperm).
  { by eapply statuses_known_statuses. }
  { by rewrite (opened_issues_statuses _ _ Hstatuses). }
  rewrite (opened_issues_statuses _ _ Hstatuses) in Hperm.
  pose proof (reconcile_action_resolve action st2 new2 old2 l Hc2 Hk) as Hr.
  rewrite Hold in Hr. split.
  - intros i Hi. rewrite Hi in Hperm.
    apply Permutation_singleton_r in Hperm as ->.
    rewrite resolve_refresh in Hr by done. simpl in Hr.
    eexists. split; [exact Hr|]. split; [done|]. apply reused_state.
  - intros Hlen. exists l. split; [done|].
    apply Permutation_length in Hperm.
    destruct l as [|i [|j l]]; simpl in *; [lia..|]. exact Hr.
Qed.

Lemma classify_old_NoDup action created search_result new_issues old_issues :
  NoDup search_result.*1 ->
  classify action created search_result [] [] = (new_issues, old_issues) ->
  NoDup old_issues.
Proof.
  rewrite classify_filter. intros Hn [= _ <-]. simpl.
  apply (NoDup_fmap_1 issue_id).
  rewrite <- list_fmap_compose.
  by apply filter_fst_NoDup.
Qed.

(** C5. When old issues are left after the resolution, a fatal error is
    raised unless [on_respin] is CLOSE. With CLOSE every old issue is
    dropped once, in the order of the list, each time with the issue
    recorded for the action as the one that obsoletes it; this is the
    issue the action was just resolved to, and the old issues of a
    search result without repeated keys are all different. *)
Theorem close_old_issues_on_respin (action : IssueAction)
    (old_issues : list Issue) (st : State H) :
  old_issues <> [] ->
  (action_on_respin action <> CLOSE ->
   close_old_issues action old_issues st
   = Raise (InvalidRespinAction (action_on_respin action) old_issues) st)
  /\ (action_on_respin action = CLOSE ->
      forall new_issue,
        processed_actions st !! action_id action = Some new_issue ->
        exists st',
          close_old_issues action old_issues st = Ok () st'
          /\ calls st'
             = calls st
               ++ map (fun old_issue => Drop old_issue new_issue) old_issues
          /\ tracker st'
             = foldl
                 (fun t old_issue =>
                    drop_obsoleted_issue t artifact_job old_issue new_issue)
                 (tracker st) old_issues)
  /\ (forall s d new_issues st0 new_issue st0',
        resolve s d action new_issues st0 = Ok new_issue st0' ->
        processed_actions (emit_jira_job action new_issue st0')
          !! action_id action = Some new_issue)
  /\ (forall created search_result new_issues,
        NoDup search_result.*1 ->
        classify action created search_result [] [] = (new_issues, old_issues) ->
        NoDup old_issues).
Proof.
  intros Hne. destruct old_issues as [|o l]; [done|]. repeat split.
  - intros Hc. unfold close_old_issues. by rewrite bool_decide_eq_true_2.
  - intros Hc new_issue Hp. unfold close_old_issues.
    rewrite bool_decide_eq_false_2 by (by intros []). rewrite Hp.
    destruct (drop_old_issues_calls (o :: l) new_issue st) as (Hcalls & Ht & _).
    eauto.
  - intros s d new_issues st0 new_issue st0' Hr.
    destruct (processed_emit_jira_job action new_issue st0') as [-> _].
    by eapply resolve_records.
  - intros created search_result new_issues. apply classify_old_NoDup.
Qed.

(** *** Calls that come one after the other *)

(** [st'] has the calls of [st] and then calls that satisfy [P]. *)
Definition grows (P : Call -> Prop) (st st' : State H) : Prop :=
  exists rest, calls st' = calls st ++ rest /\ Forall P rest.

Lemma grows_refl P st : grows P st st.
Proof. exists []. by rewrite app_nil_r. Qed.

Lemma grows_trans P st1 st2 st3 :
  grows P st1 st2 -> grows P st2 st3 -> grows P st1 st3.
Proof.
  intros (r1 & H1 & F1) (r2 & H2 & F2). exists (r1 ++ r2).
  split; [by rewrite H2, H1, app_assoc|by apply Forall_app].
Qed.

Lemma grows_one P c st st' :
  calls st' = calls st ++ [c] -> P c -> grows P st st'.
Proof. intros Hc Hp. exists [c]. split; [done|by constructor]. Qed.

Lemma grows_same P st st' : calls st' = calls st -> grows P st st'.
Proof. intros Hc. exists []. by rewrite app_nil_r. Qed.

Lemma classify_ids action created search_result new_issues old_issues i :
  classify action created search_result [] [] = (new_issues, old_issues) ->
  i ∈ new_issues ++ old_issues -> issue_id i ∈ search_result.*1.
Proof.
  rewrite classify_filter. intros [= <- <-]. simpl.
  intros [Hi|Hi]%elem_of_app;
    apply list_elem_of_In, in_map_iff in Hi as (e & <- & He);
    apply filter_In in He as [He _]; simpl;
    apply list_elem_of_fmap; exists e; split; try done;
    by apply list_elem_of_In.
Qed.

Lemma reuse_old_elem action new_issues old_issues i :
  i ∈ (reuse_old action new_issues old_issues).1 -> i ∈ new_issues ++ old_issues.
Proof.
  unfold reuse_old. destruct old_issues as [|o l]; simpl.
  - rewrite app_nil_r. done.
  - destruct (bool_decide _); simpl; [done|].
    intros ?. apply elem_of_app. by left.
Qed.

(** *** What one iteration adds to the calls *)

(** The action that a call resolves: [create_issue] and [refresh_issue]
    are the calls that give an action its issue. *)
Definition resolved_action (c : Call) : option IssueAction :=
  match c with
  | Create a _ _ _ _ _ | Refresh a _ => Some a
  | _ => None
  end.

(** The calls that [emit_jira_job] adds. *)
Definition job_calls (action : IssueAction) (new_issue : Issue) : list Call :=
  match action_job_recipe action with
  | Some r =>
      if truthy (Some r) then
        [SaveJiraJob
           {| jira_job_event := job_event artifact_job;
              jira_job_erratum := job_erratum artifact_job;
              jira_job_compose := job_compose artifact_job;
              jira_job_jira := new_issue;
              jira_job_recipe := {| recipe_url := r |} |}]
      else []
  | None => []
  end.

Definition is_drop (c : Call) : Prop :=
  match c with Drop _ _ => True | _ => False end.

(** A call that neither resolves an action nor saves a job. *)
Definition is_quiet (c : Call) : Prop :=
  match c with
  | Search _ _ | Deferred _ _ | Drop _ _ => True
  | _ => False
  end.

Lemma emit_jira_job_calls action new_issue st :
  calls (emit_jira_job action new_issue st)
  = calls st ++ job_calls action new_issue
  /\ processed_actions (emit_jira_job action new_issue st)
     = processed_actions st
  /\ tracker (emit_jira_job action new_issue st) = tracker st.
Proof.
  unfold emit_jira_job, job_calls.
  destruct (action_job_recipe action) as [r|]; [|by rewrite app_nil_r].
  destruct (truthy (Some r)); [done|by rewrite app_nil_r].
Qed.

Lemma close_old_issues_calls action old_issues st :
  exists drops,
    calls (outcome_state (close_old_issues action old_issues st))
    = calls st ++ drops
    /\ Forall is_drop drops
    /\ processed_actions (outcome_state (close_old_issues action old_issues st))
       = processed_actions st.
Proof.
  unfold close_old_issues. destruct old_issues as [|o l].
  { exists []. by rewrite app_nil_r. }
  destruct (bool_decide _); [exists []; by rewrite app_nil_r|].
  destruct (processed_actions st !! action_id action) as [i|];
    [|exists []; by rewrite app_nil_r].
  destruct (drop_old_issues_calls (o :: l) i st) as (Hc & _ & Hp).
  eexists. split; [exact Hc|]. split; [|exact Hp].
  apply Forall_forall. intros c Hin.
  apply list_elem_of_In, in_map_iff in Hin as (x & <- & _). done.
Qed.

(** An iteration is quiet, or it resolves the action: then it searches,
    creates or refreshes, saves the job of the action and drops old
    issues, and the issue is recorded for the action. *)
Lemma process_action_step action st :
  let a := render_newa_id action in
  let o := process_action action st in
  (exists quiet,
     calls (outcome_state o) = calls st ++ quiet
     /\ Forall is_quiet quiet
     /\ processed_actions (outcome_state o) = processed_actions st)
  \/ (irrelevant action = false
      /\ parent_missing a (processed_actions st) = false
      /\ exists c new_issue drops,
           resolved_action c = Some a
           /\ calls (outcome_state o)
              = calls st ++ [Search a (negb recreate); c]
                ++ job_calls a new_issue ++ drops
           /\ Forall is_drop drops
           /\ processed_actions (outcome_state o)
              = <[action_id a := new_issue]> (processed_actions st)).
Proof.
  intros a o. subst o. unfold process_action. fold a.
  destruct (irrelevant action) eqn:Hirr.
  { left. exists []. by rewrite app_nil_r. }
  destruct (parent_missing a (processed_actions st)) eqn:Hpm.
  { left. unfold await_parent. case_bool_decide; simpl.
    - exists []. by rewrite app_nil_r.
    - eexists. split; [done|]. split; [|done]. by repeat constructor. }
  unfold reconcile_action.
  set (st0 := record_call (Search a (negb recreate)) st).
  destruct (classify _ _ _ _ _) as [new_issues old_issues].
  destruct (reuse_old _ _ _) as [new_issues' old_issues'].
  assert (exists quiet,
            calls st0 = calls st ++ quiet /\ Forall is_quiet quiet
            /\ processed_actions st0 = processed_actions st) as Hquiet.
  { eexists. split; [done|]. split; [|done]. by repeat constructor. }
  destruct (keep_opened new_issues') as [l|]; [|by left].
  destruct l as [|i [|j l]].
  - right. split; [done|]. split; [done|].
    rewrite resolve_create. cbv zeta.
    destruct (emit_jira_job_calls a
      (create_issue (tracker st0) artifact_job a
         (render_template artifact_job (action_summary a))
         (render_template artifact_job (action_description a))
         (rendered_assignee a) (parent_issue a (processed_actions st0)) group).1
      (set_processed (action_id a)
         (create_issue (tracker st0) artifact_job a
            (render_template artifact_job (action_summary a))
            (render_template artifact_job (action_description a))
            (rendered_assignee a) (parent_issue a (processed_actions st0))
            group).1 true
         (set_tracker
            (create_issue (tracker st0) artifact_job a
               (render_template artifact_job (action_summary a))
               (render_template artifact_job (action_description a))
               (rendered_assignee a) (parent_issue a (processed_actions st0))
               group).2
            (Create a (render_template artifact_job (action_summary a))
               (render_template artifact_job (action_description a))
               (rendered_assignee a) (parent_issue a (processed_actions st0))
               group) st0))) as (He & Hp & _).
    match goal with |- context [close_old_issues a old_issues' ?s] =>
      destruct (close_old_issues_calls a old_issues' s) as (drops & Hc & Hd & Hp')
    end.
    eexists _, _, drops. split; [|split; [|split; [exact Hd|]]].
    2:{ rewrite Hc, He. simpl. by rewrite <- !app_assoc. }
    + done.
    + by rewrite Hp', Hp.
  - right. split; [done|]. split; [done|].
    rewrite resolve_refresh by done.
    destruct (emit_jira_job_calls a i (refreshed a i st0)) as (He & Hp & _).
    destruct (close_old_issues_calls a old_issues'
                (emit_jira_job a i (refreshed a i st0)))
      as (drops & Hc & Hd & Hp').
    exists (Refresh a i), i, drops. split; [done|]. split; [|split; [exact Hd|]].
    + rewrite Hc, He. simpl. by rewrite <- !app_assoc.
    + by rewrite Hp', Hp.
  - by left.
Qed.

(** The loop keeps what its iterations keep. *)
Lemma reconcile_invariant (I : State H -> Prop) :
  (forall st action rest,
     I st -> issue_actions st = action :: rest ->
     I (outcome_state (process_action action (set_queue rest st)))) ->
  forall fuel st, I st -> I (run_state (reconcile fuel st)).
Proof.
  intros Hstep fuel. induction fuel as [|fuel IH]; intros st Hi; simpl.
  - by destruct (issue_actions st).
  - destruct (issue_actions st) as [|action rest] eqn:Hq; [done|].
    pose proof (Hstep st action rest Hi Hq) as Hs.
    destruct (process_action _ _) as [[] st'|e st']; simpl in Hs; [|done].
    by apply IH.
Qed.

(** The same for what holds when the loop finishes. *)
Lemma reconcile_finished_invariant (I : State H -> Prop) :
  (forall st action rest st',
     I st -> issue_actions st = action :: rest ->
     process_action action (set_queue rest st) = Ok () st' -> I st') ->
  forall fuel st st', I st -> reconcile fuel st = Finished st' -> I st'.
Proof.
  intros Hstep fuel. induction fuel as [|fuel IH]; intros st st' Hi; simpl.
  - destruct (issue_actions st); [|done]. by intros [= <-].
  - destruct (issue_actions st) as [|action rest] eqn:Hq; [by intros [= <-]|].
    destruct (process_action _ _) as [[] st1|e st1] eqn:Hp; [|done].
    apply IH. by eapply Hstep.
Qed.

(** *** A parent is resolved before its children *)

(** The call gives the action [id] its issue. *)
Definition resolves (id : string) (c : Call) : Prop :=
  exists a, resolved_action c = Some a /\ action_id a = id.

(** Every call that resolves an action with a parent comes after a call
    that resolves the parent. *)
Definition parents_first (cs : list Call) : Prop :=
  forall pre c post a p,
    cs = pre ++ c :: post ->
    resolved_action c = Some a ->
    action_parent_id a = Some p -> p <> "" ->
    Exists (resolves p) pre.

Lemma parents_first_snoc cs c :
  parents_first cs ->
  (forall a p, resolved_action c = Some a ->
               action_parent_id a = Some p -> p <> "" ->
               Exists (resolves p) cs) ->
  parents_first (cs ++ [c]).
Proof.
  intros Hcs Hc pre c' post a p Heq Hr Hp Hne.
  destruct post as [|x post _] using rev_ind.
  - apply app_inj_tail in Heq as [-> ->]. eauto.
  - rewrite app_comm_cons, app_assoc in Heq.
    apply app_inj_tail in Heq as [-> _]. eapply Hcs; eauto.
Qed.

Lemma parents_first_app_quiet cs l :
  parents_first cs -> Forall (fun c => resolved_action c = None) l ->
  parents_first (cs ++ l).
Proof.
  intros Hcs. induction l as [|x l IH] using rev_ind; intros Hl.
  - by rewrite app_nil_r.
  - apply Forall_app in Hl as [Hl Hx]. rewrite app_assoc.
    apply parents_first_snoc; [by apply IH|].
    intros a p Hr. apply Forall_inv in Hx. congruence.
Qed.

Lemma quiet_no_resolution l :
  Forall is_quiet l -> Forall (fun c => resolved_action c = None) l.
Proof. intros Hl. eapply Forall_impl; [exact Hl|]. by intros []. Qed.

Lemma drop_no_resolution l :
  Forall is_drop l -> Forall (fun c => resolved_action c = None) l.
Proof. intros Hl. eapply Forall_impl; [exact Hl|]. by intros []. Qed.

Lemma job_calls_no_resolution a i :
  Forall (fun c => resolved_action c = None) (job_calls a i).
Proof.
  unfold job_calls. destruct (action_job_recipe a) as [r|]; [|done].
  destruct (truthy (Some r)); by repeat constructor.
Qed.

(** The invariant of the loop for the order of the resolutions: the
    calls since [c0] have the parents first, and every action with an
    issue in [processed_actions] was resolved by one of them. *)
Definition resolved_in_order (c0 : list Call) (st : State H) : Prop :=
  exists rest,
    calls st = c0 ++ rest
    /\ parents_first rest
    /\ forall p, is_Some (processed_actions st !! p) -> Exists (resolves p) rest.

Lemma resolved_in_order_step c0 st action rest :
  resolved_in_order c0 st -> issue_actions st = action :: rest ->
  resolved_in_order c0
    (outcome_state (process_action action (set_queue rest st))).
Proof.
  intros (r & Hc & Hpf & Hproc) _.
  destruct (process_action_step action (set_queue rest st))
    as [(quiet & Hq & Hquiet & Hp)
       |(_ & Hpm & c & new_issue & drops & Hr & Hcalls & Hd & Hp)];
    simpl in *.
  - exists (r ++ quiet). rewrite Hq, Hc, Hp, app_assoc. split; [done|]. split.
    + by apply parents_first_app_quiet, quiet_no_resolution.
    + intros p Hs. apply Exists_app. left. by apply Hproc.
  - set (a := render_newa_id action) in *.
    exists (r ++ [Search a (negb recreate); c] ++ job_calls a new_issue ++ drops).
    rewrite Hcalls, Hc, Hp, <- !app_assoc. split; [done|]. split.
    + change (r ++ [Search a (negb recreate); c] ++ job_calls a new_issue ++ drops)
        with (r ++ [Search a (negb recreate)] ++ [c]
                ++ job_calls a new_issue ++ drops).
      rewrite !app_assoc. apply parents_first_app_quiet;
        [|by apply drop_no_resolution].
      apply parents_first_app_quiet; [|apply job_calls_no_resolution].
      apply parents_first_snoc.
      * apply parents_first_app_quiet; [done|by repeat constructor].
      * intros a' p Hr' Hpa Hne.
        assert (a' = a) as -> by congruence.
        apply Exists_app. left. apply Hproc.
        unfold parent_missing in Hpm. rewrite Hpa in Hpm. simpl in Hpm.
        rewrite bool_decide_eq_false_2 in Hpm by done. simpl in Hpm.
        by apply negb_false_iff, bool_decide_eq_true in Hpm.
    + intros p [<-|[_ Hs]]%lookup_insert_is_Some.
      * apply Exists_app. right. apply Exists_cons. right.
        apply Exists_cons. left. by exists a.
      * apply Exists_app. left. by apply Hproc.
Qed.

(** X1. In the calls of a run, whatever its end, an action with a parent is
    created or refreshed only after its parent was. *)
Theorem parent_resolved_first (fuel : nat) (t : H) (c0 : list Call)
    (actions : list IssueAction) :
  exists rest,
    calls (run_state (reconcile fuel (init_state t c0 actions))) = c0 ++ rest
    /\ parents_first rest.
Proof.
  destruct (reconcile_invariant (resolved_in_order c0)
              (resolved_in_order_step c0) fuel (init_state t c0 actions))
    as (rest & Hc & Hpf & _).
  - exists []. simpl. rewrite app_nil_r. split; [done|]. split.
    + intros pre c post a p Heq. by destruct pre.
    + intros p. rewrite lookup_empty. by intros [? ?].
  - eauto.
Qed.

(** *** A run finishes only with every parent resolved *)

(** The actions agree in what the loop reads to drop, defer and record
    them; rendering [newa_id] keeps that. *)
Definition similar (a a' : IssueAction) : Prop :=
  action_id a' = action_id a
  /\ action_parent_id a' = action_parent_id a
  /\ action_when a' = action_when a.

Lemma similar_render a a' : similar a a' -> similar a (render_newa_id a').
Proof.
  intros (Hi & Hp & Hw). unfold render_newa_id.
  destruct (action_newa_id a'); [|done]. by destruct (truthy _).
Qed.

Lemma similar_irrelevant a a' : similar a a' -> irrelevant a' = irrelevant a.
Proof. intros (_ & _ & Hw). unfold irrelevant. by rewrite Hw. Qed.

Lemma similar_parent_missing a a' processed :
  similar a a' -> parent_missing a' processed = parent_missing a processed.
Proof. intros (_ & Hp & _). unfold parent_missing. by rewrite Hp. Qed.

(** The action needs nothing more: it is dropped, or it has no parent,
    or its parent has an issue. *)
Definition settled (processed : gmap string Issue) (a : IssueAction) : Prop :=
  irrelevant a = true \/ parent_missing a processed = false.

Lemma parent_missing_insert a processed id i :
  parent_missing a processed = false ->
  parent_missing a (<[id := i]> processed) = false.
Proof.
  unfold parent_missing. destruct (action_parent_id a) as [p|]; [|done].
  destruct (truthy (Some p)); [|done]. simpl.
  intros Hm%negb_false_iff%bool_decide_eq_true.
  apply negb_false_iff, bool_decide_eq_true, lookup_insert_is_Some'. by right.
Qed.

(** An iteration that ends well and keeps the queue has dropped the
    action or found its parent resolved. *)
Lemma process_action_kept action st st' :
  process_action action st = Ok () st' ->
  issue_actions st' = issue_actions st ->
  irrelevant action = true
  \/ (irrelevant action = false
      /\ parent_missing (render_newa_id action) (processed_actions st) = false).
Proof.
  unfold process_action. destruct (irrelevant action); [by left|].
  destruct (parent_missing _ _) eqn:Hpm; [|by right].
  unfold await_parent. case_bool_decide; [done|].
  intros [= <-]. simpl. intros Hq.
  apply (f_equal length) in Hq. rewrite length_app in Hq. simpl in Hq. lia.
Qed.

(** The invariant of the loop for a run over [actions0]. *)
Definition queue_inv (actions0 : list IssueAction) (st : State H) : Prop :=
  (forall a', a' ∈ issue_actions st -> exists a, a ∈ actions0 /\ similar a a')
  /\ (forall a, a ∈ actions0 ->
        (exists a', a' ∈ issue_actions st /\ similar a a')
        \/ settled (processed_actions st) a)
  /\ (forall p, is_Some (processed_actions st !! p) ->
        exists a, a ∈ actions0 /\ action_id a = p /\ irrelevant a = false).

Lemma queue_inv_init t c0 actions0 :
  queue_inv actions0 (init_state t c0 actions0).
Proof.
  split; [|split]; simpl.
  - intros a Ha. by exists a.
  - intros a Ha. left. by exists a.
  - intros p. rewrite lookup_empty. by intros [? ?].
Qed.

Lemma queue_inv_step actions0 st action rest st' :
  queue_inv actions0 st -> issue_actions st = action :: rest ->
  process_action action (set_queue rest st) = Ok () st' ->
  queue_inv actions0 st'.
Proof.
  intros (Hq1 & Hq2 & Hq3) Hq Hp. rewrite Hq in Hq1, Hq2.
  destruct (Hq1 action) as (a0 & Ha0 & Hsim0); [by left|].
  (* what the iteration did to the dictionary *)
  assert (processed_actions st' = processed_actions st
          \/ (irrelevant action = false
              /\ exists i,
                   processed_actions st'
                   = <[action_id action := i]> (processed_actions st)))
    as Hproc.
  { pose proof (process_action_step action (set_queue rest st)) as Hs.
    rewrite Hp in Hs. simpl in Hs.
    destruct Hs as [(_ & _ & _ & Hs)|(Hirr & _ & _ & i & _ & _ & _ & _ & Hs)].
    - by left.
    - right. split; [done|]. exists i. by rewrite render_newa_id_id in Hs. }
  assert (forall a, settled (processed_actions st) a ->
                    settled (processed_actions st') a) as Hmono.
  { intros a [?|Hm]; [by left|right].
    destruct Hproc as [->|(_ & i & ->)]; [done|].
    by apply parent_missing_insert. }
  (* what it did to the queue *)
  destruct (process_action_cases action (set_queue rest st))
    as [(e & st1 & He & _)|[(st1 & Hs & (Hq' & _))|[Hd Hne]]];
    [congruence| |].
  - assert (st1 = st') as -> by congruence. simpl in Hq'.
    split; [|split].
    + intros a' Ha'. rewrite Hq' in Ha'. apply Hq1. by right.
    + intros a Ha. destruct (Hq2 a Ha) as [(a' & Ha' & Hsim)|Hset];
        [|by right; apply Hmono].
      apply elem_of_cons in Ha' as [->|Ha'].
      * right. apply Hmono.
        destruct (process_action_kept _ _ _ Hp Hq') as [Hirr|[_ Hpm]].
        -- left. by rewrite <- (similar_irrelevant a action).
        -- right. simpl in Hpm.
           rewrite <- (similar_parent_missing a (render_newa_id action)); [done|].
           by apply similar_render.
      * left. exists a'. by rewrite Hq'.
    + intros p Hsome. destruct Hproc as [Hsame|(Hirr & i & Hins)].
      * apply Hq3. by rewrite <- Hsame.
      * rewrite Hins in Hsome.
        apply lookup_insert_is_Some in Hsome as [<-|[_ Hsome]]; [|by apply Hq3].
        exists a0. split; [done|]. split; [by destruct Hsim0|].
        by rewrite <- (similar_irrelevant a0 action).
  - rewrite Hd in Hp. injection Hp as <-. simpl in *.
    split; [|split].
    + intros a' [Ha'|Ha']%elem_of_app; [apply Hq1; by right|].
      apply list_elem_of_singleton in Ha' as ->.
      exists a0. split; [done|]. by apply similar_render.
    + intros a Ha. destruct (Hq2 a Ha) as [(a' & Ha' & Hsim)|Hset]; [|by right].
      left. apply elem_of_cons in Ha' as [->|Ha'].
      * exists (render_newa_id action). split; [|by apply similar_render].
        apply elem_of_app. right. by left.
      * exists a'. split; [|done]. apply elem_of_app. by left.
    + exact Hq3.
Qed.

Lemma reconcile_finished_empty fuel st st' :
  reconcile fuel st = Finished st' -> issue_actions st' = [].
Proof.
  revert st. induction fuel as [|n IH]; intros st; simpl.
  - destruct (issue_actions st) eqn:Hq; [|done]. by intros [= <-].
  - destruct (issue_actions st) eqn:Hq; [by intros [= <-]|].
    destruct (process_action _ _) as [[] st1|]; [apply IH|done].
Qed.

Lemma finished_parents fuel t c0 actions st' a p :
  reconcile fuel (init_state t c0 actions) = Finished st' ->
  a ∈ actions -> irrelevant a = false ->
  action_parent_id a = Some p -> p <> "" ->
  is_Some (processed_actions st' !! p)
  /\ exists b, b ∈ actions /\ action_id b = p /\ irrelevant b = false.
Proof.
  intros Hr Ha Hirr Hp Hne.
  assert (queue_inv actions st') as (_ & Hq2 & Hq3).
  { eapply (reconcile_finished_invariant (queue_inv actions));
      [|apply queue_inv_init|exact Hr].
    intros. by eapply queue_inv_step. }
  pose proof (reconcile_finished_empty _ _ _ Hr) as Hempty.
  assert (is_Some (processed_actions st' !! p)) as Hsome.
  { destruct (Hq2 a Ha) as [(a' & Ha' & _)|[Hi|Hm]].
    - rewrite Hempty in Ha'. by apply elem_of_nil in Ha'.
    - congruence.
    - unfold parent_missing in Hm. rewrite Hp in Hm. simpl in Hm.
      rewrite bool_decide_eq_false_2 in Hm by done. simpl in Hm.
      by apply negb_false_iff, bool_decide_eq_true in Hm. }
  split; [exact Hsome|]. by apply Hq3.
Qed.

(** X2. When the loop finishes, every action that was not dropped and has a
    parent has found the issue of its parent, and the parent is an
    action of the configuration that was not dropped. *)
Theorem finished_resolves_parents (fuel : nat) (t : H) (c0 : list Call)
    (actions : list IssueAction) (st' : State H) (a : IssueAction)
    (p : string) :
  reconcile fuel (init_state t c0 actions) = Finished st' ->
  a ∈ actions -> irrelevant a = false ->
  action_parent_id a = Some p -> p <> "" ->
  is_Some (processed_actions st' !! p)
  /\ exists b, b ∈ actions /\ action_id b = p /\ irrelevant b = false.
Proof. apply finished_parents. Qed.

(** X3. An action that is not dropped and names a parent that no undropped
    action of the configuration has as its id makes the run fail. *)
Theorem unresolved_parent_is_fatal (t : H) (c0 : list Call)
    (actions : list IssueAction) (extra : nat) (a : IssueAction)
    (p : string) :
  a ∈ actions -> irrelevant a = false ->
  action_parent_id a = Some p -> p <> "" ->
  (forall b, b ∈ actions -> action_id b = p -> irrelevant b = true) ->
  exists e st',
    reconcile (enough (length actions) + extra) (init_state t c0 actions)
    = Failed e st'.
Proof.
  intros Ha Hirr Hp Hne Hnone.
  destruct (reconcile_ends (enough (length actions) + extra)
              (init_state t c0 actions)) as [st' [[Hr _]|[e Hr]]].
  - pose proof (measure_enough (init_state t c0 actions)) as Hm.
    simpl in Hm. lia.
  - destruct (finished_parents _ _ _ _ _ _ _ Hr Ha Hirr Hp Hne)
      as (_ & b & Hb & Hid & Hrel).
    rewrite (Hnone b Hb Hid) in Hrel. done.
  - by exists e, st'.
Qed.

(** *** The Jira jobs and the resolved actions *)

(** The job that a call saves. *)
Definition call_job (c : Call) : option JiraJob :=
  match c with SaveJiraJob j => Some j | _ => None end.

(** The recipe of the action that a call resolves, when it has one. *)
Definition call_recipe (c : Call) : option Recipe :=
  match resolved_action c with
  | Some a =>
      match action_job_recipe a with
      | Some r => if truthy (Some r) then Some {| recipe_url := r |} else None
      | None => None
      end
  | None => None
  end.

Definition job_of_artifact (j : JiraJob) : Prop :=
  jira_job_event j = job_event artifact_job
  /\ jira_job_erratum j = job_erratum artifact_job
  /\ jira_job_compose j = job_compose artifact_job.

Lemma omap_quiet {B} (f : Call -> option B) l :
  Forall (fun c => f c = None) l -> omap f l = [].
Proof.
  induction 1 as [|c l Hc _ IH]; [done|]. simpl. by rewrite Hc.
Qed.

(** The invariant of the loop for the jobs: among the calls since [c0],
    the recipes of the saved jobs are the recipes of the resolved
    actions, in order. *)
Definition jobs_match (c0 : list Call) (st : State H) : Prop :=
  exists rest,
    calls st = c0 ++ rest
    /\ jira_job_recipe <$> omap call_job rest = omap call_recipe rest
    /\ Forall job_of_artifact (omap call_job rest).

Lemma jobs_match_step c0 st action rest :
  jobs_match c0 st -> issue_actions st = action :: rest ->
  jobs_match c0 (outcome_state (process_action action (set_queue rest st))).
Proof.
  intros (r & Hc & Hrec & Hart) _.
  destruct (process_action_step action (set_queue rest st))
    as [(quiet & Hq & Hquiet & _)
       |(_ & _ & c & new_issue & drops & Hr & Hcalls & Hd & _)];
    simpl in *.
  - exists (r ++ quiet). rewrite Hq, Hc, app_assoc. split; [done|].
    rewrite !omap_app.
    rewrite (omap_quiet call_job quiet), (omap_quiet call_recipe quiet).
    + by rewrite !app_nil_r.
    + eapply Forall_impl; [exact Hquiet|]. by intros [].
    + eapply Forall_impl; [exact Hquiet|]. by intros [].
  - set (a := render_newa_id action) in *.
    exists (r ++ [Search a (negb recreate); c] ++ job_calls a new_issue ++ drops).
    rewrite Hcalls, Hc, <- !app_assoc. split; [done|].
    rewrite !omap_app.
    rewrite (omap_quiet call_job drops), (omap_quiet call_recipe drops);
      [|eapply Forall_impl; [exact Hd|]; by intros []..].
    rewrite !app_nil_r.
    assert (omap call_job [Search a (negb recreate); c] = []) as ->.
    { simpl. by destruct c. }
    assert (omap call_recipe [Search a (negb recreate); c]
            = option_list (call_recipe c)) as ->.
    { simpl. by destruct (call_recipe c). }
    assert (omap call_recipe (job_calls a new_issue) = []) as ->.
    { unfold job_calls. destruct (action_job_recipe a) as [x|]; [|done].
      by destruct (truthy (Some x)). }
    rewrite app_nil_r. simpl.
    assert (jira_job_recipe <$> omap call_job (job_calls a new_issue)
            = option_list (call_recipe c)
            /\ Forall job_of_artifact (omap call_job (job_calls a new_issue)))
      as [Hj Hja].
    { unfold call_recipe, job_calls. rewrite Hr.
      destruct (action_job_recipe a) as [x|]; [|done].
      destruct (truthy (Some x)); [|done]. simpl. split; [done|].
      by repeat constructor. }
    split.
    + by rewrite fmap_app, Hrec, Hj.
    + by apply Forall_app.
Qed.

(** X4. In the calls of a run, whatever its end, one Jira job is saved for
    each created or refreshed action that has a job recipe, in the same
    order and with the recipe of the action, and no other job is saved;
    every job has the event, the erratum and the compose of the artifact
    job. *)
Theorem jobs_follow_resolutions (fuel : nat) (t : H) (c0 : list Call)
    (actions : list IssueAction) :
  exists rest,
    calls (run_state (reconcile fuel (init_state t c0 actions))) = c0 ++ rest
    /\ jira_job_recipe <$> omap call_job rest = omap call_recipe rest
    /\ Forall job_of_artifact (omap call_job rest).
Proof.
  apply (reconcile_invariant (jobs_match c0) (jobs_match_step c0)).
  exists []. simpl. by rewrite app_nil_r.
Qed.

(** *** What a run that ends has done *)

(** The state after [n] iterations of the loop; [None] when the loop
    has ended before. *)
Fixpoint after (n : nat) (st : State H) : option (State H) :=
  match n with
  | O => Some st
  | S n' =>
      match issue_actions st with
      | [] => None
      | action :: rest =>
          match process_action action (set_queue rest st) with
          | Ok _ st' => after n' st'
          | Raise _ _ => None
          end
      end
  end.

(** The [continue] of line 441: the issues found for the current respin
    of the action are all closed, and closed issues are not
    recreated. *)
Definition skipped_closed (action : IssueAction) (st : State H) : Prop :=
  let search_result :=
    get_related_issues (tracker st) artifact_job action (negb recreate) in
  let '(new_issues, old_issues) :=
    classify action (created_action_ids st) search_result [] [] in
  let '(new_issues, _) := reuse_old action new_issues old_issues in
  keep_opened new_issues = None.

(** What the loop that started in [st0] and ended in [st'] did with the
    action [a] of its queue: some iteration popped it, as [a_n] (which
    is [a] with [newa_id] rendered when it was deferred before), with
    its parent resolved; the iteration searched for its issues and then
    skipped it, its issues being closed, or created or refreshed its
    issue, saved its job, dropped the old issues and recorded the issue
    for the action. *)
Definition handled (st0 st' : State H) (a : IssueAction) : Prop :=
  exists n st_n a_n rest st_next,
    after n st0 = Some st_n
    /\ issue_actions st_n = a_n :: rest
    /\ similar a a_n
    /\ parent_missing (render_newa_id a_n) (processed_actions st_n) = false
    /\ after (S n) st0 = Some st_next
    /\ extends st_next st'
    /\ ((skipped_closed (render_newa_id a_n) st_n
         /\ st_next
            = record_call (Search (render_newa_id a_n) (negb recreate))
                (set_queue rest st_n))
        \/ exists c new_issue drops,
             resolved_action c = Some (render_newa_id a_n)
             /\ calls st_next
                = calls st_n
                  ++ [Search (render_newa_id a_n) (negb recreate); c]
                  ++ job_calls (render_newa_id a_n) new_issue ++ drops
             /\ Forall is_drop drops
             /\ processed_actions st_next
                = <[action_id a := new_issue]> (processed_actions st_n)).

Lemma resolve_ok s d action new_issues st new_issue st' :
  resolve s d action new_issues st = Ok new_issue st' ->
  exists c,
    resolved_action c = Some action
    /\ calls st' = calls st ++ [c]
    /\ processed_actions st'
       = <[action_id action := new_issue]> (processed_actions st).
Proof.
  destruct new_issues as [|i [|j l]].
  - rewrite resolve_create. cbv zeta. intros [= <- <-].
    by exists (Create action s d (rendered_assignee action)
                 (parent_issue action (processed_actions st)) group).
  - intros [-> ->]%resolve_refresh_inv. by exists (Refresh action i).
  - done.
Qed.

Lemma reconcile_action_ok action st st' :
  reconcile_action action st = Ok () st' ->
  (skipped_closed action st
   /\ st' = record_call (Search action (negb recreate)) st)
  \/ exists c new_issue drops,
       resolved_action c = Some action
       /\ calls st'
          = calls st ++ [Search action (negb recreate); c]
            ++ job_calls action new_issue ++ drops
       /\ Forall is_drop drops
       /\ processed_actions st'
          = <[action_id action := new_issue]> (processed_actions st).
Proof.
  unfold reconcile_action, skipped_closed. simpl.
  destruct (classify _ _ _ _ _) as [new_issues old_issues].
  destruct (reuse_old _ _ _) as [new_issues' old_issues'].
  destruct (keep_opened new_issues') as [l|]; [|intros [= <-]; by left].
  destruct (resolve _ _ _ _ _) as [new_issue st1|e st1] eqn:Hres; [|done].
  intros Hclose. right.
  apply resolve_ok in Hres as (c & Hc & Hcalls & Hproc).
  destruct (emit_jira_job_calls action new_issue st1) as (He & Hp & _).
  destruct (close_old_issues_calls action old_issues'
              (emit_jira_job action new_issue st1))
    as (drops & Hd & Hdrops & Hp').
  rewrite Hclose in Hd, Hp'. simpl in Hd, Hp'.
  exists c, new_issue, drops. split; [done|]. split; [|split; [done|]].
  - rewrite Hd, He, Hcalls. simpl. by rewrite <- !app_assoc.
  - by rewrite Hp', Hp, Hproc.
Qed.

Lemma extends_process_action action st :
  extends st (outcome_state (process_action action st)).
Proof.
  destruct (process_action_step action st)
    as [(quiet & Hq & _)|(_ & _ & c & i & drops & _ & Hc & _)];
    by eexists.
Qed.

Lemma extends_reconcile fuel st : extends st (run_state (reconcile fuel st)).
Proof.
  apply (reconcile_invariant (extends st)); [|apply extends_refl].
  intros s action rest Hs _. eapply extends_trans; [exact Hs|].
  apply (extends_process_action action (set_queue rest s)).
Qed.

Lemma after_step n st action rest st1 :
  issue_actions st = action :: rest ->
  process_action action (set_queue rest st) = Ok () st1 ->
  after (S n) st = after n st1.
Proof. intros Hq Hp. simpl. by rewrite Hq, Hp. Qed.

Lemma similar_refl a : similar a a.
Proof. done. Qed.

Lemma similar_trans a b c : similar a b -> similar b c -> similar a c.
Proof.
  intros (H1 & H2 & H3) (H4 & H5 & H6). repeat split; congruence.
Qed.

Lemma handled_later st st1 st' action rest a :
  issue_actions st = action :: rest ->
  process_action action (set_queue rest st) = Ok () st1 ->
  handled st1 st' a -> handled st st' a.
Proof.
  intros Hq Hp (n & st_n & a_n & r & st_next & H1 & H2 & H3 & H4 & H5 & H6).
  exists (S n), st_n, a_n, r, st_next.
  by rewrite !(after_step _ st action rest st1).
Qed.

Lemma handled_similar st0 st' a b :
  similar a b -> handled st0 st' b -> handled st0 st' a.
Proof.
  intros Hs (n & st_n & a_n & r & st_next & H1 & H2 & H3 & H4 & H5 & H6 & H7).
  exists n, st_n, a_n, r, st_next.
  repeat (split; [done || by eapply similar_trans|]).
  destruct Hs as [<- _]. exact H7.
Qed.

(** A run that finishes has handled every action of its queue that is
    not dropped. *)
Lemma finished_handled fuel st st' a :
  reconcile fuel st = Finished st' ->
  a ∈ issue_actions st -> irrelevant a = false -> handled st st' a.
Proof.
  revert st a. induction fuel as [|fuel IH]; intros st a; simpl.
  { destruct (issue_actions st); [|done]. by intros _ ?%elem_of_nil. }
  destruct (issue_actions st) as [|x rest] eqn:Hq;
    [by intros _ ?%elem_of_nil|].
  destruct (process_action x (set_queue rest st)) as [[] st1|e st1] eqn:Hp;
    [|done].
  intros Hr Ha Hirr.
  assert (forall b, b ∈ rest -> b ∈ issue_actions st1) as Hrest.
  { intros b Hb.
    destruct (process_action_cases x (set_queue rest st))
      as [(e & s & He & _)|[(s & Hs & (Hq' & _))|[Hd _]]]; [congruence| |].
    - assert (s = st1) as -> by congruence. by rewrite Hq'.
    - rewrite Hd in Hp. injection Hp as <-. simpl. apply elem_of_app. by left. }
  apply elem_of_cons in Ha as [->|Ha];
    [|eapply handled_later; [done..|]; by apply IH; [|apply Hrest|]].
  pose proof Hp as Hp'. unfold process_action in Hp'. rewrite Hirr in Hp'.
  destruct (parent_missing (render_newa_id x)
              (processed_actions (set_queue rest st))) eqn:Hpm.
  - (* deferred: the rendered action is handled later *)
    unfold await_parent in Hp'. case_bool_decide; [done|].
    injection Hp' as <-.
    eapply handled_later; [done..|].
    apply (handled_similar _ _ x (render_newa_id x));
      [apply similar_render, similar_refl|].
    apply IH; [done| |].
    + simpl. apply elem_of_app. right. by left.
    + by rewrite (similar_irrelevant x (render_newa_id x))
        by apply similar_render, similar_refl.
  - (* handled in this iteration *)
    exists 0, st, x, rest, st1. split; [done|]. split; [done|].
    split; [apply similar_refl|]. split; [exact Hpm|].
    split; [by rewrite (after_step 0 st x rest st1)|].
    split.
    { pose proof (extends_reconcile fuel st1) as He. by rewrite Hr in He. }
    apply reconcile_action_ok in Hp' as [[Hs ->]|Hres]; [by left|right].
    by rewrite render_newa_id_id in Hres.
Qed.

(** A run that fails has the exception that an iteration raised, and
    the state it left. *)
Lemma failed_raised fuel st e st' :
  reconcile fuel st = Failed e st' ->
  exists n st_n a_n rest,
    after n st = Some st_n
    /\ issue_actions st_n = a_n :: rest
    /\ process_action a_n (set_queue rest st_n) = Raise e st'.
Proof.
  revert st. induction fuel as [|fuel IH]; intros st; simpl.
  { by destruct (issue_actions st). }
  destruct (issue_actions st) as [|x rest] eqn:Hq; [done|].
  destruct (process_action x (set_queue rest st)) as [[] st1|e1 st1] eqn:Hp.
  - intros (n & st_n & a_n & r & H1 & H2 & H3)%IH.
    exists (S n), st_n, a_n, r. by rewrite (after_step _ st x rest st1).
  - intros [= <- <-]. by exists 0, st, x, rest.
Qed.

(** C1, as the code has it. The work loop of the issue reconciliation
    terminates. An action whose parent is not resolved yet goes back to
    the end of the queue and the queue length seen is recorded for it;
    when the length recorded for it before (0 when there is none) is
    the length seen now, the fatal error "parent not found" is raised
    instead. The loop goes on with the state that its body leaves and
    fails with what its body raises. So, given
    [enough (length actions)] iterations or more, it raises, with the
    exception of one of its iterations, or it empties the queue; then
    every action that is not dropped was popped with its parent
    resolved and searched for, and was created or refreshed unless the
    issues of its current respin were all closed. In both cases no
    action is put back more often than there are actions. *)
Theorem reconcile_terminates (t : H) (c : list Call)
    (actions : list IssueAction) (extra : nat) :
  (forall action st,
     irrelevant action = false ->
     parent_missing (render_newa_id action) (processed_actions st) = true ->
     let queue_length := length (issue_actions st) in
     let deferred := defer (render_newa_id action) queue_length st in
     process_action action st =
       (if bool_decide
             (default 0 (endless_loop_check st !! action_id action)
              = queue_length)
        then Raise
               (ParentNotFound
                  (default "" (action_parent_id (render_newa_id action)))
                  (action_id action)) st
        else Ok () deferred)
     /\ issue_actions deferred = issue_actions st ++ [render_newa_id action]
     /\ endless_loop_check deferred !! action_id action = Some queue_length)
  /\ (forall fuel st,
        reconcile (S fuel) st =
        match issue_actions st with
        | [] => Finished st
        | action :: rest =>
            match process_action action (set_queue rest st) with
            | Ok _ st' => reconcile fuel st'
            | Raise e st' => Failed e st'
            end
        end)
  /\ exists st',
       ((reconcile (enough (length actions) + extra) (init_state t c actions)
         = Finished st'
         /\ issue_actions st' = []
         /\ forall a, a ∈ actions -> irrelevant a = false ->
                      handled (init_state t c actions) st' a)
        \/ exists e,
             reconcile (enough (length actions) + extra)
               (init_state t c actions) = Failed e st'
             /\ exists n st_n a_n rest,
                  after n (init_state t c actions) = Some st_n
                  /\ issue_actions st_n = a_n :: rest
                  /\ process_action a_n (set_queue rest st_n) = Raise e st')
       /\ forall id,
            deferrals id (calls st') <= deferrals id c + length actions.
Proof.
  split; [|split].
  - intros action st Hi Hm. simpl. repeat split.
    + unfold process_action, await_parent. by rewrite Hi, Hm, render_newa_id_id.
    + by rewrite render_newa_id_id, lookup_insert_eq.
  - intros fuel st. simpl. by destruct (issue_actions st).
  - set (fuel := enough (length actions) + extra).
    set (st := init_state t c actions).
    destruct (reconcile_ends fuel st) as [st' Hr].
    { pose proof (measure_enough st) as Hm. subst fuel st. simpl in Hm.
      unfold enough in *. lia. }
    exists st'. split.
    + destruct Hr as [[Hr Hq]|[e Hr]].
      * left. split; [exact Hr|]. split; [exact Hq|].
        intros a Ha Hirr. by eapply finished_handled.
      * right. exists e. split; [exact Hr|]. by eapply failed_raised.
    + intros id.
      pose proof (reconcile_deferrals (length actions) c fuel st id
                    (deferral_inv_init _ _ _ _ (Nat.le_refl _))) as Hd.
      destruct Hr as [[Hr _]|[e Hr]]; by rewrite Hr in Hd.
Qed.

(** *** No Jira job of the loop has the placeholder *)

(** The call saves no Jira job with the placeholder as its issue. *)
Definition job_real (c : Call) : Prop :=
  match c with
  | SaveJiraJob j => issue_id (jira_job_jira j) <> JIRA_NONE_ID
  | _ => True
  end.

Section Placeholder.
(** A condition on the tracker that its operations keep, and under
    which no issue that it finds or creates has the text of the
    placeholder as its key. *)
Variable clean : H -> Prop.
Hypothesis clean_search : forall t action closed,
  clean t -> JIRA_NONE_ID ∉ (get_related_issues t artifact_job action closed).*1.
Hypothesis clean_create : forall t action s d a p g,
  clean t ->
  issue_id (create_issue t artifact_job action s d a p g).1 <> JIRA_NONE_ID
  /\ clean (create_issue t artifact_job action s d a p g).2.
Hypothesis clean_refresh : forall t action i,
  clean t -> clean (refresh_issue t artifact_job action i).
Hypothesis clean_drop : forall t old_issue obsoleted_by,
  clean t -> clean (drop_obsoleted_issue t artifact_job old_issue obsoleted_by).

Lemma clean_resolve s d action new_issues st :
  clean (tracker st) ->
  Forall (fun i => issue_id i <> JIRA_NONE_ID) new_issues ->
  clean (tracker (outcome_state (resolve s d action new_issues st)))
  /\ grows job_real st (outcome_state (resolve s d action new_issues st))
  /\ forall i st', resolve s d action new_issues st = Ok i st' ->
                   issue_id i <> JIRA_NONE_ID.
Proof.
  intros Hclean Hall. destruct new_issues as [|i [|j l]].
  - rewrite resolve_create. cbv zeta.
    destruct (clean_create (tracker st) action s d (rendered_assignee action)
                (parent_issue action (processed_actions st)) group Hclean)
      as [Hid Ht].
    split; [exact Ht|]. split; [by eapply grows_one|].
    by intros ? ? [= <- _].
  - apply Forall_inv in Hall.
    split; [|split].
    + unfold resolve. destruct (action_parent_id action) as [p|];
        [destruct (_ && _)|]; simpl; auto.
    + unfold resolve. destruct (action_parent_id action) as [p|];
        [destruct (_ && _)|]; simpl;
        [by apply grows_same|by eapply grows_one..].
    + by intros ? ? [-> _]%resolve_refresh_inv.
  - split; [done|]. split; [apply grows_refl|done].
Qed.

Lemma clean_emit_jira_job action new_issue st :
  issue_id new_issue <> JIRA_NONE_ID ->
  grows job_real st (emit_jira_job action new_issue st).
Proof.
  intros Hid. unfold emit_jira_job.
  destruct (action_job_recipe action) as [r|]; [|apply grows_refl].
  destruct (truthy (Some r)); [|apply grows_refl]. by eapply grows_one.
Qed.

Lemma clean_drop_old_issues old_issues obsoleted_by st :
  clean (tracker st) ->
  clean (tracker (drop_old_issues old_issues obsoleted_by st)).
Proof.
  revert st. induction old_issues as [|o l IH]; intros st Hclean; [done|].
  simpl. apply IH. simpl. by apply clean_drop.
Qed.

Lemma clean_close_old_issues action old_issues st :
  clean (tracker st) ->
  clean (tracker (outcome_state (close_old_issues action old_issues st)))
  /\ grows job_real st (outcome_state (close_old_issues action old_issues st)).
Proof.
  intros Hclean. split.
  - unfold close_old_issues. destruct old_issues as [|o l]; [done|].
    destruct (bool_decide _); [done|].
    destruct (processed_actions st !! action_id action) as [i|]; [|done].
    by apply (clean_drop_old_issues (o :: l)).
  - destruct (close_old_issues_calls action old_issues st)
      as (drops & Hc & Hd & _).
    exists drops. split; [done|]. eapply Forall_impl; [exact Hd|].
    by intros [].
Qed.

Lemma clean_reconcile_action action st :
  clean (tracker st) ->
  clean (tracker (outcome_state (reconcile_action action st)))
  /\ grows job_real st (outcome_state (reconcile_action action st)).
Proof.
  intros Hclean. unfold reconcile_action.
  set (st0 := record_call (Search action (negb recreate)) st).
  assert (grows job_real st st0) as Hs by by eapply grows_one.
  destruct (classify _ _ _ _ _) as [new_issues old_issues] eqn:Hc.
  pose proof (reuse_old_elem action new_issues old_issues) as Hre.
  destruct (reuse_old _ _ _) as [new_issues' old_issues']. simpl in Hre.
  destruct (keep_opened new_issues') as [l|] eqn:Hk; [|done].
  assert (Forall (fun i => issue_id i <> JIRA_NONE_ID) l) as Hl.
  { apply Forall_forall. intros i Hi Hid.
    apply (clean_search (tracker st) action (negb recreate) Hclean).
    rewrite <- Hid. eapply classify_ids; [exact Hc|].
    apply Hre. by eapply keep_opened_elem. }
  destruct (clean_resolve
              (render_template artifact_job (action_summary action))
              (render_template artifact_job (action_description action))
              action l st0 Hclean Hl) as (Ht & Hg & Hid).
  destruct (resolve _ _ _ _ _) as [new_issue st1|e st1]; simpl in Ht, Hg.
  - destruct (emit_jira_job_calls action new_issue st1) as (_ & _ & Hte).
    destruct (clean_close_old_issues action old_issues'
                (emit_jira_job action new_issue st1)) as [Ht' Hg'].
    { by rewrite Hte. }
    split; [exact Ht'|].
    eapply grows_trans; [exact Hs|]. eapply grows_trans; [exact Hg|].
    eapply grows_trans; [|exact Hg'].
    apply clean_emit_jira_job. by eapply Hid.
  - simpl. split; [done|]. by eapply grows_trans.
Qed.

Lemma clean_process_action action st :
  clean (tracker st) ->
  clean (tracker (outcome_state (process_action action st)))
  /\ grows job_real st (outcome_state (process_action action st)).
Proof.
  intros Hclean. unfold process_action.
  destruct (irrelevant action); [split; [done|apply grows_refl]|].
  destruct (parent_missing _ _); [|by apply clean_reconcile_action].
  unfold await_parent. case_bool_decide; simpl;
    [split; [done|apply grows_refl]|].
  split; [done|]. by eapply grows_one.
Qed.

(** On a clean tracker the loop saves no Jira job with the placeholder,
    whatever its end, and leaves the tracker clean. *)
Lemma clean_reconcile fuel st :
  clean (tracker st) ->
  clean (tracker (run_state (reconcile fuel st)))
  /\ grows job_real st (run_state (reconcile fuel st)).
Proof.
  intros Hclean.
  apply (reconcile_invariant
           (fun s => clean (tracker s) /\ grows job_real st s));
    [|split; [done|apply grows_refl]].
  intros s action rest [Hc Hg] _.
  destruct (clean_process_action action (set_queue rest s) Hc) as [Hc' Hg'].
  split; [exact Hc'|]. eapply grows_trans; [exact Hg|]. exact Hg'.
Qed.

End Placeholder.
End Reconcile.

(** *** The command *)

Section Command.
Context {H : Type} `{Handler H}.

Variables (issue_config : option string) (recreate : bool).
Variables (issue job_recipe assignee : option string) (unassigned : bool).

(** Lines 296-496: the issue configuration is read and its actions are
    reconciled. The loop gets the iterations that [reconcile_ends] shows
    to be enough. *)
Definition with_issue_config (path : string) (artifact_job : ArtifactJob)
    (t : H) (c : list Call) : Run H :=
  let config := load_config path in
  let issue_actions := config_issues config in
  reconcile recreate assignee unassigned artifact_job (config_group config)
    (enough (length issue_actions)) (init_state t c issue_actions).

(** Lines 500-519: without an issue configuration one Jira job is made
    from [--issue] and [--job-recipe]. *)
Definition without_issue_config (artifact_job : ArtifactJob)
    (t : H) (c : list Call) : Run H :=
  match job_recipe with
  | Some r =>
      if truthy (Some r) then
        let save new_issue :=
          Finished
            (init_state t
               (c ++ [SaveJiraJob
                        {| jira_job_event := job_event artifact_job;
                           jira_job_erratum := job_erratum artifact_job;
                           jira_job_compose := job_compose artifact_job;
                           jira_job_jira := new_issue;
                           jira_job_recipe := {| recipe_url := r |} |}])
               []) in
        match issue with
        | Some i =>
            if truthy (Some i) then
              (* jira_connection.issue(issue) raises for an unknown issue *)
              if issue_exists t i then save (mk_issue i)
              else Failed (IssueLookupFailed i) (init_state t c [])
            else save (mk_issue JIRA_NONE_ID)
        | None => save (mk_issue JIRA_NONE_ID)
        end
      else Failed JobRecipeMandatory (init_state t c [])
  | None => Failed JobRecipeMandatory (init_state t c [])
  end.

(** The body of the [for artifact_job] loop of line 293. *)
Definition cmd_jira_job (artifact_job : ArtifactJob) (t : H) (c : list Call)
    : Run H :=
  match issue_config with
  | Some path =>
      if truthy (Some path) then with_issue_config path artifact_job t c
      else without_issue_config artifact_job t c
  | None => without_issue_config artifact_job t c
  end.

(** The [for artifact_job] loop: the tracker and the calls go from one
    artifact job to the next, the dictionaries of the loop do not. *)
Fixpoint cmd_jira_jobs (artifact_jobs : list ArtifactJob) (t : H)
    (c : list Call) : Run H :=
  match artifact_jobs with
  | [] => Finished (init_state t c [])
  | artifact_job :: rest =>
      match cmd_jira_job artifact_job t c with
      | Finished st => cmd_jira_jobs rest (tracker st) (calls st)
      | r => r
      end
  end.

(** [cmd_jira], lines 282-519, for the artifact jobs that
    [ctx.load_artifact_jobs] yields. *)
Definition cmd_jira (jira_url jira_token : string)
    (artifact_jobs : list ArtifactJob) (t : H) : Run H :=
  if bool_decide (jira_url = "")
  then Failed (UsageError "Jira URL is not configured!") (init_state t [] [])
  else if bool_decide (jira_token = "")
  then Failed (UsageError "Jira token is not configured!") (init_state t [] [])
  else if truthy assignee && unassigned
  then Failed
         (UsageError
            "Options --assignee and --unassigned cannot be used together")
         (init_state t [] [])
  else cmd_jira_jobs artifact_jobs t [].

(** The Jira jobs saved among the calls. *)
Definition saved_jobs (cs : list Call) : list JiraJob :=
  omap (fun c => match c with SaveJiraJob j => Some j | _ => None end) cs.

Lemma cmd_jira_job_without_issue_config artifact_job t c :
  truthy issue_config = false ->
  cmd_jira_job artifact_job t c = without_issue_config artifact_job t c.
Proof.
  unfold cmd_jira_job. destruct issue_config as [path|]; [|done].
  by intros ->.
Qed.

(** *** When a Jira job gets the placeholder *)

(** Among the calls there is a Jira job saved with the placeholder as
    its issue. *)
Definition saves_placeholder (cs : list Call) : Prop :=
  exists j, SaveJiraJob j ∈ cs /\ issue_id (jira_job_jira j) = JIRA_NONE_ID.

Lemma job_real_no_placeholder cs : Forall job_real cs -> ~ saves_placeholder cs.
Proof.
  intros Hall (j & Hin & Hid).
  by apply (proj1 (Forall_forall _ _) Hall) in Hin.
Qed.

Section PlaceholderCommand.
(** The tracker holds no issue under the text of the placeholder, and
    its operations keep it so. *)
Variable clean : H -> Prop.
Variable artifact_job : ArtifactJob.
Hypothesis clean_search : forall t action closed,
  clean t -> JIRA_NONE_ID ∉ (get_related_issues t artifact_job action closed).*1.
Hypothesis clean_create : forall t action s d a p g,
  clean t ->
  issue_id (create_issue t artifact_job action s d a p g).1 <> JIRA_NONE_ID
  /\ clean (create_issue t artifact_job action s d a p g).2.
Hypothesis clean_refresh : forall t action i,
  clean t -> clean (refresh_issue t artifact_job action i).
Hypothesis clean_drop : forall t old_issue obsoleted_by,
  clean t -> clean (drop_obsoleted_issue t artifact_job old_issue obsoleted_by).
Hypothesis clean_exists : forall t,
  clean t -> issue_exists t JIRA_NONE_ID = false.

Lemma without_issue_config_placeholder t c :
  clean t ->
  exists rest,
    calls (run_state (without_issue_config artifact_job t c)) = c ++ rest
    /\ (saves_placeholder rest
        <-> truthy issue = false /\ truthy job_recipe = true).
Proof.
  intros Hclean. unfold without_issue_config.
  assert (~ saves_placeholder []) as Hnil.
  { intros (j & Hin & _). by apply elem_of_nil in Hin. }
  assert (forall i r,
            saves_placeholder
              [SaveJiraJob
                 {| jira_job_event := job_event artifact_job;
                    jira_job_erratum := job_erratum artifact_job;
                    jira_job_compose := job_compose artifact_job;
                    jira_job_jira := mk_issue i;
                    jira_job_recipe := {| recipe_url := r |} |}]
            <-> i = JIRA_NONE_ID) as Hone.
  { intros i r. split.
    - intros (j & Hin & Hid). apply list_elem_of_singleton in Hin.
      injection Hin as ->. exact Hid.
    - intros ->. eexists. split; [by apply list_elem_of_singleton|done]. }
  destruct job_recipe as [r|];
    [|exists []; simpl; rewrite app_nil_r; split; [done|];
      split; [done|by intros [_ ?]]].
  destruct (truthy (Some r)) eqn:Hr;
    [|exists []; simpl; rewrite app_nil_r; split; [done|];
      split; [done|by intros [_ ?]]].
  destruct issue as [i|]; [|eexists; simpl; split; [done|];
                             rewrite Hone; by split].
  destruct (truthy (Some i)) eqn:Hi;
    [|eexists; simpl; split; [done|]; rewrite Hone; by split].
  destruct (issue_exists t i) eqn:He.
  - eexists. simpl. split; [done|]. rewrite Hone. split; [|by intros [? _]].
    intros ->. by rewrite clean_exists in He.
  - exists []. simpl. rewrite app_nil_r. split; [done|].
    split; [done|by intros [? _]].
Qed.

(** On such a tracker, the run for an artifact job saves a Jira job
    with the placeholder exactly when there is no issue configuration,
    no [--issue] and a job recipe. *)
Lemma cmd_jira_job_placeholder t c :
  clean t ->
  exists rest,
    calls (run_state (cmd_jira_job artifact_job t c)) = c ++ rest
    /\ (saves_placeholder rest
        <-> truthy issue_config = false
            /\ truthy issue = false /\ truthy job_recipe = true).
Proof.
  intros Hclean.
  assert (truthy issue_config = false ->
          exists rest,
            calls (run_state (without_issue_config artifact_job t c))
            = c ++ rest
            /\ (saves_placeholder rest
                <-> truthy issue_config = false
                    /\ truthy issue = false /\ truthy job_recipe = true))
    as Hwithout.
  { intros Hc.
    destruct (without_issue_config_placeholder t c Hclean) as (rest & H1 & H2).
    exists rest. split; [done|]. rewrite H2. by intuition. }
  unfold cmd_jira_job. destruct issue_config as [path|] eqn:Hcfg;
    [|by apply Hwithout].
  destruct (truthy (Some path)) eqn:Hpath; [|by apply Hwithout].
  unfold with_issue_config.
  destruct (clean_reconcile recreate assignee unassigned artifact_job
              (config_group (load_config path)) clean clean_search
              clean_create clean_refresh clean_drop
              (enough (length (config_issues (load_config path))))
              (init_state t c (config_issues (load_config path))) Hclean)
    as [_ (rest & Hcalls & Hall)].
  exists rest. split; [exact Hcalls|]. split.
  - intros Hs. by apply job_real_no_placeholder in Hall.
  - by intros [? _].
Qed.

End PlaceholderCommand.

(** *** Without an issue configuration *)

(** Lines 500-519: the Jira job made for an artifact job from [--issue]
    and [--job-recipe]. *)
Definition direct_job (artifact_job : ArtifactJob) : JiraJob :=
  {| jira_job_event := job_event artifact_job;
     jira_job_erratum := job_erratum artifact_job;
     jira_job_compose := job_compose artifact_job;
     jira_job_jira :=
       mk_issue (if truthy issue then default "" issue else JIRA_NONE_ID);
     jira_job_recipe := {| recipe_url := default "" job_recipe |} |}.

Lemma without_issue_config_finished artifact_job t c st :
  without_issue_config artifact_job t c = Finished st ->
  tracker st = t /\ calls st = c ++ [SaveJiraJob (direct_job artifact_job)].
Proof.
  unfold without_issue_config, direct_job.
  destruct job_recipe as [r|]; [|done].
  destruct (truthy (Some r)); [|done].
  destruct issue as [i|]; [|by intros [= <-]].
  destruct (truthy (Some i)); [|by intros [= <-]].
  destruct (issue_exists t i); [|done]. by intros [= <-].
Qed.

Lemma cmd_jira_jobs_direct artifact_jobs t c st :
  truthy issue_config = false ->
  cmd_jira_jobs artifact_jobs t c = Finished st ->
  tracker st = t
  /\ calls st = c ++ map (fun job => SaveJiraJob (direct_job job)) artifact_jobs.
Proof.
  intros Hc. revert c.
  induction artifact_jobs as [|job jobs IH]; intros c; simpl.
  { intros [= <-]. simpl. by rewrite app_nil_r. }
  rewrite cmd_jira_job_without_issue_config by done.
  destruct (without_issue_config job t c) as [st1| |] eqn:Hj; [|done..].
  apply without_issue_config_finished in Hj as [-> ->].
  intros [-> ->]%IH. by rewrite <- app_assoc.
Qed.

(** X5. Without an issue configuration a run that finishes has not
    touched the tracker, and has saved one Jira job per artifact job, in
    their order: with the event, the erratum and the compose of the
    artifact job, the given issue or the placeholder, and the given
    recipe. *)
Theorem one_job_per_artifact_job (jira_url jira_token : string)
    (artifact_jobs : list ArtifactJob) (t : H) (st : State H) :
  truthy issue_config = false ->
  cmd_jira jira_url jira_token artifact_jobs t = Finished st ->
  tracker st = t
  /\ calls st = map (fun job => SaveJiraJob (direct_job job)) artifact_jobs.
Proof.
  intros Hc. unfold cmd_jira. repeat case_bool_decide; [done..|].
  destruct (truthy assignee && unassigned); [done|].
  by intros [-> ->]%cmd_jira_jobs_direct.
Qed.
End Command.
End Jira.


(** ** The [execute] command: the worker *)

Module Execute.
Import PyStr.

(** The fields of the CLI context that the worker reads. *)
Record Context := {
  continue_execution : bool;
  timestamp : string;
  rp_token : string;
  tf_recheck_delay : nat;
}.

(** The collaborators of [worker]: the methods of the request and of
    [TFRequest] on a Testing Farm of type [W], and the name under which
    [ctx.save_execute_job] stores a job, after the prefix.
    [initiate_tf_request] returns the API endpoint and the identifier of
    the new request, [generate_tf_exec_command] the arguments of the
    command. *)
Class TestingFarm (W : Type) := {
  initiate_tf_request : W -> Context -> Request -> (string * string) * W;
  generate_tf_exec_command : Context -> Request -> list string;
  get_hash : Request -> string -> string;
  fetch_details : W -> string -> string -> option TFDetails * W;
  job_file_suffix : ExecuteJob -> string;
}.

(** What the worker does to the outside, in order. *)
Inductive Event :=
| Submit (request : Request)
| Save (file : string) (job : ExecuteJob)
| Sleep (delay : nat)
| Fetch (uuid : string).

(** The Testing Farm, the job files of the state directory by name, and
    the events so far. *)
Record World (W : Type) := {
  farm : W;
  files : gmap string ExecuteJob;
  events : list Event;
}.
Arguments farm {W}. Arguments files {W}. Arguments events {W}.

(** The variables of [worker] when the polling starts. *)
Record Started (W : Type) := {
  tf_request_api : string;
  tf_request_uuid : string;
  started_job : ExecuteJob;
  skip_initial_sleep : bool;
  started_world : World W;
}.
Arguments tf_request_api {W}. Arguments tf_request_uuid {W}.
Arguments started_job {W}. Arguments skip_initial_sleep {W}.
Arguments started_world {W}.

(** The result of the worker run with a bound on the polls: finished,
    or still polling when the bound is reached. *)
Inductive Result (W : Type) :=
| Done (w : World W)
| Polling (w : World W).
Arguments Done {W}. Arguments Polling {W}.

Section Worker.
Context {W : Type} `{TestingFarm W}.
Variable ctx : Context.

Definition record (e : Event) (w : World W) : World W :=
  {| farm := farm w; files := files w; events := events w ++ [e] |}.

Definition set_farm (f : W) (w : World W) : World W :=
  {| farm := f; files := files w; events := events w |}.

(** [ctx.save_execute_job('execute-', execute_job)] *)
Definition save_execute_job (prefix : string) (job : ExecuteJob)
    (w : World W) : World W :=
  let file := prefix +:+ job_file_suffix job in
  {| farm := farm w; files := <[file := job]> (files w);
     events := events w ++ [Save file job] |}.

(** Line 679: the name of the execute file of a schedule file. *)
Definition execute_job_file (schedule_file : string) : string :=
  replace_first "schedule-" "execute-" schedule_file.

(** Lines 676-685: the job to continue with, if there is one. *)
Definition previous_job (schedule_file : string) (w : World W)
    : option ExecuteJob :=
  if continue_execution ctx then files w !! execute_job_file schedule_file
  else None.

(** Lines 692-696: the command with the token hidden. *)
Definition hidden_command (request : Request) : string :=
  replace (rp_token ctx) "***"
    (join " " (generate_tf_exec_command ctx request)).

(** Lines 673-712. *)
Definition start (schedule_file : string) (schedule_job : ScheduleJob)
    (w : World W) : Started W :=
  match previous_job schedule_file w with
  | Some execute_job =>
      {| tf_request_api := request_api (execute_execution execute_job);
         tf_request_uuid := request_uuid (execute_execution execute_job);
         started_job := execute_job;
         skip_initial_sleep := true;
         started_world := w |}
  | None =>
      let request := schedule_request schedule_job in
      let '((api, uuid), f) := initiate_tf_request (farm w) ctx request in
      let w := record (Submit request) (set_farm f w) in
      let execute_job :=
        {| execute_event := schedule_event schedule_job;
           execute_erratum := schedule_erratum schedule_job;
           execute_compose := schedule_compose schedule_job;
           execute_jira := schedule_jira schedule_job;
           execute_recipe := schedule_recipe schedule_job;
           execute_request := request;
           execute_execution :=
             {| request_uuid := uuid; request_api := api;
                batch_id := get_hash request (timestamp ctx);
                command := hidden_command request;
                artifacts_url := None; return_code := None |} |} in
      {| tf_request_api := api; tf_request_uuid := uuid;
         started_job := execute_job;
         skip_initial_sleep := false;
         started_world := save_execute_job "execute-" execute_job w |}
  end.

(** [state in ['complete', 'error']] *)
Definition finished (details : TFDetails) : bool :=
  bool_decide (details_state details = "complete")
  || bool_decide (details_state details = "error").

(** Lines 715-729: the polling loop, with at most [fuel] polls. It
    returns the details with which it ended. *)
Fixpoint poll (fuel : nat) (skip_sleep : bool) (api uuid : string)
    (w : World W) : option TFDetails * World W :=
  match fuel with
  | O => (None, w)
  | S fuel' =>
      let w := if skip_sleep then w else record (Sleep (tf_recheck_delay ctx)) w in
      let '(details, f) := fetch_details (farm w) api uuid in
      let w := record (Fetch uuid) (set_farm f w) in
      match details with
      | Some d =>
          if finished d then (Some d, w) else poll fuel' false api uuid w
      | None => poll fuel' false api uuid w
      end
  end.

(** Lines 736-740: the execution is completed and saved once more. *)
Definition complete (job : ExecuteJob) (details : TFDetails) : ExecuteJob :=
  {| execute_event := execute_event job;
     execute_erratum := execute_erratum job;
     execute_compose := execute_compose job;
     execute_jira := execute_jira job;
     execute_recipe := execute_recipe job;
     execute_request := execute_request job;
     execute_execution :=
       {| request_uuid := request_uuid (execute_execution job);
          request_api := request_api (execute_execution job);
          batch_id := batch_id (execute_execution job);
          command := command (execute_execution job);
          artifacts_url := details_run_artifacts details;
          return_code := Some 0%Z |} |}.

(** [worker], lines 663-740. The loop ends with details only, so the
    check of line 733 never raises. *)
Definition worker (fuel : nat) (schedule_file : string)
    (schedule_job : ScheduleJob) (w : World W) : Result W :=
  let s := start schedule_file schedule_job w in
  match poll fuel (skip_initial_sleep s) (tf_request_api s)
          (tf_request_uuid s) (started_world s) with
  | (Some details, w) =>
      Done (save_execute_job "execute-" (complete (started_job s) details) w)
  | (None, w) => Polling w
  end.

Definition result_world (r : Result W) : World W :=
  match r with Done w | Polling w => w end.

Definition is_submit (e : Event) : bool :=
  match e with Submit _ => true | _ => false end.

(** The number of requests submitted to the Testing Farm. *)
Definition submissions (es : list Event) : nat :=
  length (List.filter is_submit es).

(** *** The events of a run *)

Definition is_polling (e : Event) : Prop :=
  match e with Sleep _ | Fetch _ => True | _ => False end.

Lemma submissions_app es es' :
  submissions (es ++ es') = submissions es + submissions es'.
Proof. unfold submissions. by rewrite List.filter_app, length_app. Qed.

Lemma submissions_polling es : Forall is_polling es -> submissions es = 0.
Proof.
  induction 1 as [|e es He _ IH]; [done|].
  unfold submissions in *. simpl. by destruct e.
Qed.

(** The polling loop sleeps and fetches, nothing else; its first poll
    sleeps unless [skip_sleep] is set. *)
Lemma poll_events fuel skip_sleep api uuid w :
  exists rest,
    events (poll fuel skip_sleep api uuid w).2 = events w ++ rest
    /\ Forall is_polling rest
    /\ files (poll fuel skip_sleep api uuid w).2 = files w
    /\ (fuel <> 0 ->
        exists rest',
          rest = (if skip_sleep then [] else [Sleep (tf_recheck_delay ctx)])
                 ++ Fetch uuid :: rest').
Proof.
  revert skip_sleep w. induction fuel as [|fuel IH]; intros skip_sleep w.
  { exists []. simpl. by rewrite app_nil_r. }
  cbn [poll].
  set (w1 := if skip_sleep then w else record (Sleep (tf_recheck_delay ctx)) w).
  destruct (fetch_details (farm w1) api uuid) as [details f].
  set (w2 := record (Fetch uuid) (set_farm f w1)).
  assert (events w2 = events w
            ++ (if skip_sleep then [] else [Sleep (tf_recheck_delay ctx)])
            ++ [Fetch uuid]) as Hw2.
  { subst w2 w1. destruct skip_sleep; simpl; [done|]. by rewrite <- app_assoc. }
  assert (files w2 = files w) as Hf2.
  { subst w2 w1. by destruct skip_sleep. }
  assert (Forall is_polling
            ((if skip_sleep then [] else [Sleep (tf_recheck_delay ctx)])
             ++ [Fetch uuid])) as Hp.
  { destruct skip_sleep; repeat constructor. }
  assert (exists rest,
    events (poll fuel false api uuid w2).2 = events w ++ rest
    /\ Forall is_polling rest
    /\ files (poll fuel false api uuid w2).2 = files w
    /\ (S fuel <> 0 ->
        exists rest',
          rest = (if skip_sleep then [] else [Sleep (tf_recheck_delay ctx)])
                 ++ Fetch uuid :: rest')) as Hrec.
  { destruct (IH false w2) as (rest & He & Hr & Hf & _).
    exists (((if skip_sleep then [] else [Sleep (tf_recheck_delay ctx)])
             ++ [Fetch uuid]) ++ rest).
    rewrite He, Hw2, Hf, Hf2. repeat split.
    - by rewrite !app_assoc.
    - by apply Forall_app.
    - intros _. exists rest. by rewrite <- !app_assoc. }
  assert (exists rest,
    events w2 = events w ++ rest
    /\ Forall is_polling rest
    /\ files w2 = files w
    /\ (S fuel <> 0 ->
        exists rest',
          rest = (if skip_sleep then [] else [Sleep (tf_recheck_delay ctx)])
                 ++ Fetch uuid :: rest')) as Hnow.
  { eexists. repeat split; [exact Hw2|exact Hp|exact Hf2|]. by eexists. }
  destruct details as [d|]; [|exact Hrec].
  destruct (finished d); [exact Hnow|exact Hrec].
Qed.

(** After the start the worker polls and, when the request has
    finished, saves the completed job. *)
Lemma worker_events fuel schedule_file schedule_job w :
  let s := start schedule_file schedule_job w in
  exists rest last,
    events (result_world (worker fuel schedule_file schedule_job w))
    = events (started_world s) ++ rest ++ last
    /\ Forall is_polling rest
    /\ (fuel <> 0 ->
        exists rest',
          rest = (if skip_initial_sleep s then []
                  else [Sleep (tf_recheck_delay ctx)])
                 ++ Fetch (tf_request_uuid s) :: rest')
    /\ (last = []
        \/ exists details,
             last = [Save ("execute-" +:+ job_file_suffix
                                           (complete (started_job s) details))
                       (complete (started_job s) details)]).
Proof.
  intros s. unfold worker. fold s.
  destruct (poll_events fuel (skip_initial_sleep s) (tf_request_api s)
              (tf_request_uuid s) (started_world s)) as (rest & He & Hr & _ & Hf).
  destruct (poll _ _ _ _ _) as [[d|] w']; simpl in *.
  - exists rest, [Save ("execute-" +:+ job_file_suffix (complete (started_job s) d))
                   (complete (started_job s) d)].
    rewrite He, <- app_assoc. repeat split; eauto.
  - exists rest, []. rewrite He, app_nil_r. repeat split; eauto.
Qed.

Lemma start_new schedule_file schedule_job w :
  previous_job schedule_file w = None ->
  let request := schedule_request schedule_job in
  let s := start schedule_file schedule_job w in
  initiate_tf_request (farm w) ctx request
  = ((tf_request_api s, tf_request_uuid s), farm (started_world s))
  /\ execute_request (started_job s) = request
  /\ execute_execution (started_job s)
     = {| request_uuid := tf_request_uuid s; request_api := tf_request_api s;
          batch_id := get_hash request (timestamp ctx);
          command := hidden_command request;
          artifacts_url := None; return_code := None |}
  /\ skip_initial_sleep s = false
  /\ events (started_world s)
     = events w
       ++ [Submit request;
           Save ("execute-" +:+ job_file_suffix (started_job s)) (started_job s)]
  /\ files (started_world s)
     = <["execute-" +:+ job_file_suffix (started_job s) := started_job s]>
         (files w).
Proof.
  intros Hp. unfold start. rewrite Hp.
  destruct (initiate_tf_request _ _ _) as [[api uuid] f]. simpl.
  repeat split. by rewrite <- app_assoc.
Qed.

(** *** Properties of the worker *)

(** C6. When the run continues an earlier one and the execute file,
    named after the schedule file with the prefix [schedule-] replaced
    by [execute-], exists, the worker submits nothing, takes the API
    endpoint and the identifier of the request from the record in that
    file, and its first poll is not preceded by a sleep. Otherwise it
    submits one request and saves the execute job, with [return_code]
    unset, before it sleeps and polls. *)
Theorem worker_resumes_or_submits (fuel : nat) (schedule_file : string)
    (schedule_job : ScheduleJob) (w : World W) :
  let s := start schedule_file schedule_job w in
  let final :=
    result_world (worker (S fuel) schedule_file schedule_job w) in
  (forall execute_job,
     continue_execution ctx = true ->
     files w !! replace_first "schedule-" "execute-" schedule_file
     = Some execute_job ->
     tf_request_api s = request_api (execute_execution execute_job)
     /\ tf_request_uuid s = request_uuid (execute_execution execute_job)
     /\ started_job s = execute_job
     /\ started_world s = w
     /\ submissions (events final) = submissions (events w)
     /\ exists rest,
          events final
          = events w ++ Fetch (request_uuid (execute_execution execute_job))
                        :: rest)
  /\ (continue_execution ctx = false
      \/ files w !! replace_first "schedule-" "execute-" schedule_file = None ->
      initiate_tf_request (farm w) ctx (schedule_request schedule_job)
      = ((tf_request_api s, tf_request_uuid s), farm (started_world s))
      /\ request_uuid (execute_execution (started_job s)) = tf_request_uuid s
      /\ request_api (execute_execution (started_job s)) = tf_request_api s
      /\ return_code (execute_execution (started_job s)) = None
      /\ files (started_world s)
           !! ("execute-" +:+ job_file_suffix (started_job s))
         = Some (started_job s)
      /\ submissions (events final) = S (submissions (events w))
      /\ exists rest,
           events final
           = events w
             ++ Submit (schedule_request schedule_job)
                :: Save ("execute-" +:+ job_file_suffix (started_job s))
                     (started_job s)
                :: Sleep (tf_recheck_delay ctx)
                :: Fetch (tf_request_uuid s) :: rest).
Proof.
  intros s final.
  destruct (worker_events (S fuel) schedule_file schedule_job w)
    as (rest & last & He & Hr & Hf & Hl).
  fold s in He, Hr, Hf, Hl. fold final in He.
  assert (submissions (events final) = submissions (events (started_world s)))
    as Hsub.
  { rewrite He, !submissions_app, (submissions_polling _ Hr).
    destruct Hl as [->|[d ->]]; unfold submissions; simpl; lia. }
  destruct Hf as [rest' ->]; [done|].
  split.
  - intros execute_job Hc Hfile.
    assert (previous_job schedule_file w = Some execute_job) as Hp.
    { unfold previous_job, execute_job_file. by rewrite Hc. }
    assert (s = {| tf_request_api := request_api (execute_execution execute_job);
                   tf_request_uuid := request_uuid (execute_execution execute_job);
                   started_job := execute_job; skip_initial_sleep := true;
                   started_world := w |}) as Hs.
    { subst s. unfold start. by rewrite Hp. }
    rewrite Hs in He, Hsub |- *. simpl in *. repeat split; [done|].
    eexists. by rewrite He.
  - intros Hnone.
    assert (previous_job schedule_file w = None) as Hp.
    { unfold previous_job, execute_job_file. destruct Hnone as [->| ->]; [done|].
      by destruct (continue_execution ctx). }
    destruct (start_new schedule_file schedule_job w Hp)
      as (Hi & Hreq & Hex & Hskip & Hev & Hfiles).
    fold s in Hi, Hreq, Hex, Hskip, Hev, Hfiles.
    rewrite Hskip in He, Hr. rewrite Hev in He.
    split; [exact Hi|]. rewrite Hex. simpl. repeat split.
    + rewrite Hfiles. apply lookup_insert_eq.
    + rewrite Hsub, Hev, submissions_app. unfold submissions. simpl. lia.
    + eexists. rewrite He. rewrite <- !app_assoc. simpl. reflexivity.
Qed.

(** C10, as the code has it. For a newly submitted execution the
    command of the execute job is the joined command with the
    occurrences of the ReportPortal token replaced by three stars, from
    the left and without overlap. When the token is not empty and has no
    star in it, the token does not occur in the command of any job that
    the worker saves. *)
Theorem new_execution_hides_token (fuel : nat) (schedule_file : string)
    (schedule_job : ScheduleJob) (w : World W) :
  previous_job schedule_file w = None ->
  let s := start schedule_file schedule_job w in
  let final := result_world (worker fuel schedule_file schedule_job w) in
  command (execute_execution (started_job s))
  = replace (rp_token ctx) "***"
      (join " " (generate_tf_exec_command ctx (schedule_request schedule_job)))
  /\ (rp_token ctx <> "" -> lacks "*" (rp_token ctx) = true ->
      forall file job,
        Save file job ∈ events final ->
        Save file job ∈ events w
        \/ contains (rp_token ctx) (command (execute_execution job)) = false).
Proof.
  intros Hp s final.
  destruct (start_new schedule_file schedule_job w Hp)
    as (_ & _ & Hex & _ & Hev & _).
  fold s in Hex, Hev.
  assert (command (execute_execution (started_job s))
          = hidden_command (schedule_request schedule_job)) as Hcmd
    by by rewrite Hex.
  split; [exact Hcmd|].
  intros Hne Hstar file job Hin.
  assert (contains (rp_token ctx)
            (command (execute_execution (started_job s))) = false) as Hhid.
  { rewrite Hcmd. by apply replace_hides. }
  destruct (worker_events fuel schedule_file schedule_job w)
    as (rest & last & He & Hr & _ & Hl).
  fold s in He, Hr, Hl. fold final in He. rewrite He, Hev in Hin.
  apply elem_of_app in Hin as [Hin|Hin].
  - apply elem_of_app in Hin as [Hin|Hin]; [by left|right].
    apply elem_of_cons in Hin as [?|Hin]; [done|].
    apply list_elem_of_singleton in Hin as [= _ ->]. exact Hhid.
  - right. apply elem_of_app in Hin as [Hin|Hin].
    + rewrite Forall_forall in Hr. by apply Hr in Hin.
    + destruct Hl as [->|[d ->]]; [by apply elem_of_nil in Hin|].
      apply list_elem_of_singleton in Hin as [= _ ->]. exact Hhid.
Qed.

(** *** The polls and the completed record *)

(** The polling loop ends with details only when they show the state
    complete or error, and these are what the last fetch returned. *)
Lemma poll_done fuel skip_sleep api uuid w details w' :
  poll fuel skip_sleep api uuid w = (Some details, w') ->
  finished details = true
  /\ exists f, fetch_details f api uuid = (Some details, farm w').
Proof.
  revert skip_sleep w. induction fuel as [|fuel IH]; intros skip_sleep w;
    [done|].
  cbn [poll].
  set (w1 := if skip_sleep then w else record (Sleep (tf_recheck_delay ctx)) w).
  destruct (fetch_details (farm w1) api uuid) as [[d|] f] eqn:Hf;
    [|apply IH].
  destruct (finished d) eqn:Hd; [|apply IH].
  intros [= <- <-]. split; [done|]. by exists (farm w1).
Qed.

(** The events of the polling loop: a sleep and a fetch for every poll,
    without the first sleep when [skip_sleep] is set. *)
Lemma poll_shape fuel skip_sleep api uuid w :
  exists polls,
    polls <= fuel
    /\ events (poll fuel skip_sleep api uuid w).2
       = events w
         ++ skipn (if skip_sleep then 1 else 0)
              (concat (replicate polls
                         [Sleep (tf_recheck_delay ctx); Fetch uuid]))
    /\ ((poll fuel skip_sleep api uuid w).1 <> None -> 0 < polls).
Proof.
  revert skip_sleep w. induction fuel as [|fuel IH]; intros skip_sleep w.
  { exists 0. simpl. split; [lia|]. split; [|done].
    destruct skip_sleep; by rewrite app_nil_r. }
  cbn [poll].
  set (w1 := if skip_sleep then w else record (Sleep (tf_recheck_delay ctx)) w).
  destruct (fetch_details (farm w1) api uuid) as [details f].
  set (w2 := record (Fetch uuid) (set_farm f w1)).
  assert (events w2
          = events w
            ++ skipn (if skip_sleep then 1 else 0)
                 [Sleep (tf_recheck_delay ctx); Fetch uuid]) as Hw2.
  { subst w2 w1. destruct skip_sleep; simpl; [done|]. by rewrite <- app_assoc. }
  assert (exists polls,
            polls <= S fuel
            /\ events w2
               = events w
                 ++ skipn (if skip_sleep then 1 else 0)
                      (concat (replicate polls
                                 [Sleep (tf_recheck_delay ctx); Fetch uuid]))
            /\ 0 < polls) as Hnow.
  { exists 1. split; [lia|]. split; [|lia]. by rewrite Hw2. }
  assert (exists polls,
            polls <= S fuel
            /\ events (poll fuel false api uuid w2).2
               = events w
                 ++ skipn (if skip_sleep then 1 else 0)
                      (concat (replicate polls
                                 [Sleep (tf_recheck_delay ctx); Fetch uuid]))
            /\ 0 < polls) as Hrec.
  { destruct (IH false w2) as (n & Hn & He & _).
    exists (S n). split; [lia|]. split; [|lia].
    rewrite He, Hw2. simpl. rewrite <- app_assoc. f_equal.
    by destruct skip_sleep. }
  destruct details as [d|].
  - destruct (finished d).
    + destruct Hnow as (n & ? & ? & ?). exists n. by repeat split.
    + destruct Hrec as (n & ? & ? & ?). exists n. by repeat split.
  - destruct Hrec as (n & ? & ? & ?). exists n. by repeat split.
Qed.

(** *** Further properties of the worker *)

(** X6. When the worker is done, the last thing fetched from the Testing
    Farm showed the state complete or error, and the record saved last
    and found in the execute file is the started one with the artifacts
    of these details and the return code 0, whichever of the two states
    it was; identifier, API endpoint, batch and command are kept. *)
Theorem worker_done_completes (fuel : nat) (schedule_file : string)
    (schedule_job : ScheduleJob) (w w' : World W) :
  worker fuel schedule_file schedule_job w = Done w' ->
  let s := start schedule_file schedule_job w in
  exists details f,
    fetch_details f (tf_request_api s) (tf_request_uuid s)
    = (Some details, farm w')
    /\ (details_state details = "complete" \/ details_state details = "error")
    /\ let job := complete (started_job s) details in
       last (events w') = Some (Save ("execute-" +:+ job_file_suffix job) job)
       /\ files w' !! ("execute-" +:+ job_file_suffix job) = Some job
       /\ return_code (execute_execution job) = Some 0%Z
       /\ artifacts_url (execute_execution job) = details_run_artifacts details
       /\ request_uuid (execute_execution job)
          = request_uuid (execute_execution (started_job s))
       /\ request_api (execute_execution job)
          = request_api (execute_execution (started_job s))
       /\ batch_id (execute_execution job)
          = batch_id (execute_execution (started_job s))
       /\ command (execute_execution job)
          = command (execute_execution (started_job s)).
Proof.
  intros Hw s. unfold worker in Hw. fold s in Hw.
  destruct (poll fuel (skip_initial_sleep s) (tf_request_api s)
              (tf_request_uuid s) (started_world s))
    as [[details|] w1] eqn:Hp; [|done].
  injection Hw as <-.
  destruct (poll_done _ _ _ _ _ _ _ Hp) as (Hfin & f & Hf).
  exists details, f. split; [exact Hf|]. split.
  { unfold finished in Hfin. apply orb_prop in Hfin as [Hs|Hs];
      apply bool_decide_eq_true in Hs; [by left|by right]. }
  cbv zeta. split; [simpl; by rewrite last_snoc|].
  split; [simpl; by rewrite lookup_insert_eq|]. done.
Qed.

(** X7. The worker sleeps [tf_recheck_delay] before every poll, except
    before the first poll of a request that it continues: after the
    start its events are a sleep and a fetch per poll, without the first
    sleep when it continues, and then the save of the completed
    record when it is done. *)
Theorem worker_sleeps_before_polls (fuel : nat) (schedule_file : string)
    (schedule_job : ScheduleJob) (w : World W) :
  let s := start schedule_file schedule_job w in
  let r := worker fuel schedule_file schedule_job w in
  exists polls last,
    polls <= fuel
    /\ events (result_world r)
       = events (started_world s)
         ++ skipn (if skip_initial_sleep s then 1 else 0)
              (concat (replicate polls
                         [Sleep (tf_recheck_delay ctx);
                          Fetch (tf_request_uuid s)]))
         ++ last
    /\ match r with
       | Done _ => 0 < polls /\ exists job file, last = [Save file job]
       | Polling _ => last = []
       end.
Proof.
  intros s r. subst r. unfold worker. fold s.
  destruct (poll_shape fuel (skip_initial_sleep s) (tf_request_api s)
              (tf_request_uuid s) (started_world s)) as (n & Hn & He & Hpos).
  destruct (poll _ _ _ _ _) as [[details|] w1]; simpl in *.
  - exists n. eexists. split; [done|]. split.
    + rewrite He, <- app_assoc. reflexivity.
    + split; [by apply Hpos|]. by eexists _, _.
  - exists n, []. split; [done|]. by rewrite He, app_nil_r.
Qed.

(** X8. The worker writes its own execute file and no other: a file under
    another name than that of the started or of the completed record is
    as it was. *)
Theorem worker_keeps_other_files (fuel : nat) (schedule_file : string)
    (schedule_job : ScheduleJob) (w : World W) (name : string) :
  let s := start schedule_file schedule_job w in
  name <> "execute-" +:+ job_file_suffix (started_job s) ->
  (forall details,
     name <> "execute-" +:+ job_file_suffix (complete (started_job s) details)) ->
  files (result_world (worker fuel schedule_file schedule_job w)) !! name
  = files w !! name.
Proof.
  intros s Hname Hcomplete.
  assert (files (started_world s) !! name = files w !! name) as Hstart.
  { subst s. unfold start in *.
    destruct (previous_job schedule_file w); [done|].
    destruct (initiate_tf_request _ _ _) as [[api uuid] f]. simpl in *.
    by rewrite lookup_insert_ne. }
  unfold worker. fold s.
  destruct (poll_events fuel (skip_initial_sleep s) (tf_request_api s)
              (tf_request_uuid s) (started_world s)) as (_ & _ & _ & Hf & _).
  destruct (poll _ _ _ _ _) as [[details|] w1]; simpl in *.
  - rewrite lookup_insert_ne by (intros Heq; by eapply Hcomplete).
    by rewrite Hf.
  - by rewrite Hf.
Qed.
End Worker.

(** *** A run that is continued *)

Section Continue.
Context {W : Type} `{TestingFarm W}.

(** The record in the execute file after a run, and the request it
    names. *)
Lemma worker_leaves_record (ctx : Context) (fuel : nat) (suffix : string)
    (schedule_job : ScheduleJob) (w : World W) :
  let s := start ctx ("schedule-" +:+ suffix) schedule_job w in
  job_file_suffix (started_job s) = suffix ->
  (forall details,
     job_file_suffix (complete (started_job s) details) = suffix) ->
  exists job,
    files (result_world (worker ctx fuel ("schedule-" +:+ suffix)
                           schedule_job w))
    !! ("execute-" +:+ suffix) = Some job
    /\ request_uuid (execute_execution job) = tf_request_uuid s
    /\ request_api (execute_execution job) = tf_request_api s.
Proof.
  intros s Hsuffix Hcomplete.
  assert (files (started_world s) !! ("execute-" +:+ suffix)
          = Some (started_job s)
          /\ request_uuid (execute_execution (started_job s))
             = tf_request_uuid s
          /\ request_api (execute_execution (started_job s))
             = tf_request_api s) as (Hfile & Huuid & Hapi).
  { destruct (previous_job ctx ("schedule-" +:+ suffix) w) as [job|] eqn:Hp.
    - assert (files w !! ("execute-" +:+ suffix) = Some job) as Hjob.
      { revert Hp. unfold previous_job.
        by destruct (continue_execution ctx). }
      subst s. unfold start. rewrite Hp. by simpl.
    - destruct (start_new ctx ("schedule-" +:+ suffix) schedule_job w Hp)
        as (_ & _ & Hex & _ & _ & Hfiles).
      fold s in Hex, Hfiles. rewrite Hfiles, Hex, Hsuffix. simpl.
      by rewrite lookup_insert_eq. }
  unfold worker. fold s.
  destruct (poll_events ctx fuel (skip_initial_sleep s) (tf_request_api s)
              (tf_request_uuid s) (started_world s)) as (_ & _ & _ & Hf & _).
  destruct (poll ctx fuel (skip_initial_sleep s) (tf_request_api s)
              (tf_request_uuid s) (started_world s)) as [[details|] w'];
    simpl in Hf |- *.
  - exists (complete (started_job s) details).
    rewrite Hcomplete, lookup_insert_eq. by simpl.
  - exists (started_job s). by rewrite Hf.
Qed.

(** X9. A run with [--continue] takes up the request of the run before
    it, finished or not: when the schedule file and the execute file
    are named after the same suffix, the second run polls the request
    that the first run submitted or polled, and submits nothing. *)
Theorem continued_run_resumes (ctx ctx' : Context) (fuel fuel' : nat)
    (suffix : string) (schedule_job schedule_job' : ScheduleJob)
    (w : World W) :
  let schedule_file := "schedule-" +:+ suffix in
  let s := start ctx schedule_file schedule_job w in
  let w1 := result_world (worker ctx fuel schedule_file schedule_job w) in
  let s' := start ctx' schedule_file schedule_job' w1 in
  continue_execution ctx' = true ->
  job_file_suffix (started_job s) = suffix ->
  (forall details,
     job_file_suffix (complete (started_job s) details) = suffix) ->
  tf_request_uuid s' = tf_request_uuid s
  /\ tf_request_api s' = tf_request_api s
  /\ skip_initial_sleep s' = true
  /\ submissions
       (events (result_world
                  (worker ctx' fuel' schedule_file schedule_job' w1)))
     = submissions (events w1).
Proof.
  intros schedule_file s w1 s' Hcontinue Hsuffix Hcomplete.
  destruct (worker_leaves_record ctx fuel suffix schedule_job w
              Hsuffix Hcomplete) as (job & Hjob & Huuid & Hapi).
  fold schedule_file s w1 in Hjob, Huuid, Hapi.
  assert (previous_job ctx' schedule_file w1 = Some job) as Hp.
  { unfold previous_job. by rewrite Hcontinue. }
  assert (s' = {| tf_request_api := request_api (execute_execution job);
                  tf_request_uuid := request_uuid (execute_execution job);
                  started_job := job; skip_initial_sleep := true;
                  started_world := w1 |}) as Hs'.
  { subst s'. unfold start. by rewrite Hp. }
  destruct (worker_events ctx' fuel' schedule_file schedule_job' w1)
    as (rest & last & He & Hr & _ & Hl).
  fold s' in He, Hl. rewrite Hs' in He, Hl |- *. simpl in *.
  repeat split; [done..|].
  rewrite He, !submissions_app, (submissions_polling _ Hr).
  destruct Hl as [->|[d ->]]; unfold submissions; simpl; lia.
Qed.

End Continue.
End Execute.


(** ** The [report] command *)

Module Report.
Import PyStr.

(** A Python dictionary that is iterated: the items in insertion
    order. *)
Definition PyDict (V : Type) : Type := list (string * V).

Fixpoint dict_get {V} (d : PyDict V) (k : string) : option V :=
  match d with
  | [] => None
  | (k', v) :: rest => if bool_decide (k' = k) then Some v else dict_get rest k
  end.

(** [d[k] = v]: an existing key keeps its place, a new key goes last. *)
Fixpoint dict_set {V} (d : PyDict V) (k : string) (v : V) : PyDict V :=
  match d with
  | [] => [(k, v)]
  | (k', v') :: rest =>
      if bool_decide (k' = k) then (k, v) :: rest
      else (k', v') :: dict_set rest k v
  end.

Definition dict_keys {V} (d : PyDict V) : list string := d.*1.

(** The collaborators of [cmd_report]: the [short_id] of a job, the
    methods of [ReportPortal] on a portal of type [R], and the comment
    call of the Jira connection on a tracker of type [J], which fails
    with [JIRAError] when it returns [None]. *)
Class Services (R J : Type) := {
  short_id : ExecuteJob -> string;
  find_launches_by_attr : R -> string -> string -> list string;
  merge_launches : R -> list string -> string -> string -> option string * R;
  get_launch_url : string -> string;
  add_comment : J -> string -> string -> option string -> option J;
}.

(** What [cmd_report] does to the outside, in order. *)
Inductive Event :=
| LogError (message : string)
| Merge (launch_list : list string) (name description : string)
| Comment (jira_id body : string) (visibility : option string).

Inductive Error :=
| NotConfigured (what : string)
| UnableToComment (jira_id : string).

Record World (R J : Type) := {
  portal : R;
  jira : J;
  events : list Event;
}.
Arguments portal {R J}. Arguments jira {R J}. Arguments events {R J}.

(** The dictionaries that the first loop fills. *)
Record Mappings := {
  jira_request_mapping : PyDict (PyDict (list string));
  jira_launch_mapping : PyDict ReportPortalDimension;
  jira_group_mapping : gmap string string;
}.

Inductive Outcome (R J : Type) :=
| Ok (w : World R J)
| Raise (e : Error) (w : World R J).
Arguments Ok {R J}. Arguments Raise {R J}.

Definition newline : string := String (ascii_of_nat 10) "".

Section Reporter.
Context {R J : Type} `{Services R J}.

Definition record (e : Event) (w : World R J) : World R J :=
  {| portal := portal w; jira := jira w; events := events w ++ [e] |}.

(** Line 786: [f'{short_id}%{jira_id}'] *)
Definition record_id_of (execute_job : ExecuteJob) : string :=
  short_id execute_job +:+ "%" +:+ issue_id (execute_jira execute_job).

(** Lines 784-799: the body of the first loop. *)
Definition collect (rp : R) (execute_job : ExecuteJob) (m : Mappings)
    : Mappings :=
  let record_id := record_id_of execute_job in
  let groups :=
    match issue_group (execute_jira execute_job) with
    | Some g =>
        if truthy (Some g) then <[record_id := g]> (jira_group_mapping m)
        else jira_group_mapping m
    | None => jira_group_mapping m
    end in
  let request_id := request_id (execute_request execute_job) in
  let launches :=
    find_launches_by_attr rp "newa_batch"
      (batch_id (execute_execution execute_job)) in
  match dict_get (jira_request_mapping m) record_id with
  | None =>
      {| jira_request_mapping :=
           dict_set (jira_request_mapping m) record_id
             (dict_set [] request_id launches);
         jira_launch_mapping :=
           dict_set (jira_launch_mapping m) record_id
             (request_reportportal (execute_request execute_job));
         jira_group_mapping := groups |}
  | Some requests =>
      {| jira_request_mapping :=
           dict_set (jira_request_mapping m) record_id
             (dict_set requests request_id launches);
         jira_launch_mapping := jira_launch_mapping m;
         jira_group_mapping := groups |}
  end.

Definition no_mappings : Mappings :=
  {| jira_request_mapping := []; jira_launch_mapping := [];
     jira_group_mapping := ∅ |}.

(** Lines 814-819: a status line per request, and the launches found. *)
Fixpoint summarize (sorted_requests : list string)
    (requests : PyDict (list string)) (description : string)
    (launch_list : list string) : string * list string :=
  match sorted_requests with
  | [] => (description, launch_list)
  | request :: rest =>
      let launches := default [] (dict_get requests request) in
      if bool_decide (length launches <> 0) then
        summarize rest requests
          (description +:+ "  " +:+ request +:+ ": COMPLETED<br>")
          (launch_list ++ launches)
      else
        summarize rest requests
          (description +:+ "  " +:+ request +:+ ": MISSING<br>")
          launch_list
  end.

(** Lines 803-819: the description and the launch list of a key. *)
Definition describe (jira_id : string) (launch : ReportPortalDimension)
    (requests : PyDict (list string)) : string * list string :=
  let description :=
    match launch_description launch with
    | Some d => if truthy (Some d) then d +:+ "<br><br>" else ""
    | None => ""
    end in
  let description :=
    description +:+ jira_id +:+ ": " +:+ pretty (length requests)
    +:+ " requests in total<br>" in
  summarize (sorted (dict_keys requests)) requests description [].

(** Lines 821-825. *)
Definition launch_name_of (launch : ReportPortalDimension) : string :=
  match launch_name launch with
  | Some n => if truthy (Some n) then n else "unspecified_newa_launch_name"
  | None => "unspecified_newa_launch_name"
  end.

(** Lines 829-835: several launches are merged into one; when the merge
    fails the launches stay as they are. *)
Definition merge_if_many (launch_list : list string) (name description : string)
    (w : World R J) : list string * World R J :=
  if bool_decide (1 < length launch_list) then
    let '(merged_launch, rp) :=
      merge_launches (portal w) launch_list name description in
    let w :=
      {| portal := rp; jira := jira w;
         events := events w ++ [Merge launch_list name description] |} in
    match merged_launch with
    | Some merged =>
        if truthy (Some merged) then ([merged], w)
        else (launch_list,
              record (LogError "Failed to merge ReportPortal launches") w)
    | None =>
        (launch_list,
         record (LogError "Failed to merge ReportPortal launches") w)
    end
  else (launch_list, w).

(** Line 847: the text of the comment. *)
Definition comment_body (launch_urls : list string) (description : string)
    : string :=
  "NEWA has imported test results to" +:+ newline
  +:+ join newline launch_urls +:+ newline +:+ newline
  +:+ replace "<br>" newline description.

(** Lines 840-855: the comment in Jira, unless the issue is the
    placeholder. *)
Definition comment (groups : gmap string string) (record_id jira_id : string)
    (launch_urls : list string) (description : string) (w : World R J)
    : Outcome R J :=
  if bool_decide (jira_id <> JIRA_NONE_ID) then
    let body := comment_body launch_urls description in
    let visibility := groups !! record_id in
    let w' := record (Comment jira_id body visibility) w in
    match add_comment (jira w) jira_id body visibility with
    | Some j =>
        Ok {| portal := portal w'; jira := j; events := events w' |}
    | None => Raise (UnableToComment jira_id) w'
    end
  else Ok w.

(** Lines 803-855: the body of the second loop. *)
Definition report_key (m : Mappings) (record_id : string) (w : World R J)
    : Outcome R J :=
  let jira_id := last_item (split "%" record_id) in
  let launch :=
    default {| launch_name := None; launch_description := None |}
      (dict_get (jira_launch_mapping m) record_id) in
  let requests := default [] (dict_get (jira_request_mapping m) record_id) in
  let '(description, launch_list) := describe jira_id launch requests in
  let name := launch_name_of launch in
  match launch_list with
  | [] =>
      Ok (record (LogError "Failed to find any related ReportPortal launches") w)
  | _ :: _ =>
      let '(launch_list, w) := merge_if_many launch_list name description w in
      let launch_urls := map get_launch_url launch_list in
      comment (jira_group_mapping m) record_id jira_id launch_urls description w
  end.

(** The second loop, line 802: an exception ends it. *)
Fixpoint report_keys (m : Mappings) (record_ids : list string)
    (w : World R J) : Outcome R J :=
  match record_ids with
  | [] => Ok w
  | record_id :: rest =>
      match report_key m record_id w with
      | Ok w' => report_keys m rest w'
      | Raise e w' => Raise e w'
      end
  end.

(** [cmd_report], lines 755-855, for the execute jobs that
    [ctx.load_execute_jobs] yields. The options [--rp-project] and
    [--rp-url] select the portal and are part of [R]. *)
Definition cmd_report (jira_url jira_token : string)
    (execute_jobs : list ExecuteJob) (w : World R J) : Outcome R J :=
  if bool_decide (jira_url = "") then Raise (NotConfigured "Jira URL") w
  else if bool_decide (jira_token = "") then Raise (NotConfigured "Jira token") w
  else
    let m := foldl (fun m job => collect (portal w) job m) no_mappings
               execute_jobs in
    report_keys m (dict_keys (jira_request_mapping m)) w.

Definition outcome_world (o : Outcome R J) : World R J :=
  match o with Ok w | Raise _ w => w end.

Definition is_comment (e : Event) : bool :=
  match e with Comment _ _ _ => true | _ => false end.

(** The comment calls among the events. *)
Definition comments (es : list Event) : list Event :=
  List.filter is_comment es.

(** *** The description and the launch list *)

Lemma append_nil_r (s : string) : s +:+ "" = s.
Proof.
  induction s as [|a s IH]; [done|].
  change (String a (s +:+ "") = String a s). by rewrite IH.
Qed.

(** The launches found for a request of the key. *)
Definition found (requests : PyDict (list string)) (request : string)
    : list string :=
  default [] (dict_get requests request).

Definition status_line (requests : PyDict (list string)) (request : string)
    : string :=
  "  " +:+ request
  +:+ (if bool_decide (found requests request = [])
       then ": MISSING<br>" else ": COMPLETED<br>").

Lemma summarize_lines sorted_requests requests description launch_list :
  summarize sorted_requests requests description launch_list =
  (description
   +:+ foldr String.append "" (map (status_line requests) sorted_requests),
   launch_list ++ concat (map (found requests) sorted_requests)).
Proof.
  revert description launch_list.
  induction sorted_requests as [|r l IH]; intros description launch_list.
  - simpl. by rewrite append_nil_r, app_nil_r.
  - cbn [summarize map foldr concat]. fold (found requests r).
    unfold status_line at 1.
    destruct (found requests r) as [|x xs] eqn:Hf.
    + rewrite bool_decide_eq_false_2 by (simpl; lia).
      rewrite bool_decide_eq_true_2 by done.
      rewrite IH. f_equal. by rewrite !append_assoc.
    + rewrite bool_decide_eq_true_2 by (simpl; lia).
      rewrite bool_decide_eq_false_2 by done.
      rewrite IH. f_equal; [by rewrite !append_assoc|].
      by rewrite <- app_assoc.
Qed.

(** *** The events of one key *)

Definition commented (groups : gmap string string)
    (record_id jira_id : string) (launch_urls : list string)
    (description : string) : list Event :=
  if bool_decide (jira_id <> JIRA_NONE_ID)
  then [Comment jira_id (comment_body launch_urls description)
          (groups !! record_id)]
  else [].

Lemma comment_events groups record_id jira_id launch_urls description w :
  events (outcome_world
            (comment groups record_id jira_id launch_urls description w))
  = events w ++ commented groups record_id jira_id launch_urls description
  /\ portal (outcome_world
               (comment groups record_id jira_id launch_urls description w))
     = portal w.
Proof.
  unfold comment, commented. case_bool_decide.
  - by destruct (add_comment _ _ _ _).
  - simpl. by rewrite app_nil_r.
Qed.

(** The comment call raises only when it is made and fails. *)
Lemma comment_raise groups record_id jira_id launch_urls description w e w' :
  comment groups record_id jira_id launch_urls description w = Raise e w' ->
  jira_id <> JIRA_NONE_ID
  /\ e = UnableToComment jira_id
  /\ add_comment (jira w) jira_id (comment_body launch_urls description)
       (groups !! record_id) = None
  /\ w' = record (Comment jira_id (comment_body launch_urls description)
                    (groups !! record_id)) w.
Proof.
  unfold comment. case_bool_decide; [|done].
  destruct (add_comment _ _ _ _) eqn:Ha; [done|]. by intros [= <- <-].
Qed.

(** The events that the merge step adds, and the launches it leaves. *)
Definition merged_events (launch_list : list string)
    (name description : string) (w : World R J)
    : list Event * list string :=
  match launch_list with
  | [] | [_] => ([], launch_list)
  | _ :: _ :: _ =>
      match (merge_launches (portal w) launch_list name description).1 with
      | Some merged =>
          if truthy (Some merged)
          then ([Merge launch_list name description], [merged])
          else ([Merge launch_list name description;
                 LogError "Failed to merge ReportPortal launches"],
                launch_list)
      | None =>
          ([Merge launch_list name description;
            LogError "Failed to merge ReportPortal launches"],
           launch_list)
      end
  end.

Lemma merge_if_many_events launch_list name description w :
  (merge_if_many launch_list name description w).1
  = (merged_events launch_list name description w).2
  /\ events (merge_if_many launch_list name description w).2
     = events w ++ (merged_events launch_list name description w).1
  /\ jira (merge_if_many launch_list name description w).2 = jira w.
Proof.
  unfold merge_if_many, merged_events.
  destruct launch_list as [|l1 [|l2 ls]].
  - simpl. by rewrite app_nil_r.
  - simpl. by rewrite app_nil_r.
  - rewrite bool_decide_eq_true_2 by (simpl; lia).
    destruct (merge_launches _ _ _ _) as [[merged|] rp]; simpl.
    + destruct (negb _); simpl; [done|]. by rewrite <- app_assoc.
    + by rewrite <- app_assoc.
Qed.

Lemma report_key_events m record_id w :
  let jira_id := last_item (split "%" record_id) in
  let launch :=
    default {| launch_name := None; launch_description := None |}
      (dict_get (jira_launch_mapping m) record_id) in
  let requests := default [] (dict_get (jira_request_mapping m) record_id) in
  let description := (describe jira_id launch requests).1 in
  let launch_list := (describe jira_id launch requests).2 in
  let merged :=
    merged_events launch_list (launch_name_of launch) description w in
  events (outcome_world (report_key m record_id w)) =
  events w ++
  match launch_list with
  | [] => [LogError "Failed to find any related ReportPortal launches"]
  | _ :: _ =>
      merged.1
      ++ commented (jira_group_mapping m) record_id jira_id
           (map get_launch_url merged.2) description
  end.
Proof.
  intros jira_id launch requests description launch_list merged.
  unfold report_key. fold jira_id launch requests.
  destruct (describe jira_id launch requests) as [d l] eqn:Hd.
  subst description launch_list merged. simpl.
  destruct l as [|l1 ls]; [done|].
  destruct (merge_if_many_events (l1 :: ls) (launch_name_of launch) d w)
    as (H1 & H2 & _).
  destruct (merge_if_many (l1 :: ls) (launch_name_of launch) d w) as [l' w'].
  simpl in H1, H2.
  destruct (comment_events (jira_group_mapping m) record_id jira_id
              (map get_launch_url l') d w') as [-> _].
  by rewrite H2, H1, app_assoc.
Qed.

(** A key raises only when its comment call fails; the failed call is
    the last event. *)
Lemma report_key_raise m record_id w e w' :
  report_key m record_id w = Raise e w' ->
  let jira_id := last_item (split "%" record_id) in
  jira_id <> JIRA_NONE_ID
  /\ e = UnableToComment jira_id
  /\ exists body mid,
       add_comment (jira w) jira_id body (jira_group_mapping m !! record_id)
       = None
       /\ events w'
          = events w ++ mid
            ++ [Comment jira_id body (jira_group_mapping m !! record_id)]
       /\ Forall (fun e => is_comment e = false) mid.
Proof.
  unfold report_key.
  destruct (describe _ _ _) as [d l].
  destruct l as [|l1 ls]; [done|].
  destruct (merge_if_many_events (l1 :: ls)
              (launch_name_of
                 (default {| launch_name := None; launch_description := None |}
                    (dict_get (jira_launch_mapping m) record_id))) d w)
    as (_ & H2 & H3).
  destruct (merge_if_many _ _ _ _) as [l' w0]. simpl in H2, H3.
  intros (Hne & -> & Ha & ->)%comment_raise. simpl.
  split; [done|]. split; [done|]. rewrite H3 in Ha.
  eexists _, _. split; [exact Ha|]. simpl. rewrite H2, <- app_assoc.
  split; [reflexivity|].
  unfold merged_events. destruct ls as [|l2 ls]; [by constructor|].
  destruct (merge_launches _ _ _ _).1 as [merged|]; simpl;
    [destruct (negb (bool_decide (merged = "")))|]; simpl; repeat constructor.
Qed.

Lemma report_keys_app m before after w :
  report_keys m (before ++ after) w =
  match report_keys m before w with
  | Ok w' => report_keys m after w'
  | Raise e w' => Raise e w'
  end.
Proof.
  revert w. induction before as [|k ks IH]; intros w; simpl; [done|].
  destruct (report_key m k w); [apply IH|done].
Qed.

(** An event that a key adds is not a comment, or it is the comment for
    the issue of the key, which is not the placeholder. *)
Lemma report_key_new_events m record_id w e :
  e ∈ events (outcome_world (report_key m record_id w)) ->
  e ∈ events w
  \/ is_comment e = false
  \/ last_item (split "%" record_id) <> JIRA_NONE_ID
     /\ exists body visibility,
          e = Comment (last_item (split "%" record_id)) body visibility.
Proof.
  rewrite report_key_events.
  intros [He|He]%elem_of_app; [by left|right]. revert He.
  destruct (describe _ _ _).2 as [|l1 ls].
  { intros ->%list_elem_of_singleton. by left. }
  intros [He|He]%elem_of_app.
  - left. revert He. unfold merged_events.
    destruct ls as [|l2 ls]; simpl; [by intros ?%elem_of_nil|].
    destruct (merge_launches _ _ _ _).1 as [merged|]; simpl;
      [destruct (negb (bool_decide (merged = "")))|]; simpl;
      rewrite ?elem_of_cons, elem_of_nil; intros; destruct_or!; by subst.
  - unfold commented in He. case_bool_decide; [|by apply elem_of_nil in He].
    apply list_elem_of_singleton in He as ->. right. eauto.
Qed.

Lemma report_key_no_issue m record_id w :
  last_item (split "%" record_id) = JIRA_NONE_ID ->
  comments (events (outcome_world (report_key m record_id w)))
  = comments (events w)
  /\ jira (outcome_world (report_key m record_id w)) = jira w
  /\ exists w', report_key m record_id w = Ok w'.
Proof.
  intros Hid.
  assert (exists w', report_key m record_id w = Ok w') as [w' Hok].
  { destruct (report_key m record_id w) as [w'|e w'] eqn:Hr; [by eexists|].
    by apply report_key_raise in Hr as [? _]. }
  split; [|split; [|by eexists]].
  - rewrite report_key_events. unfold comments. rewrite List.filter_app.
    rewrite Hid. unfold commented.
    rewrite bool_decide_eq_false_2 by (by intros ?).
    rewrite app_nil_r.
    destruct (describe _ _ _).2 as [|l1 ls]; simpl; [by rewrite app_nil_r|].
    unfold merged_events.
    destruct ls as [|l2 ls]; simpl; [by rewrite app_nil_r|].
    destruct (merge_launches _ _ _ _).1 as [merged|]; simpl;
      [destruct (negb (bool_decide (merged = "")))|]; simpl;
      by rewrite app_nil_r.
  - revert Hok. unfold report_key.
    destruct (describe _ _ _) as [d l].
    destruct l as [|l1 ls]; [by intros [= <-]|].
    destruct (merge_if_many_events (l1 :: ls)
                (launch_name_of
                   (default {| launch_name := None; launch_description := None |}
                      (dict_get (jira_launch_mapping m) record_id))) d w)
      as (_ & _ & H3).
    destruct (merge_if_many _ _ _ _) as [l' w0]. simpl in H3.
    unfold comment. rewrite Hid.
    rewrite bool_decide_eq_false_2 by (by intros ?). by intros [= <-].
Qed.

Lemma report_keys_new_events m record_ids w e :
  e ∈ events (outcome_world (report_keys m record_ids w)) ->
  e ∈ events w
  \/ forall jira_id body visibility,
       e = Comment jira_id body visibility -> jira_id <> JIRA_NONE_ID.
Proof.
  revert w. induction record_ids as [|k ks IH]; intros w; simpl; [by left|].
  pose proof (report_key_new_events m k w e) as Hk.
  destruct (report_key m k w) as [w'|err w'] eqn:Hr; simpl in Hk.
  - intros [He|He]%IH; [|by right].
    destruct (Hk He) as [?|[Hn|(Hne & b & v & ->)]]; [by left| |].
    + right. by intros ? ? ? ->.
    + right. by intros ? ? ? [= <- _ _].
  - simpl. intros He.
    destruct (Hk He) as [?|[Hn|(Hne & b & v & ->)]]; [by left| |].
    + right. by intros ? ? ? ->.
    + right. by intros ? ? ? [= <- _ _].
Qed.

Lemma record_id_of_no_issue execute_job :
  issue_id (execute_jira execute_job) = JIRA_NONE_ID ->
  last_item (split "%" (record_id_of execute_job)) = JIRA_NONE_ID.
Proof.
  intros Hid. unfold record_id_of. rewrite Hid.
  by apply (last_item_split "%" _ JIRA_NONE_ID).
Qed.

Lemma cmd_report_comments jira_url jira_token execute_jobs w
    jira_id body visibility :
  Comment jira_id body visibility
    ∈ events (outcome_world (cmd_report jira_url jira_token execute_jobs w)) ->
  Comment jira_id body visibility ∈ events w \/ jira_id <> JIRA_NONE_ID.
Proof.
  unfold cmd_report. repeat case_bool_decide; simpl; [by left..|].
  intros [?|Hn]%report_keys_new_events; [by left|right]. by eapply Hn.
Qed.

Lemma dict_get_set {V} (d : PyDict V) k v : dict_get (dict_set d k v) k = Some v.
Proof.
  induction d as [|[k' v'] d IH]; simpl.
  - by rewrite bool_decide_eq_true_2.
  - case_bool_decide as Hk; simpl.
    + by rewrite bool_decide_eq_true_2.
    + by rewrite bool_decide_eq_false_2.
Qed.

(** The first loop files the launches of the batch of a job under the
    key and the request of the job. *)
Lemma collect_found rp execute_job m :
  found
    (default []
       (dict_get (jira_request_mapping (collect rp execute_job m))
          (record_id_of execute_job)))
    (request_id (execute_request execute_job))
  = find_launches_by_attr rp "newa_batch"
      (batch_id (execute_execution execute_job)).
Proof.
  unfold collect, found.
  destruct (dict_get (jira_request_mapping m) (record_id_of execute_job));
    simpl; rewrite dict_get_set; simpl.
  - by rewrite dict_get_set.
  - by rewrite bool_decide_eq_true_2.
Qed.

(** *** Properties of the reporter *)

(** C7, as the code has it. The launches found for the batch of a job
    are filed under the key and the request of the job. The description
    of a key has one status line for each of its requests, COMPLETED when launches were found
    for the request and MISSING when none were, and the launch list
    gathers the launches found. When the list is empty an error is
    logged and there is no comment. A single launch is commented as it
    is. For more than one launch a merge into one launch with the launch
    name is requested first: when it yields a launch the comment has
    this launch only, and when it fails an error is logged and the
    comment has the launches unmerged. *)
Theorem report_key_aggregates (m : Mappings) (record_id : string)
    (w : World R J) :
  let jira_id := last_item (split "%" record_id) in
  let launch :=
    default {| launch_name := None; launch_description := None |}
      (dict_get (jira_launch_mapping m) record_id) in
  let requests := default [] (dict_get (jira_request_mapping m) record_id) in
  let description := (describe jira_id launch requests).1 in
  let launch_list := (describe jira_id launch requests).2 in
  let name := launch_name_of launch in
  let comment_with launches :=
    commented (jira_group_mapping m) record_id jira_id
      (map get_launch_url launches) description in
  (forall rp execute_job m0,
     found
       (default []
          (dict_get (jira_request_mapping (collect rp execute_job m0))
             (record_id_of execute_job)))
       (request_id (execute_request execute_job))
     = find_launches_by_attr rp "newa_batch"
         (batch_id (execute_execution execute_job)))
  /\ sorted (dict_keys requests) ≡ₚ dict_keys requests
  /\ description
     = ((match launch_description launch with
         | Some d => if truthy (Some d) then d +:+ "<br><br>" else ""
         | None => ""
         end)
        +:+ jira_id +:+ ": " +:+ pretty (length requests)
        +:+ " requests in total<br>")
       +:+ foldr String.append ""
             (map (fun request =>
                     "  " +:+ request
                     +:+ (if bool_decide (found requests request = [])
                          then ": MISSING<br>" else ": COMPLETED<br>"))
                (sorted (dict_keys requests)))
  /\ launch_list = concat (map (found requests) (sorted (dict_keys requests)))
  /\ (launch_list = [] ->
      report_key m record_id w
      = Ok (record
              (LogError "Failed to find any related ReportPortal launches") w))
  /\ events (outcome_world (report_key m record_id w))
     = events w ++
       match launch_list with
       | [] => [LogError "Failed to find any related ReportPortal launches"]
       | [launch] => comment_with [launch]
       | _ :: _ :: _ =>
           Merge launch_list name description
           :: match (merge_launches (portal w) launch_list name description).1
              with
              | Some merged =>
                  if truthy (Some merged) then comment_with [merged]
                  else LogError "Failed to merge ReportPortal launches"
                       :: comment_with launch_list
              | None =>
                  LogError "Failed to merge ReportPortal launches"
                  :: comment_with launch_list
              end
       end.
Proof.
  intros jira_id launch requests description launch_list name comment_with.
  split; [apply collect_found|]. split; [apply sorted_perm|].
  assert (describe jira_id launch requests
          = (description, launch_list)) as Hd.
  { subst description launch_list. by destruct (describe _ _ _). }
  unfold describe in Hd. rewrite summarize_lines in Hd.
  injection Hd as Hdesc Hlist.
  split; [by rewrite <- Hdesc|]. split; [by rewrite <- Hlist|]. split.
  - intros Hnil. unfold report_key. fold jira_id launch requests.
    destruct (describe jira_id launch requests) as [d l] eqn:Hdl.
    subst launch_list. simpl in Hnil. by subst l.
  - rewrite report_key_events. fold jira_id launch requests.
    fold description launch_list name. f_equal.
    unfold merged_events.
    destruct launch_list as [|l1 [|l2 ls]]; [done|done|].
    destruct (merge_launches _ _ _ _).1 as [merged|]; simpl;
      [destruct (negb (bool_decide (merged = "")))|]; done.
Qed.

(** C9, as the code has it. A key raises only when its comment call
    fails, and this exception ends the loop over the keys: the keys
    before it have been reported, the failed call is the last event, and
    no key after it is processed, whatever those keys are. *)
Theorem comment_failure_ends_report (m : Mappings)
    (before after : list string) (record_id : string)
    (w w1 w2 : World R J) (e : Error) :
  report_keys m before w = Ok w1 ->
  report_key m record_id w1 = Raise e w2 ->
  let jira_id := last_item (split "%" record_id) in
  e = UnableToComment jira_id
  /\ (exists body,
        add_comment (jira w1) jira_id body (jira_group_mapping m !! record_id)
        = None
        /\ last (events w2)
           = Some (Comment jira_id body (jira_group_mapping m !! record_id)))
  /\ report_keys m (before ++ record_id :: after) w = Raise e w2.
Proof.
  intros Hb Hr jira_id.
  destruct (report_key_raise _ _ _ _ _ Hr) as (_ & -> & body & mid & Ha & He & _).
  split; [done|]. split.
  - exists body. split; [exact Ha|]. by rewrite He, !app_assoc, last_snoc.
  - rewrite report_keys_app, Hb. simpl. by rewrite Hr.
Qed.

(** *** The dictionaries of the first loop *)

(** The keys of a dictionary after [d[k] = v]. *)
Definition add_key (keys : list string) (k : string) : list string :=
  if bool_decide (k ∈ keys) then keys else keys ++ [k].

Lemma dict_keys_set {V} (d : PyDict V) k v :
  dict_keys (dict_set d k v) = add_key (dict_keys d) k.
Proof.
  unfold dict_keys, add_key. induction d as [|[k' v'] d IH]; [done|].
  cbn [dict_set]. rewrite fmap_cons. cbn [fst].
  destruct (decide (k' = k)) as [->|Hk].
  - rewrite (bool_decide_eq_true_2 (k = k)) by done.
    rewrite fmap_cons. cbn [fst].
    rewrite bool_decide_eq_true_2; [done|]. by left.
  - rewrite (bool_decide_eq_false_2 (k' = k)) by done.
    rewrite fmap_cons, IH. cbn [fst].
    destruct (decide (k ∈ d.*1)) as [Hin|Hin].
    + rewrite (bool_decide_eq_true_2 (k ∈ d.*1)) by done.
      rewrite bool_decide_eq_true_2; [done|]. by right.
    + rewrite (bool_decide_eq_false_2 (k ∈ d.*1)) by done.
      rewrite bool_decide_eq_false_2; [done|].
      intros [?|?]%elem_of_cons; [by subst|done].
Qed.

Lemma dict_get_set_ne {V} (d : PyDict V) k k' v :
  k <> k' -> dict_get (dict_set d k v) k' = dict_get d k'.
Proof.
  intros Hne. induction d as [|[k0 v0] d IH]; simpl.
  - by rewrite bool_decide_eq_false_2.
  - case_bool_decide as Hk; simpl.
    + subst k0. by rewrite !bool_decide_eq_false_2.
    + by rewrite IH.
Qed.

Lemma dict_get_None {V} (d : PyDict V) k :
  dict_get d k = None <-> k ∉ dict_keys d.
Proof.
  unfold dict_keys. induction d as [|[k' v'] d IH]; simpl.
  - split; [|done]. intros _ ?%elem_of_nil. done.
  - case_bool_decide as Hk.
    + subst k'. split; [done|]. intros Hn. exfalso. apply Hn. by left.
    + rewrite IH. split.
      * intros Hn [?|?]%elem_of_cons; [by subst|done].
      * intros Hn Hin. apply Hn. by right.
Qed.

Lemma add_key_NoDup keys k : NoDup keys -> NoDup (add_key keys k).
Proof.
  intros Hn. unfold add_key. case_bool_decide as Hin; [done|].
  apply NoDup_app. split; [done|]. split; [|apply NoDup_singleton].
  intros x Hx ->%list_elem_of_singleton. done.
Qed.

Lemma add_key_elem keys k x : x ∈ add_key keys k <-> x ∈ keys \/ x = k.
Proof.
  unfold add_key. case_bool_decide as Hin.
  - split; [by left|]. by intros [?| ->].
  - rewrite elem_of_app, list_elem_of_singleton. done.
Qed.

(** The mappings that the first loop builds from the execute jobs. *)
Definition collected (rp : R) (execute_jobs : list ExecuteJob) : Mappings :=
  foldl (fun m job => collect rp job m) no_mappings execute_jobs.

Lemma collected_snoc rp jobs job :
  collected rp (jobs ++ [job]) = collect rp job (collected rp jobs).
Proof. unfold collected. by rewrite foldl_app. Qed.

Lemma collect_keys rp job m :
  dict_keys (jira_request_mapping m) = dict_keys (jira_launch_mapping m) ->
  dict_keys (jira_request_mapping (collect rp job m))
  = add_key (dict_keys (jira_request_mapping m)) (record_id_of job)
  /\ dict_keys (jira_launch_mapping (collect rp job m))
     = add_key (dict_keys (jira_request_mapping m)) (record_id_of job).
Proof.
  intros Hk. unfold collect.
  destruct (dict_get (jira_request_mapping m) (record_id_of job)) eqn:Hg;
    simpl; rewrite dict_keys_set.
  - split; [done|]. rewrite <- Hk. unfold add_key.
    rewrite bool_decide_eq_true_2; [done|].
    destruct (decide (record_id_of job ∈ dict_keys (jira_request_mapping m)))
      as [|Hn]; [done|].
    apply dict_get_None in Hn. congruence.
  - by rewrite dict_keys_set, Hk.
Qed.

Lemma collected_keys rp jobs :
  dict_keys (jira_request_mapping (collected rp jobs))
  = foldl add_key [] (record_id_of <$> jobs)
  /\ dict_keys (jira_launch_mapping (collected rp jobs))
     = foldl add_key [] (record_id_of <$> jobs).
Proof.
  induction jobs as [|job jobs IH] using rev_ind; [done|].
  destruct IH as [IH1 IH2].
  rewrite collected_snoc, fmap_app, foldl_app. simpl.
  destruct (collect_keys rp job (collected rp jobs)) as [-> ->];
    [by rewrite IH1, IH2|].
  by rewrite IH1.
Qed.

Lemma first_keys_spec l :
  NoDup (foldl add_key [] l)
  /\ forall x, x ∈ foldl add_key [] l <-> x ∈ l.
Proof.
  induction l as [|k l [IH1 IH2]] using rev_ind.
  - split; [apply NoDup_nil_2|done].
  - rewrite foldl_app. simpl. split; [by apply add_key_NoDup|].
    intros x. rewrite add_key_elem, IH2, elem_of_app, list_elem_of_singleton.
    done.
Qed.

(** The launch entry of a key is the one of the first job of the key. *)
Lemma collect_launch_other rp job m k :
  is_Some (dict_get (jira_launch_mapping m) k) ->
  dict_keys (jira_request_mapping m) = dict_keys (jira_launch_mapping m) ->
  dict_get (jira_launch_mapping (collect rp job m)) k
  = dict_get (jira_launch_mapping m) k.
Proof.
  intros Hs Hk. unfold collect.
  destruct (dict_get (jira_request_mapping m) (record_id_of job)) eqn:Hg;
    simpl; [done|].
  apply dict_get_set_ne. intros <-.
  apply dict_get_None in Hg. rewrite Hk in Hg. apply dict_get_None in Hg.
  rewrite Hg in Hs. by destruct Hs.
Qed.

(** The launches of a request are those of the last job with this key
    and this request. *)
Lemma collect_found_other rp job m k r :
  record_id_of job <> k \/ request_id (execute_request job) <> r ->
  found (default [] (dict_get (jira_request_mapping (collect rp job m)) k)) r
  = found (default [] (dict_get (jira_request_mapping m) k)) r.
Proof.
  intros Hne. unfold collect.
  destruct (decide (record_id_of job = k)) as [<-|Hk].
  - destruct Hne as [?|Hr]; [done|].
    destruct (dict_get (jira_request_mapping m) (record_id_of job)) eqn:Hg;
      simpl; rewrite dict_get_set; simpl; unfold found.
    + by rewrite dict_get_set_ne.
    + cbn [dict_get]. by rewrite bool_decide_eq_false_2.
  - destruct (dict_get (jira_request_mapping m) (record_id_of job));
      simpl; by rewrite dict_get_set_ne.
Qed.

Lemma cmd_report_collected jira_url jira_token execute_jobs w :
  jira_url <> "" -> jira_token <> "" ->
  cmd_report jira_url jira_token execute_jobs w
  = report_keys (collected (portal w) execute_jobs)
      (dict_keys (jira_request_mapping (collected (portal w) execute_jobs))) w.
Proof.
  intros Hu Ht. unfold cmd_report. by rewrite !bool_decide_eq_false_2.
Qed.

(** The issue that a comment call names. *)
Definition commented_issue (e : Event) : option string :=
  match e with Comment jira_id _ _ => Some jira_id | _ => None end.

(** Line 803: the issue of a composite key. *)
Definition issue_of_key (record_id : string) : string :=
  last_item (split "%" record_id).

Lemma report_key_comment_issues m record_id w :
  exists new,
    events (outcome_world (report_key m record_id w)) = events w ++ new
    /\ (omap commented_issue new = []
        \/ omap commented_issue new = [issue_of_key record_id]).
Proof.
  rewrite report_key_events. eexists. split; [done|].
  destruct (describe _ _ _).2 as [|l1 ls]; [by left|].
  rewrite omap_app.
  assert (omap commented_issue
            (merged_events (l1 :: ls)
               (launch_name_of
                  (default {| launch_name := None; launch_description := None |}
                     (dict_get (jira_launch_mapping m) record_id)))
               (describe (last_item (split "%" record_id))
                  (default {| launch_name := None; launch_description := None |}
                     (dict_get (jira_launch_mapping m) record_id))
                  (default [] (dict_get (jira_request_mapping m) record_id))).1
               w).1 = []) as ->.
  { unfold merged_events. destruct ls as [|l2 ls]; [done|].
    destruct (merge_launches _ _ _ _).1 as [merged|]; simpl;
      [by destruct (negb (bool_decide (merged = "")))|done]. }
  unfold commented. case_bool_decide; [by right|by left].
Qed.

Lemma report_keys_comment_issues m record_ids w :
  exists new,
    events (outcome_world (report_keys m record_ids w)) = events w ++ new
    /\ sublist (omap commented_issue new) (issue_of_key <$> record_ids).
Proof.
  revert w. induction record_ids as [|k ks IH]; intros w.
  { exists []. simpl. by rewrite app_nil_r. }
  destruct (report_key_comment_issues m k w) as (new1 & H1 & Hc).
  simpl. destruct (report_key m k w) as [w'|e w'] eqn:Hr; simpl in H1.
  - destruct (IH w') as (new2 & H2 & Hs). exists (new1 ++ new2).
    split; [by rewrite H2, H1, app_assoc|].
    rewrite omap_app.
    destruct Hc as [->| ->]; simpl;
      [by apply sublist_cons|by apply sublist_skip].
  - exists new1. split; [done|].
    destruct Hc as [->| ->]; [apply sublist_nil_l|].
    apply sublist_skip, sublist_nil_l.
Qed.

Lemma append_length s t :
  String.length (s +:+ t) = String.length s + String.length t.
Proof.
  induction s as [|c s IH]; [done|]. rewrite append_cons. simpl. by rewrite IH.
Qed.

Lemma append_inj_r t s s' : s +:+ t = s' +:+ t -> s = s'.
Proof.
  revert s'. induction s as [|c s IH]; intros [|c' s'] Heq.
  - done.
  - apply (f_equal String.length) in Heq.
    rewrite append_cons in Heq. simpl in Heq. rewrite !append_length in Heq.
    simpl in Heq. lia.
  - apply (f_equal String.length) in Heq.
    rewrite append_cons in Heq. simpl in Heq. rewrite !append_length in Heq.
    simpl in Heq. lia.
  - rewrite !append_cons in Heq. injection Heq as -> Heq.
    by rewrite (IH s').
Qed.

(** X10. After the first loop the two dictionaries have the same keys, so
    the second loop finds a launch entry for every key it visits; the
    keys are the composite keys of the execute jobs, each one once. *)
Theorem report_keys_of_jobs (rp : R) (execute_jobs : list ExecuteJob) :
  let m := collected rp execute_jobs in
  dict_keys (jira_launch_mapping m) = dict_keys (jira_request_mapping m)
  /\ NoDup (dict_keys (jira_request_mapping m))
  /\ (forall k, k ∈ dict_keys (jira_request_mapping m)
        <-> exists job, job ∈ execute_jobs /\ record_id_of job = k)
  /\ (forall k, k ∈ dict_keys (jira_request_mapping m)
        -> is_Some (dict_get (jira_launch_mapping m) k)).
Proof.
  intros m. subst m.
  destruct (collected_keys rp execute_jobs) as [Hr Hl].
  destruct (first_keys_spec (record_id_of <$> execute_jobs)) as [Hn Hk].
  rewrite Hr, Hl. split; [done|]. split; [done|]. split.
  - intros k. rewrite Hk, list_elem_of_fmap. split.
    + intros (job & -> & Hin). by exists job.
    + intros (job & Hin & <-). by exists job.
  - intros k Hin.
    destruct (dict_get (jira_launch_mapping (collected rp execute_jobs)) k)
      eqn:Hg; [by eexists|].
    apply dict_get_None in Hg. by rewrite Hl in Hg.
Qed.

(** X11. The name and the description of the launch of a key come from
    the first execute job with this key; later jobs of the key do not
    change them. *)
Theorem launch_of_first_job (rp : R) (before after : list ExecuteJob)
    (job : ExecuteJob) :
  (forall job', job' ∈ before -> record_id_of job' <> record_id_of job) ->
  dict_get (jira_launch_mapping (collected rp (before ++ job :: after)))
    (record_id_of job)
  = Some (request_reportportal (execute_request job)).
Proof.
  intros Hfirst. induction after as [|x after IH] using rev_ind.
  - rewrite collected_snoc. unfold collect.
    assert (dict_get (jira_request_mapping (collected rp before))
              (record_id_of job) = None) as ->.
    { apply dict_get_None. rewrite (proj1 (collected_keys rp before)).
      rewrite (proj2 (first_keys_spec _)).
      intros (job' & Heq & Hin)%list_elem_of_fmap. by eapply Hfirst. }
    simpl. apply dict_get_set.
  - rewrite app_comm_cons, app_assoc, collected_snoc.
    rewrite collect_launch_other; [done| |].
    + by rewrite IH.
    + destruct (collected_keys rp (before ++ job :: after)) as [-> ->]. done.
Qed.

(** X12. The launches listed for a request of a key are those found for
    the batch of the last execute job with this key and this request
    id. *)
Theorem launches_of_last_job (rp : R) (before after : list ExecuteJob)
    (job : ExecuteJob) :
  (forall job', job' ∈ after ->
     record_id_of job' <> record_id_of job
     \/ request_id (execute_request job') <> request_id (execute_request job)) ->
  found
    (default []
       (dict_get (jira_request_mapping (collected rp (before ++ job :: after)))
          (record_id_of job)))
    (request_id (execute_request job))
  = find_launches_by_attr rp "newa_batch" (batch_id (execute_execution job)).
Proof.
  induction after as [|x after IH] using rev_ind; intros Hlast.
  - rewrite collected_snoc. apply collect_found.
  - rewrite app_comm_cons, app_assoc, collected_snoc.
    rewrite collect_found_other.
    + apply IH. intros job' Hin. apply Hlast, elem_of_app. by left.
    + apply Hlast, elem_of_app. right. by left.
Qed.

(** X13. A report adds at most one comment call per composite key, for
    the issue of the key and in the order in which the keys first occur
    among the execute jobs. *)
Theorem one_comment_per_key (jira_url jira_token : string)
    (execute_jobs : list ExecuteJob) (w : World R J) :
  exists new,
    events (outcome_world (cmd_report jira_url jira_token execute_jobs w))
    = events w ++ new
    /\ sublist (omap commented_issue new)
         (issue_of_key <$> foldl add_key [] (record_id_of <$> execute_jobs)).
Proof.
  unfold cmd_report.
  case_bool_decide; [exists []; simpl; rewrite app_nil_r; split;
                       [done|apply sublist_nil_l]|].
  case_bool_decide; [exists []; simpl; rewrite app_nil_r; split;
                       [done|apply sublist_nil_l]|].
  fold (collected (portal w) execute_jobs).
  rewrite <- (proj1 (collected_keys (portal w) execute_jobs)).
  apply report_keys_comment_issues.
Qed.

(** X14. When the issue ids hold no percent sign, the issue that the
    second loop reads back from a composite key is the issue of the job,
    and two jobs share a key only if they share the short id and the
    issue. *)
Theorem record_id_round_trip (job job' : ExecuteJob) :
  lacks "%" (issue_id (execute_jira job)) = true ->
  lacks "%" (issue_id (execute_jira job')) = true ->
  issue_of_key (record_id_of job) = issue_id (execute_jira job)
  /\ (record_id_of job = record_id_of job' ->
      short_id job = short_id job'
      /\ issue_id (execute_jira job) = issue_id (execute_jira job')).
Proof.
  intros Hl Hl'.
  assert (forall j, lacks "%" (issue_id (execute_jira j)) = true ->
            issue_of_key (record_id_of j) = issue_id (execute_jira j)) as Hrt.
  { intros j Hj. unfold issue_of_key, record_id_of.
    by apply (last_item_split "%" _ (issue_id (execute_jira j))). }
  split; [by apply Hrt|]. intros Heq.
  assert (issue_id (execute_jira job) = issue_id (execute_jira job')) as Hi.
  { rewrite <- (Hrt job), <- (Hrt job') by done. by rewrite Heq. }
  split; [|done]. unfold record_id_of in Heq. rewrite Hi in Heq.
  by apply append_inj_r in Heq.
Qed.
End Reporter.
End Report.


(** * The state directory: [get_state_dir]

    [get_state_dir], lines 53-85, reads the subdirectories of
    [/var/tmp/newa]. The model takes what [os.scandir] yields: [None]
    when the parent directory does not exist, else the entries in the
    order of the scan. *)

Module StateDir.
Import PyStr.
Local Open Scope N_scope.

(** An entry of the scan, with the names that exist directly below
    it. *)
Record DirEntry := {
  entry_name : string;
  entry_is_dir : bool;
  entry_children : list string;
}.

Definition STATEDIR_PARENT_DIR : string := "/var/tmp/newa".

Inductive Error :=
| ParentDirMissing
| PpidFileNotFound (ppid_filename : string).

(** [[0-9]] *)
Definition is_digit (c : ascii) : bool :=
  (48 <=? N_of_ascii c) && (N_of_ascii c <=? 57).

(** The longest run of digits at the start, and what follows it. *)
Fixpoint take_digits (s : string) : string * string :=
  match s with
  | EmptyString => ("", "")
  | String c s' =>
      if is_digit c
      then let '(digits, rest) := take_digits s' in (String c digits, rest)
      else ("", s)
  end.

(** [re.match(STATEDIR_NAME_PATTERN, name)] with the pattern
    [^run-([0-9]+)$]: the group of the match. [$] matches at the end and
    before a newline that ends the name. *)
Definition state_dir_match (name : string) : option string :=
  if is_prefix "run-" name then
    let '(digits, rest) := take_digits (drop 4%nat name) in
    if bool_decide (digits <> "")
       && (bool_decide (rest = "")
           || bool_decide (rest = String (ascii_of_nat 10) ""))
    then Some digits
    else None
  else None.

(** [int(digits)] for decimal digits. The name of a directory entry is
    shorter than the number of digits at which [int] gives up. *)
Definition digit_value (c : ascii) : N := N_of_ascii c - 48.

Fixpoint int_go (acc : N) (digits : string) : N :=
  match digits with
  | EmptyString => acc
  | String c rest => int_go (10 * acc + digit_value c) rest
  end.

Definition int (digits : string) : N := int_go 0 digits.

Section GetStateDir.
(** [os.getppid()] *)
Variable ppid : N.

Definition ppid_filename : string := pretty ppid +:+ ".ppid".

(** [STATEDIR_PARENT_DIR / f'run-{counter}'] *)
Definition run_dir (counter : N) : string :=
  STATEDIR_PARENT_DIR +:+ "/" +:+ "run-" +:+ pretty counter.

(** Lines 71-80: the body of the loop over the entries. *)
Definition scan_entry (use_ppid : bool) (counter : N) (entry : DirEntry) : N :=
  match state_dir_match (entry_name entry) with
  | Some group =>
      if entry_is_dir entry then
        let c := int group in
        if use_ppid then
          if bool_decide (ppid_filename ∈ entry_children entry)
             && bool_decide (counter < c)
          then c else counter
        else if bool_decide (counter < c) then c else counter
      else counter
  | None => counter
  end.

Definition get_state_dir (listing : option (list DirEntry)) (use_ppid : bool)
    : Error + string :=
  match listing with
  | None =>
      if use_ppid then inl ParentDirMissing else inr (run_dir (0 + 1))
  | Some entries =>
      let counter := foldl (scan_entry use_ppid) 0 entries in
      if use_ppid then
        if bool_decide (counter <> 0) then inr (run_dir counter)
        else inl (PpidFileNotFound ppid_filename)
      else inr (run_dir (counter + 1))
  end.

(** *** Decimal numerals *)

Fixpoint all_digits (s : string) : bool :=
  match s with
  | EmptyString => true
  | String c s' => is_digit c && all_digits s'
  end.

Lemma take_digits_all s : all_digits s = true -> take_digits s = (s, "").
Proof.
  induction s as [|c s IH]; simpl; [done|].
  intros [-> Hs]%andb_prop. by rewrite IH.
Qed.

Lemma pretty_N_char_digit d : is_digit (pretty_N_char d) = true.
Proof. unfold pretty_N_char. by repeat case_match. Qed.

Lemma pretty_N_char_value d : d < 10 -> digit_value (pretty_N_char d) = d.
Proof.
  intros Hd.
  assert (d = 0 \/ d = 1 \/ d = 2 \/ d = 3 \/ d = 4 \/ d = 5 \/ d = 6
          \/ d = 7 \/ d = 8 \/ d = 9) as Hc by lia.
  destruct_or!; by subst.
Qed.

Lemma pretty_N_go_digits x s :
  all_digits s = true -> all_digits (pretty_N_go x s) = true.
Proof.
  revert s. induction (N.lt_wf_0 x) as [x _ IH]; intros s Hs.
  assert (x = 0 \/ 0 < x) as [->|Hx] by lia; [by rewrite pretty_N_go_0|].
  rewrite pretty_N_go_step by done. apply IH; [by apply N.div_lt|].
  simpl. by rewrite pretty_N_char_digit.
Qed.

Lemma pretty_N_go_nonempty x s : s <> "" -> pretty_N_go x s <> "".
Proof.
  revert s. induction (N.lt_wf_0 x) as [x _ IH]; intros s Hs.
  assert (x = 0 \/ 0 < x) as [->|Hx] by lia; [by rewrite pretty_N_go_0|].
  rewrite pretty_N_go_step by done. apply IH; [by apply N.div_lt|done].
Qed.

Lemma pretty_digits (n : N) : all_digits (pretty n) = true /\ pretty n <> "".
Proof.
  unfold pretty, pretty_N. case_decide as Hn; [done|]. split.
  - by apply pretty_N_go_digits.
  - rewrite pretty_N_go_step by lia. by apply pretty_N_go_nonempty.
Qed.

Lemma int_go_pretty x s : int_go 0 (pretty_N_go x s) = int_go x s.
Proof.
  revert s. induction (N.lt_wf_0 x) as [x _ IH]; intros s.
  assert (x = 0 \/ 0 < x) as [->|Hx] by lia; [by rewrite pretty_N_go_0|].
  rewrite pretty_N_go_step by done. rewrite IH by (by apply N.div_lt).
  cbn [int_go]. rewrite pretty_N_char_value by (by apply N.mod_lt).
  f_equal. rewrite (N.div_mod x 10) at 3 by done. lia.
Qed.

(** [int(str(n)) == n] *)
Lemma int_pretty (n : N) : int (pretty n) = n.
Proof.
  unfold pretty, pretty_N, int. case_decide as Hn; [by subst|].
  by rewrite int_go_pretty.
Qed.

(** The pattern matches [f'run-{n}'], with the numeral as its group. *)
Lemma state_dir_match_pretty (n : N) :
  state_dir_match ("run-" +:+ pretty n) = Some (pretty n).
Proof.
  destruct (pretty_digits n) as [Hd Hne].
  change ("run-" +:+ pretty n)
    with (String "r" (String "u" (String "n" (String "-" (pretty n))))).
  unfold state_dir_match. cbn [is_prefix drop Ascii.eqb Bool.eqb andb].
  rewrite take_digits_all by done.
  by rewrite bool_decide_eq_true_2.
Qed.

(** *** The loop over the entries *)

(** The counter that an entry contributes, if it is looked at. *)
Definition counted (use_ppid : bool) (entry : DirEntry) : option N :=
  match state_dir_match (entry_name entry) with
  | Some group =>
      if entry_is_dir entry
         && (negb use_ppid
             || bool_decide (ppid_filename ∈ entry_children entry))
      then Some (int group) else None
  | None => None
  end.

Lemma scan_entry_counted use_ppid counter entry :
  scan_entry use_ppid counter entry
  = match counted use_ppid entry with
    | Some c => N.max counter c
    | None => counter
    end.
Proof.
  unfold scan_entry, counted.
  destruct (state_dir_match (entry_name entry)) as [group|]; [|done].
  destruct (entry_is_dir entry); [|done].
  destruct use_ppid; simpl.
  - destruct (bool_decide (ppid_filename ∈ entry_children entry)); [|done].
    simpl. case_bool_decide; lia.
  - case_bool_decide; lia.
Qed.

Lemma scan_bounds use_ppid entries c0 :
  c0 <= foldl (scan_entry use_ppid) c0 entries
  /\ (forall e n, e ∈ entries -> counted use_ppid e = Some n ->
        n <= foldl (scan_entry use_ppid) c0 entries)
  /\ (foldl (scan_entry use_ppid) c0 entries = c0
      \/ exists e, e ∈ entries
           /\ counted use_ppid e
              = Some (foldl (scan_entry use_ppid) c0 entries)).
Proof.
  revert c0. induction entries as [|x entries IH]; intros c0.
  { simpl. split; [lia|]. split; [|by left].
    by intros e n ?%elem_of_nil. }
  cbn [foldl]. destruct (IH (scan_entry use_ppid c0 x)) as (H1 & H2 & H3).
  pose proof (scan_entry_counted use_ppid c0 x) as Hx.
  split; [|split].
  - destruct (counted use_ppid x); lia.
  - intros e n [->|Hin]%elem_of_cons Hn; [|by eapply H2].
    rewrite Hn in Hx. lia.
  - destruct H3 as [H3|(e & Hin & He)].
    + rewrite H3. destruct (counted use_ppid x) as [c|] eqn:Hc;
        [|left; lia].
      destruct (decide (c <= c0)); [left; lia|]. right. exists x.
      split; [by left|]. rewrite Hc. f_equal. lia.
    + right. exists e. split; [by right|done].
Qed.

(** The order of the scan does not matter. *)
Lemma scan_perm use_ppid entries entries' c0 :
  entries ≡ₚ entries' ->
  foldl (scan_entry use_ppid) c0 entries
  = foldl (scan_entry use_ppid) c0 entries'.
Proof.
  intros Hp.
  destruct (scan_bounds use_ppid entries c0) as (H1 & H2 & H3).
  destruct (scan_bounds use_ppid entries' c0) as (H1' & H2' & H3').
  apply N.le_antisymm.
  - destruct H3 as [->|(e & Hin & He)]; [done|].
    eapply H2'; [|done]. by rewrite <- Hp.
  - destruct H3' as [->|(e & Hin & He)]; [done|].
    eapply H2; [|done]. by rewrite Hp.
Qed.

Lemma counted_without_ppid e n :
  counted true e = Some n -> counted false e = Some n.
Proof.
  unfold counted. destruct (state_dir_match (entry_name e)); [|done].
  destruct (entry_is_dir e); [|done]. simpl. by case_bool_decide.
Qed.

(** The directory [run_dir n], once it exists. *)
Definition created (n : N) (children : list string) : DirEntry :=
  {| entry_name := "run-" +:+ pretty n; entry_is_dir := true;
     entry_children := children |}.

Lemma counted_created use_ppid n children :
  use_ppid = false \/ ppid_filename ∈ children ->
  counted use_ppid (created n children) = Some n.
Proof.
  intros Hc. unfold counted, created. simpl.
  rewrite state_dir_match_pretty, int_pretty.
  destruct Hc as [->|Hin]; [done|].
  rewrite (bool_decide_eq_true_2 _ Hin). by rewrite orb_true_r.
Qed.

(** The counter after the scan once the directory that follows the
    largest counter is there. *)
Lemma scan_created use_ppid entries entries' children :
  use_ppid = false \/ ppid_filename ∈ children ->
  entries'
    ≡ₚ created (foldl (scan_entry false) 0 entries + 1) children :: entries ->
  foldl (scan_entry use_ppid) 0 entries'
  = foldl (scan_entry false) 0 entries + 1.
Proof.
  intros Hc Hp. rewrite (scan_perm _ _ _ _ Hp).
  set (c := foldl (scan_entry false) 0 entries).
  set (new := created (c + 1) children).
  destruct (scan_bounds false entries 0) as (_ & Hle & _). fold c in Hle.
  destruct (scan_bounds use_ppid (new :: entries) 0) as (_ & H2 & H3).
  pose proof (counted_created use_ppid (c + 1) children Hc) as Hnew.
  fold new in Hnew.
  assert (c + 1 <= foldl (scan_entry use_ppid) 0 (new :: entries)) as Hge.
  { eapply H2; [by left|done]. }
  destruct H3 as [H3|(e & [->|Hin]%elem_of_cons & He)]; [lia| |].
  - rewrite Hnew in He. by injection He.
  - assert (counted false e
            = Some (foldl (scan_entry use_ppid) 0 (new :: entries))) as He'.
    { destruct use_ppid; [by apply counted_without_ppid|done]. }
    specialize (Hle _ _ Hin He'). lia.
Qed.

(** X15. Without [use_ppid] the call returns [run-(n+1)], where [n] is the
    largest counter among the subdirectories that match the pattern, or
    0 when there is none or the parent directory is missing. No
    subdirectory has the returned name. *)
Theorem new_state_dir_is_unused (listing : option (list DirEntry)) :
  exists n,
    get_state_dir listing false = inr (run_dir (n + 1))
    /\ (forall entries e group,
          listing = Some entries -> e ∈ entries ->
          entry_is_dir e = true ->
          state_dir_match (entry_name e) = Some group ->
          int group <= n)
    /\ (n = 0
        \/ exists entries e group,
             listing = Some entries /\ e ∈ entries
             /\ entry_is_dir e = true
             /\ state_dir_match (entry_name e) = Some group
             /\ int group = n)
    /\ (forall entries e,
          listing = Some entries -> e ∈ entries ->
          entry_is_dir e = true ->
          entry_name e <> "run-" +:+ pretty (n + 1)).
Proof.
  destruct listing as [entries|].
  2:{ exists 0. split; [done|]. split; [done|]. split; [by left|done]. }
  exists (foldl (scan_entry false) 0 entries). split; [done|].
  destruct (scan_bounds false entries 0) as (_ & H2 & H3).
  assert (forall e group, e ∈ entries -> entry_is_dir e = true ->
            state_dir_match (entry_name e) = Some group ->
            int group <= foldl (scan_entry false) 0 entries) as Hle.
  { intros e group Hin Hd Hm. apply (H2 e); [done|].
    unfold counted. by rewrite Hm, Hd. }
  split; [|split].
  - intros ? e group [= <-]. by apply Hle.
  - destruct H3 as [H3|(e & Hin & He)]; [by left|right].
    exists entries, e. unfold counted in He.
    destruct (state_dir_match (entry_name e)) as [group|] eqn:Hm; [|done].
    destruct (entry_is_dir e) eqn:Hd; [|done]. simpl in He.
    exists group. by injection He.
  - intros ? e [= <-] Hin Hd Hname.
    specialize (Hle e (pretty (foldl (scan_entry false) 0 entries + 1))
                  Hin Hd).
    rewrite Hname, state_dir_match_pretty, int_pretty in Hle.
    specialize (Hle eq_refl). lia.
Qed.

(** X16. With [use_ppid] the call returns [run-c] exactly when [c] is the
    largest counter among the matching subdirectories that hold the ppid
    file, and [c] is not 0; in every other case it raises. *)
Theorem prev_state_dir_is_latest (listing : option (list DirEntry))
    (path : string) :
  get_state_dir listing true = inr path
  <-> exists entries e group,
        listing = Some entries /\ e ∈ entries
        /\ entry_is_dir e = true
        /\ state_dir_match (entry_name e) = Some group
        /\ ppid_filename ∈ entry_children e
        /\ 0 < int group
        /\ path = run_dir (int group)
        /\ forall e' group',
             e' ∈ entries -> entry_is_dir e' = true ->
             state_dir_match (entry_name e') = Some group' ->
             ppid_filename ∈ entry_children e' ->
             int group' <= int group.
Proof.
  destruct listing as [entries|]; simpl.
  2:{ split; [done|]. by intros (? & ? & ? & ? & _). }
  destruct (scan_bounds true entries 0) as (_ & H2 & H3).
  assert (forall e group, e ∈ entries -> entry_is_dir e = true ->
            state_dir_match (entry_name e) = Some group ->
            ppid_filename ∈ entry_children e ->
            counted true e = Some (int group)) as Hcount.
  { intros e group Hin Hd Hm Hp. unfold counted.
    by rewrite Hm, Hd, (bool_decide_eq_true_2 _ Hp). }
  split.
  - case_bool_decide as Hc; [|done]. intros [= <-].
    destruct H3 as [H3|(e & Hin & He)]; [done|].
    exists entries, e. unfold counted in He.
    destruct (state_dir_match (entry_name e)) as [group|] eqn:Hm; [|done].
    destruct (entry_is_dir e) eqn:Hd; [|done]. simpl in He.
    case_bool_decide as Hp; [|done]. injection He as He.
    exists group. rewrite He. repeat split; [done..|lia|].
    intros e' group' Hin' Hd' Hm' Hp'. eapply H2; [done|].
    by apply Hcount.
  - intros (? & e & group & [= <-] & Hin & Hd & Hm & Hp & Hpos & -> & Hmax).
    assert (foldl (scan_entry true) 0 entries = int group) as ->.
    { apply N.le_antisymm.
      - destruct H3 as [->|(e' & Hin' & He')]; [lia|].
        unfold counted in He'.
        destruct (state_dir_match (entry_name e')) as [group'|] eqn:Hm';
          [|done].
        destruct (entry_is_dir e') eqn:Hd'; [|done]. simpl in He'.
        case_bool_decide as Hp'; [|done]. injection He' as <-.
        exact (Hmax e' group' Hin' Hd' Hm' Hp').
      - eapply H2; [done|]. by apply Hcount. }
    rewrite bool_decide_eq_true_2; [done|lia].
Qed.

(** X17. Once the directory that a call without [use_ppid] returned
    exists, the next such call returns the directory with the next
    counter, whatever the order of the scan. *)
Theorem state_dirs_count_up (listing : option (list DirEntry)) :
  exists n,
    get_state_dir listing false = inr (run_dir n)
    /\ forall children entries',
         entries' ≡ₚ created n children :: default [] listing ->
         get_state_dir (Some entries') false = inr (run_dir (n + 1)).
Proof.
  exists (foldl (scan_entry false) 0 (default [] listing) + 1).
  split; [by destruct listing|].
  intros children entries' Hp. simpl.
  rewrite (scan_created false (default [] listing) entries' children);
    [done|by left|done].
Qed.

(** X18. Once the directory that a call without [use_ppid] returned exists
    and holds the ppid file, a call with [use_ppid] returns this
    directory, whatever else holds a ppid file. *)
Theorem prev_state_dir_finds_new_dir (listing : option (list DirEntry)) :
  exists n,
    get_state_dir listing false = inr (run_dir n)
    /\ forall children entries',
         ppid_filename ∈ children ->
         entries' ≡ₚ created n children :: default [] listing ->
         get_state_dir (Some entries') true = inr (run_dir n).
Proof.
  exists (foldl (scan_entry false) 0 (default [] listing) + 1).
  split; [by destruct listing|].
  intros children entries' Hin Hp. simpl.
  rewrite (scan_created true (default [] listing) entries' children);
    [|by right|done].
  rewrite bool_decide_eq_true_2; [done|lia].
Qed.

End GetStateDir.
End StateDir.


(** ** The placeholder issue, from [jira] to [report] *)

Section NoIssue.
Context {H : Type} `{Jira.Handler H} {R J : Type} `{Report.Services R J}.

(** C8, as the code has it. The reporter makes no comment call for an
    execute job whose issue is the placeholder [JIRA_NONE_ID], and no
    comment call of [cmd_report] ever names the placeholder. When the
    tracker holds no issue under the text of the placeholder, and finds
    and creates none, the run of [cmd_jira] for an artifact job saves a
    Jira job with the placeholder exactly when there is no issue
    configuration, no [--issue] and a job recipe. *)
Theorem no_issue_is_never_commented
    (clean : H -> Prop) (issue_config : option string) (recreate : bool)
    (issue job_recipe assignee : option string) (unassigned : bool)
    (artifact_job : ArtifactJob) (t : H) (c : list Jira.Call) :
  (forall (m : Report.Mappings) (execute_job : ExecuteJob)
          (w : Report.World R J),
     issue_id (execute_jira execute_job) = JIRA_NONE_ID ->
     let o := Report.report_key m (Report.record_id_of execute_job) w in
     Report.comments (Report.events (Report.outcome_world o))
     = Report.comments (Report.events w)
     /\ Report.jira (Report.outcome_world o) = Report.jira w
     /\ exists w', o = Report.Ok w')
  /\ (forall jira_url jira_token execute_jobs (w : Report.World R J)
             jira_id body visibility,
        Report.Comment jira_id body visibility
          ∈ Report.events
              (Report.outcome_world
                 (Report.cmd_report jira_url jira_token execute_jobs w)) ->
        Report.Comment jira_id body visibility ∈ Report.events w
        \/ jira_id <> JIRA_NONE_ID)
  /\ ((forall t action closed,
         clean t ->
         JIRA_NONE_ID
           ∉ (Jira.get_related_issues t artifact_job action closed).*1) ->
      (forall t action s d a p g,
         clean t ->
         issue_id (Jira.create_issue t artifact_job action s d a p g).1
         <> JIRA_NONE_ID
         /\ clean (Jira.create_issue t artifact_job action s d a p g).2) ->
      (forall t action i,
         clean t -> clean (Jira.refresh_issue t artifact_job action i)) ->
      (forall t old_issue obsoleted_by,
         clean t ->
         clean (Jira.drop_obsoleted_issue t artifact_job old_issue
                  obsoleted_by)) ->
      (forall t, clean t -> Jira.issue_exists t JIRA_NONE_ID = false) ->
      clean t ->
      exists rest,
        Jira.calls
          (Jira.run_state
             (Jira.cmd_jira_job issue_config recreate issue job_recipe
                assignee unassigned artifact_job t c))
        = c ++ rest
        /\ (Jira.saves_placeholder rest
            <-> PyStr.truthy issue_config = false
                /\ PyStr.truthy issue = false
                /\ PyStr.truthy job_recipe = true)).
Proof.
  split; [|split].
  - intros m execute_job w Hid.
    by apply Report.report_key_no_issue, Report.record_id_of_no_issue.
  - apply Report.cmd_report_comments.
  - intros Hsearch Hcreate Hrefresh Hdrop Hexists Hclean.
    by apply (Jira.cmd_jira_job_placeholder issue_config recreate issue
                job_recipe assignee unassigned clean artifact_job).
Qed.
End NoIssue.


(** ** Scenarios

    The properties above at concrete inputs, with collaborators kept in
    memory. *)

Module Scenario.
Import PyStr.

(** *** A tracker in memory *)

(** The issues of the tracker, by key, in the order of their creation. *)
Definition Tracker : Type := list (string * RawIssue).

Definition key_of (n : nat) : string := "NEWA-" +:+ pretty n.

Definition close_issue (key : string) (e : string * RawIssue)
    : string * RawIssue :=
  if bool_decide (e.1 = key)
  then (e.1, {| raw_description := raw_description e.2;
                raw_status := "closed" |})
  else e.

(** The text that links an issue to an action, for every respin. *)
Definition label (action : IssueAction) : string :=
  "::: NEWA " +:+ action_id action +:+ ":".

(** The identifier of the action for the artifact job at hand: the label
    followed by the event. *)
Definition token (artifact_job : ArtifactJob) (action : IssueAction) : string :=
  label action +:+ event_id (job_event artifact_job).

#[export] Instance memory : Jira.Handler Tracker := {|
  Jira.eval_test _ w := bool_decide (w = "True");
  Jira.render_template _ s := s;
  Jira.load_config _ :=
    {| config_project := "NEWA"; config_group := None; config_issues := [] |};
  Jira.newa_id := token;
  Jira.get_related_issues t _ action closed :=
    List.filter
      (fun e => contains (label action) (raw_description e.2)
                && (closed || bool_decide (raw_status e.2 = "opened"))) t;
  Jira.create_issue t artifact_job action _ description _ _ group :=
    ({| issue_id := key_of (length t); issue_group := group;
        issue_closed := false |},
     t ++ [(key_of (length t),
            {| raw_description :=
                 description +:+ " " +:+ token artifact_job action;
               raw_status := "opened" |})]);
  Jira.refresh_issue t _ _ _ := t;
  Jira.drop_obsoleted_issue t _ old_issue _ :=
    map (close_issue (issue_id old_issue)) t;
  Jira.issue_exists t issue := bool_decide (issue ∈ t.*1);
|}.

Definition compose_job : ArtifactJob :=
  {| job_event := {| event_type := COMPOSE; event_id := "RHEL-9.4.0" |};
     job_erratum := None;
     job_compose := Some {| compose_id := "RHEL-9.4.0" |} |}.

Definition root (on_respin : OnRespinAction) : IssueAction :=
  {| action_id := "root"; action_parent_id := None; action_when := None;
     action_summary := "Testing"; action_description := "Test the compose";
     action_assignee := None; action_newa_id := None;
     action_on_respin := on_respin; action_job_recipe := Some "recipe.yaml" |}.

Definition child : IssueAction :=
  {| action_id := "child"; action_parent_id := Some "root";
     action_when := None;
     action_summary := "Subtask"; action_description := "Run the tests";
     action_assignee := None; action_newa_id := None;
     action_on_respin := CLOSE; action_job_recipe := None |}.

(** An action whose parent is not among the actions. *)
Definition orphan : IssueAction :=
  {| action_id := "orphan"; action_parent_id := Some "nobody";
     action_when := None;
     action_summary := "Lost"; action_description := "No parent";
     action_assignee := None; action_newa_id := None;
     action_on_respin := KEEP; action_job_recipe := None |}.

Definition start_of (t : Tracker) (actions : list IssueAction)
    : Jira.State Tracker :=
  Jira.init_state t [] actions.

(** The child comes first: it is deferred once, then the root is
    created, then the child. *)
Example reconcile_child_first :
  exists st,
    Jira.reconcile false None false compose_job None 3
      (start_of [] [child; root KEEP]) = Jira.Finished st
    /\ Jira.created_action_ids st = ["root"; "child"]
    /\ Jira.deferrals "child" (Jira.calls st) = 1.
Proof. eexists. vm_compute. repeat split. Qed.

(** An orphan next to a root is deferred twice, at the queue lengths 1
    and 0, before the loop gives up: as often as there are actions. *)
Example reconcile_orphan :
  exists st,
    Jira.reconcile false None false compose_job None 4
      (start_of [] [orphan; root KEEP])
    = Jira.Failed (Jira.ParentNotFound "nobody" "orphan") st
    /\ Jira.deferrals "orphan" (Jira.calls st) = 2.
Proof. eexists. vm_compute. repeat split. Qed.

(** *** The reconciliation at concrete inputs *)

Lemma reconcile_terminates_witness :
  exists st',
    ((Jira.reconcile false None false compose_job None (Jira.enough 2 + 0)
        (start_of [] [child; root KEEP]) = Jira.Finished st'
      /\ Jira.issue_actions st' = []
      /\ forall a,
           a ∈ [child; root KEEP] -> Jira.irrelevant compose_job a = false ->
           Jira.handled false None false compose_job None
             (start_of [] [child; root KEEP]) st' a)
     \/ exists e,
          Jira.reconcile false None false compose_job None (Jira.enough 2 + 0)
            (start_of [] [child; root KEEP]) = Jira.Failed e st'
          /\ exists n st_n a_n rest,
               Jira.after false None false compose_job None n
                 (start_of [] [child; root KEEP]) = Some st_n
               /\ Jira.issue_actions st_n = a_n :: rest
               /\ Jira.process_action false None false compose_job None a_n
                    (Jira.set_queue rest st_n) = Jira.Raise e st')
    /\ forall id, Jira.deferrals id (Jira.calls st') <= Jira.deferrals id [] + 2.
Proof.
  exact (proj2 (proj2 (Jira.reconcile_terminates false None false compose_job
                         None ([] : Tracker) [] [child; root KEEP] 0))).
Defined.

(** The issue of the root for the current respin is there and closed.
    The root is not dropped and has no parent; the loop finishes, and
    the root was searched for and then neither created nor refreshed:
    no issue is recorded for it. *)
Lemma closed_issue_counterexample :
  Jira.irrelevant compose_job (root KEEP) = false
  /\ action_parent_id (root KEEP) = None
  /\ Jira.reconcile false None false compose_job None (Jira.enough 1)
       (start_of
          [("NEWA-0",
            {| raw_description := "Test the compose ::: NEWA root:RHEL-9.4.0";
               raw_status := "closed" |})]
          [root KEEP])
     = Jira.Finished
         {| Jira.tracker :=
              [("NEWA-0",
                {| raw_description :=
                     "Test the compose ::: NEWA root:RHEL-9.4.0";
                   raw_status := "closed" |})];
            Jira.calls := [Jira.Search (root KEEP) true];
            Jira.issue_actions := [];
            Jira.processed_actions := ∅;
            Jira.created_action_ids := [];
            Jira.endless_loop_check := ∅ |}.
Proof. repeat split. Qed.

(** The issue of the child from an earlier run, with the identifier of
    the child in its description. *)
Definition child_issue : string * RawIssue :=
  ("NEWA-1",
   {| raw_description := "Run the tests ::: NEWA child:RHEL-9.4.0";
      raw_status := "opened" |}).

(** The issue has the identifier of the action in its description, and
    it is old all the same: the issue of the parent was created in this
    run. *)
Lemma classify_new_counterexample :
  contains (Jira.newa_id compose_job child) (raw_description child_issue.2)
  = true
  /\ Jira.classify compose_job None child ["root"] [child_issue] [] []
     = ([], [{| issue_id := "NEWA-1"; issue_group := None;
                issue_closed := false |}]).
Proof. split; reflexivity. Qed.

(** The whole run: the tracker has the issue of the child, and of the
    root only a closed issue of the previous respin. The root is
    created; the issue of the child is then old, so it is closed and
    the child gets a new issue under the new root. *)
Example reconcile_recreated_parent :
  exists st,
    Jira.reconcile false None false compose_job None 2
      (start_of
         [("NEWA-0",
           {| raw_description := "Test the compose ::: NEWA root:RHEL-9.3.0";
              raw_status := "closed" |});
          child_issue]
         [root CLOSE; child]) = Jira.Finished st
    /\ Jira.created_action_ids st = ["root"; "child"]
    /\ map (fun e => (e.1, raw_status e.2)) (Jira.tracker st)
       = [("NEWA-0", "closed"); ("NEWA-1", "closed"); ("NEWA-2", "opened");
          ("NEWA-3", "opened")].
Proof. eexists. vm_compute. repeat split. Qed.

Lemma classify_new_and_old_witness :
  Jira.classify compose_job None child [] [child_issue] [] []
  = ([{| issue_id := "NEWA-1"; issue_group := None; issue_closed := false |}],
     []).
Proof.
  exact (proj2 (Jira.classify_new_and_old false None false compose_job None
                  child (start_of [] []) [] [child_issue])).
Defined.

Definition root_issue : Issue :=
  {| issue_id := "NEWA-0"; issue_group := None; issue_closed := false |}.

(** The root is resolved, the child is next. *)
Definition root_resolved : Jira.State Tracker :=
  {| Jira.tracker :=
       [("NEWA-0",
         {| raw_description := "Test the compose ::: NEWA root:RHEL-9.4.0";
            raw_status := "opened" |})];
     Jira.calls := [];
     Jira.issue_actions := [];
     Jira.processed_actions := {["root" := root_issue]};
     Jira.created_action_ids := ["root"];
     Jira.endless_loop_check := ∅ |}.

Lemma resolve_to_one_issue_witness :
  Jira.parent_missing child (Jira.processed_actions root_resolved) = false
  /\ exists st',
       Jira.resolve None false compose_job None "Subtask" "Run the tests"
         child [] root_resolved
       = Jira.Ok {| issue_id := "NEWA-1"; issue_group := None;
                    issue_closed := false |} st'
       /\ Jira.calls st'
          = [Jira.Create child "Subtask" "Run the tests" None
               (Some root_issue) None]
       /\ Jira.created_action_ids st' = ["root"; "child"].
Proof.
  split; [reflexivity|].
  destruct (Jira.resolve_to_one_issue false None false compose_job None
              "Subtask" "Run the tests" child [] root_resolved eq_refl)
    as [_ [_ (st' & Hr & _ & Hc & _ & Hcr)]].
  exists st'. split; [exact Hr|]. split; [exact Hc|exact Hcr].
Defined.

(** An opened issue of the root from a previous respin. *)
Definition respin : Jira.State Tracker :=
  start_of
    [("NEWA-0",
      {| raw_description := "Test the compose ::: NEWA root:RHEL-9.3.0";
         raw_status := "opened" |})]
    [].

Lemma keep_reuse_is_idempotent_witness :
  action_on_respin (root KEEP) = KEEP
  /\ Jira.classify compose_job None (root KEEP)
       (Jira.created_action_ids respin)
       (Jira.get_related_issues (Jira.tracker respin) compose_job (root KEEP)
          (negb false)) [] []
     = ([], [root_issue])
  /\ Jira.opened_issues None
       (Jira.get_related_issues (Jira.tracker respin) compose_job (root KEEP)
          (negb false))
     = [root_issue]
  /\ Jira.reuse_old (root KEEP) [] [root_issue] = ([] ++ [root_issue], [])
  /\ exists st1',
       Jira.reconcile_action false None false compose_job None (root KEEP)
         respin = Jira.Ok () st1'
       /\ Jira.processed_actions st1' !! "root" = Some root_issue
       /\ Jira.created_action_ids st1' = []
       /\ exists st2',
            Jira.reconcile_action false None false compose_job None (root KEEP)
              st1' = Jira.Ok () st2'
            /\ Jira.processed_actions st2' !! "root" = Some root_issue
            /\ Jira.created_action_ids st2' = [].
Proof.
  assert (Jira.classify compose_job None (root KEEP)
            (Jira.created_action_ids respin)
            (Jira.get_related_issues (Jira.tracker respin) compose_job
               (root KEEP) (negb false)) [] []
          = ([], [root_issue])) as Hclassify by reflexivity.
  assert (Jira.statuses_known false
            (Jira.get_related_issues (Jira.tracker respin) compose_job
               (root KEEP) (negb false))) as Hknown.
  { constructor; [left; reflexivity|constructor]. }
  split; [reflexivity|]. split; [exact Hclassify|]. split; [reflexivity|].
  destruct (Jira.keep_reuse_is_idempotent false None false compose_job None
              (root KEEP) respin [] [root_issue] eq_refl Hknown Hclassify
              ltac:(discriminate)) as (Hreuse & _ & Hrun).
  split; [exact Hreuse|].
  destruct (Hrun respin eq_refl eq_refl) as [Hfirst _].
  destruct (Hfirst root_issue eq_refl) as (st1' & Hr1 & Hst1 & Hp1 & Hc1 & _).
  exists st1'. split; [exact Hr1|]. split; [exact Hp1|]. split; [exact Hc1|].
  assert (Jira.statuses
            (Jira.get_related_issues (Jira.tracker st1') compose_job
               (root KEEP) (negb false))
          = Jira.statuses
              (Jira.get_related_issues (Jira.tracker respin) compose_job
                 (root KEEP) (negb false))) as Hsame
    by (rewrite Hst1; reflexivity).
  destruct (Hrun st1' Hsame eq_refl) as [Hsecond _].
  destruct (Hsecond root_issue eq_refl) as (st2' & Hr2 & _ & Hp2 & Hc2 & _).
  exists st2'. split; [exact Hr2|]. split; [exact Hp2|].
  rewrite Hc2. exact Hc1.
Defined.

(** Two opened issues of the root from earlier respins: with KEEP both
    are reused, and the action is not resolved but raises. *)
Definition two_respins : Jira.State Tracker :=
  start_of
    [("NEWA-0",
      {| raw_description := "Test the compose ::: NEWA root:RHEL-9.2.0";
         raw_status := "opened" |});
     ("NEWA-1",
      {| raw_description := "Test the compose ::: NEWA root:RHEL-9.3.0";
         raw_status := "opened" |})]
    [].

Lemma several_reusable_counterexample :
  action_on_respin (root KEEP) = KEEP
  /\ Jira.classify compose_job None (root KEEP)
       (Jira.created_action_ids two_respins)
       (Jira.get_related_issues (Jira.tracker two_respins) compose_job
          (root KEEP) (negb false)) [] []
     = ([], [root_issue; mk_issue "NEWA-1"])
  /\ Jira.reuse_old (root KEEP) [] [root_issue; mk_issue "NEWA-1"]
     = ([root_issue; mk_issue "NEWA-1"], [])
  /\ Jira.reconcile_action false None false compose_job None (root KEEP)
       two_respins
     = Jira.Raise
         (Jira.MoreThanOneNew "root" [root_issue; mk_issue "NEWA-1"])
         (Jira.record_call (Jira.Search (root KEEP) true) two_respins).
Proof. repeat split. Qed.

(** The child was resolved to a new issue; its issue from the previous
    respin is still opened. *)
Definition child_resolved : Jira.State Tracker :=
  {| Jira.tracker :=
       [("NEWA-0",
         {| raw_description := "Test the compose ::: NEWA root:RHEL-9.4.0";
            raw_status := "opened" |});
        child_issue;
        ("NEWA-2",
         {| raw_description := "Run the tests ::: NEWA child:RHEL-9.4.0";
            raw_status := "opened" |})];
     Jira.calls := [];
     Jira.issue_actions := [];
     Jira.processed_actions :=
       {["child" := {| issue_id := "NEWA-2"; issue_group := None;
                       issue_closed := false |}]};
     Jira.created_action_ids := ["root"; "child"];
     Jira.endless_loop_check := ∅ |}.

Lemma close_old_issues_on_respin_witness :
  [Jira.old_issue_of None child_issue] <> []
  /\ action_on_respin child = CLOSE
  /\ exists st',
       Jira.close_old_issues compose_job child
         [Jira.old_issue_of None child_issue] child_resolved
       = Jira.Ok () st'
       /\ Jira.calls st'
          = [Jira.Drop (Jira.old_issue_of None child_issue)
               {| issue_id := "NEWA-2"; issue_group := None;
                  issue_closed := false |}]
       /\ map (fun e => raw_status e.2) (Jira.tracker st')
          = ["opened"; "closed"; "opened"].
Proof.
  split; [discriminate|]. split; [reflexivity|].
  destruct (Jira.close_old_issues_on_respin None false compose_job None child
              [Jira.old_issue_of None child_issue] child_resolved
              ltac:(discriminate)) as (_ & Hclose & _).
  destruct (Hclose eq_refl _ eq_refl) as (st' & Hr & Hc & Ht).
  exists st'. split; [exact Hr|]. split; [exact Hc|]. by rewrite Ht.
Defined.

(** *** A Testing Farm in memory *)

(** The farm counts the polls; a request is complete at the third. *)
#[export] Instance farm_of_polls : Execute.TestingFarm nat := {|
  Execute.initiate_tf_request polls _ request :=
    (("https://api.testing-farm.example/v0.1",
      "uuid-" +:+ request_id request), polls);
  Execute.generate_tf_exec_command ctx request :=
    ["testing-farm"; "request"; "--plan"; request_id request; "-e";
     "RP_TOKEN=" +:+ Execute.rp_token ctx];
  Execute.get_hash request timestamp := request_id request +:+ "@" +:+ timestamp;
  Execute.fetch_details polls _ _ :=
    (Some {| details_state := if bool_decide (polls < 2) then "running"
                              else "complete";
             details_environments_requested := [("RHEL-9.4.0", "x86_64")];
             details_result_overall := "passed";
             details_run_artifacts := Some "https://artifacts.example/1" |},
     S polls);
  Execute.job_file_suffix job := request_id (execute_request job) +:+ ".yaml";
|}.

Definition request_1 : Request :=
  {| request_id := "REQ-1";
     request_reportportal :=
       {| launch_name := Some "recipe"; launch_description := None |} |}.

Definition schedule_1 : ScheduleJob :=
  {| schedule_event := job_event compose_job;
     schedule_erratum := None;
     schedule_compose := job_compose compose_job;
     schedule_jira := mk_issue "NEWA-1";
     schedule_recipe := {| recipe_url := "recipe.yaml" |};
     schedule_request := request_1 |}.

Definition context_of (continue : bool) (token : string) : Execute.Context :=
  {| Execute.continue_execution := continue;
     Execute.timestamp := "1730000000.0";
     Execute.rp_token := token;
     Execute.tf_recheck_delay := 60 |}.

Definition empty_dir : Execute.World nat :=
  {| Execute.farm := 0; Execute.files := ∅; Execute.events := [] |}.

(** A new request: submitted, saved, polled three times, saved again. *)
Example worker_new_request :
  exists w,
    Execute.worker (context_of false "s3cr3t") 5 "schedule-REQ-1.yaml"
      schedule_1 empty_dir = Execute.Done w
    /\ map (fun e => match e with
                     | Execute.Submit _ => "submit"
                     | Execute.Save _ _ => "save"
                     | Execute.Sleep _ => "sleep"
                     | Execute.Fetch _ => "fetch"
                     end) (Execute.events w)
       = ["submit"; "save"; "sleep"; "fetch"; "sleep"; "fetch"; "sleep";
          "fetch"; "save"]
    /\ (command ∘ execute_execution <$> Execute.files w !! "execute-REQ-1.yaml")
       = Some "testing-farm request --plan REQ-1 -e RP_TOKEN=***".
Proof. eexists. vm_compute. repeat split. Qed.

(** The execute job that the run above saved first. *)
Definition submitted_1 : ExecuteJob :=
  Execute.started_job
    (Execute.start (context_of false "s3cr3t") "schedule-REQ-1.yaml"
       schedule_1 empty_dir).

Definition interrupted_dir : Execute.World nat :=
  {| Execute.farm := 1;
     Execute.files := {["execute-REQ-1.yaml" := submitted_1]};
     Execute.events := [] |}.

Lemma worker_resumes_or_submits_witness :
  Execute.continue_execution (context_of true "s3cr3t") = true
  /\ Execute.files interrupted_dir
       !! replace_first "schedule-" "execute-" "schedule-REQ-1.yaml"
     = Some submitted_1
  /\ Execute.submissions
       (Execute.events
          (Execute.result_world
             (Execute.worker (context_of true "s3cr3t") (S 4)
                "schedule-REQ-1.yaml" schedule_1 interrupted_dir)))
     = Execute.submissions (Execute.events interrupted_dir)
  /\ exists rest,
       Execute.events
         (Execute.result_world
            (Execute.worker (context_of true "s3cr3t") (S 4)
               "schedule-REQ-1.yaml" schedule_1 interrupted_dir))
       = Execute.events interrupted_dir
         ++ Execute.Fetch (request_uuid (execute_execution submitted_1)) :: rest.
Proof.
  split; [reflexivity|]. split; [reflexivity|].
  destruct (proj1 (Execute.worker_resumes_or_submits (context_of true "s3cr3t")
                     4 "schedule-REQ-1.yaml" schedule_1 interrupted_dir)
              submitted_1 eq_refl eq_refl)
    as (_ & _ & _ & _ & Hsub & Hrest).
  split; [exact Hsub|exact Hrest].
Defined.

(** A token that is a star stays in the command: each star of the
    command becomes three. *)
Lemma hidden_token_counterexample :
  command
    (execute_execution
       (Execute.started_job
          (Execute.start (context_of false "*") "schedule-REQ-1.yaml"
             schedule_1 empty_dir)))
  = "testing-farm request --plan REQ-1 -e RP_TOKEN=***"
  /\ contains "*"
       (command
          (execute_execution
             (Execute.started_job
                (Execute.start (context_of false "*") "schedule-REQ-1.yaml"
                   schedule_1 empty_dir))))
     = true.
Proof. split; reflexivity. Qed.

Lemma new_execution_hides_token_witness :
  Execute.previous_job (context_of false "s3cr3t") "schedule-REQ-1.yaml"
    empty_dir = None
  /\ Execute.rp_token (context_of false "s3cr3t") <> ""
  /\ lacks "*" (Execute.rp_token (context_of false "s3cr3t")) = true
  /\ forall file job,
       Execute.Save file job
         ∈ Execute.events
             (Execute.result_world
                (Execute.worker (context_of false "s3cr3t") 5
                   "schedule-REQ-1.yaml" schedule_1 empty_dir)) ->
       Execute.Save file job ∈ Execute.events empty_dir
       \/ contains "s3cr3t" (command (execute_execution job)) = false.
Proof.
  split; [reflexivity|]. split; [discriminate|]. split; [reflexivity|].
  exact (proj2 (Execute.new_execution_hides_token (context_of false "s3cr3t")
                  5 "schedule-REQ-1.yaml" schedule_1 empty_dir eq_refl)
           ltac:(discriminate) eq_refl).
Defined.

(** *** ReportPortal and Jira in memory *)

(** The portal says whether its merges succeed; the Jira connection is
    the list of the issues that refuse a comment. A batch has one
    launch, named after it, except the batches whose name starts with
    [none]. *)
#[export] Instance services :
    Report.Services bool (list string) := {|
  Report.short_id job := event_id (execute_event job);
  Report.find_launches_by_attr (_ : bool) _ batch :=
    if is_prefix "none" batch then [] else ["launch-" +:+ batch];
  Report.merge_launches (merges : bool) _ _ _ :=
    (if merges then Some "launch-merged" else None, merges);
  Report.get_launch_url launch := "https://rp.example/launches/" +:+ launch;
  Report.add_comment (refusing : list string) jira_id _ _ :=
    if bool_decide (jira_id ∈ refusing) then None else Some refusing;
|}.

Definition executed (issue request batch : string) : ExecuteJob :=
  {| execute_event := job_event compose_job;
     execute_erratum := None;
     execute_compose := job_compose compose_job;
     execute_jira := mk_issue issue;
     execute_recipe := {| recipe_url := "recipe.yaml" |};
     execute_request :=
       {| request_id := request;
          request_reportportal :=
            {| launch_name := Some "recipe"; launch_description := None |} |};
     execute_execution :=
       {| request_uuid := "uuid-" +:+ request;
          request_api := "https://api.testing-farm.example/v0.1";
          batch_id := batch;
          command := "testing-farm request";
          artifacts_url := Some "https://artifacts.example/1";
          return_code := Some 0%Z |} |}.

Definition world_of (merges : bool) (refusing : list string)
    : Report.World bool (list string) :=
  {| Report.portal := merges; Report.jira := refusing; Report.events := [] |}.

(** Three requests of one issue, one of them without a launch: two
    lines COMPLETED, one MISSING, and the merged launch in the
    comment. *)
Example report_three_requests :
  Report.events
    (Report.outcome_world
       (Report.cmd_report "https://jira.example" "token"
          [executed "NEWA-1" "REQ-1" "b1"; executed "NEWA-1" "REQ-2" "none2";
           executed "NEWA-1" "REQ-3" "b3"]
          (world_of true [])))
  = [Report.Merge ["launch-b1"; "launch-b3"] "recipe"
       "NEWA-1: 3 requests in total<br>  REQ-1: COMPLETED<br>  REQ-2: MISSING<br>  REQ-3: COMPLETED<br>";
     Report.Comment "NEWA-1"
       (Report.comment_body ["https://rp.example/launches/launch-merged"]
          "NEWA-1: 3 requests in total<br>  REQ-1: COMPLETED<br>  REQ-2: MISSING<br>  REQ-3: COMPLETED<br>")
       None].
Proof. reflexivity. Qed.

Definition two_launches : list ExecuteJob :=
  [executed "NEWA-1" "REQ-1" "b1"; executed "NEWA-1" "REQ-2" "b2"].

(** Two launches and a merge that fails: the comment is made all the
    same, with the two launches unmerged. *)
Lemma unmerged_comment_counterexample :
  Report.cmd_report "https://jira.example" "token" two_launches
    (world_of false [])
  = Report.Ok
      {| Report.portal := false; Report.jira := [];
         Report.events :=
           [Report.Merge ["launch-b1"; "launch-b2"] "recipe"
              "NEWA-1: 2 requests in total<br>  REQ-1: COMPLETED<br>  REQ-2: COMPLETED<br>";
            Report.LogError "Failed to merge ReportPortal launches";
            Report.Comment "NEWA-1"
              (Report.comment_body
                 ["https://rp.example/launches/launch-b1";
                  "https://rp.example/launches/launch-b2"]
                 "NEWA-1: 2 requests in total<br>  REQ-1: COMPLETED<br>  REQ-2: COMPLETED<br>")
              None] |}.
Proof. reflexivity. Qed.

Definition mappings_of (jobs : list ExecuteJob) : Report.Mappings :=
  foldl (fun m job => Report.collect true job m) Report.no_mappings jobs.

Lemma report_key_aggregates_witness :
  Report.events
    (Report.outcome_world
       (Report.report_key (mappings_of two_launches) "RHEL-9.4.0%NEWA-1"
          (world_of true [])))
  = [Report.Merge ["launch-b1"; "launch-b2"] "recipe"
       "NEWA-1: 2 requests in total<br>  REQ-1: COMPLETED<br>  REQ-2: COMPLETED<br>";
     Report.Comment "NEWA-1"
       (Report.comment_body ["https://rp.example/launches/launch-merged"]
          "NEWA-1: 2 requests in total<br>  REQ-1: COMPLETED<br>  REQ-2: COMPLETED<br>")
       None].
Proof.
  exact (proj2 (proj2 (proj2 (proj2 (proj2
    (Report.report_key_aggregates (mappings_of two_launches)
       "RHEL-9.4.0%NEWA-1" (world_of true []))))))).
Defined.

Definition two_issues : list ExecuteJob :=
  [executed "NEWA-1" "REQ-1" "b1"; executed "NEWA-2" "REQ-1" "b2"].

(** The comment to the first issue fails: the command raises, and the
    second issue gets no comment. *)
Lemma comment_failure_counterexample :
  Report.cmd_report "https://jira.example" "token" two_issues
    (world_of true ["NEWA-1"])
  = Report.Raise (Report.UnableToComment "NEWA-1")
      {| Report.portal := true; Report.jira := ["NEWA-1"];
         Report.events :=
           [Report.Comment "NEWA-1"
              (Report.comment_body ["https://rp.example/launches/launch-b1"]
                 "NEWA-1: 1 requests in total<br>  REQ-1: COMPLETED<br>")
              None] |}
  /\ exists w,
       Report.cmd_report "https://jira.example" "token" two_issues
         (world_of true []) = Report.Ok w
       /\ Report.is_comment <$> Report.events w = [true; true].
Proof. split; [reflexivity|]. eexists. split; reflexivity. Qed.

Lemma comment_failure_ends_report_witness :
  Report.report_keys (mappings_of two_issues) [] (world_of true ["NEWA-1"])
  = Report.Ok (world_of true ["NEWA-1"])
  /\ Report.report_key (mappings_of two_issues) "RHEL-9.4.0%NEWA-1"
       (world_of true ["NEWA-1"])
     = Report.Raise (Report.UnableToComment "NEWA-1")
         (Report.outcome_world
            (Report.report_key (mappings_of two_issues) "RHEL-9.4.0%NEWA-1"
               (world_of true ["NEWA-1"])))
  /\ Report.report_keys (mappings_of two_issues)
       ([] ++ "RHEL-9.4.0%NEWA-1" :: ["RHEL-9.4.0%NEWA-2"])
       (world_of true ["NEWA-1"])
     = Report.Raise (Report.UnableToComment "NEWA-1")
         (Report.outcome_world
            (Report.report_key (mappings_of two_issues) "RHEL-9.4.0%NEWA-1"
               (world_of true ["NEWA-1"]))).
Proof.
  assert (Report.report_key (mappings_of two_issues) "RHEL-9.4.0%NEWA-1"
            (world_of true ["NEWA-1"])
          = Report.Raise (Report.UnableToComment "NEWA-1")
              (Report.outcome_world
                 (Report.report_key (mappings_of two_issues)
                    "RHEL-9.4.0%NEWA-1" (world_of true ["NEWA-1"]))))
    as Hraise by reflexivity.
  split; [reflexivity|]. split; [exact Hraise|].
  exact (proj2 (proj2
    (Report.comment_failure_ends_report (mappings_of two_issues) []
       ["RHEL-9.4.0%NEWA-2"] "RHEL-9.4.0%NEWA-1" (world_of true ["NEWA-1"])
       (world_of true ["NEWA-1"]) _ _ eq_refl Hraise))).
Defined.

(** *** The placeholder issue *)

(** Without an issue configuration, without [--issue] and without a job
    recipe the command fails: no Jira job is made and the placeholder
    is not assigned. And when the tracker holds an issue under the text
    of the placeholder, [--issue] with this text passes the lookup and
    the Jira job gets the placeholder although [--issue] is given. *)
Lemma no_job_recipe_counterexample :
  truthy None = false
  /\ Jira.cmd_jira_job None false None None None false compose_job
       ([] : Tracker) []
     = Jira.Failed Jira.JobRecipeMandatory (Jira.init_state [] [] [])
  /\ Jira.cmd_jira_job None false (Some JIRA_NONE_ID) (Some "recipe.yaml")
       None false compose_job
       [(JIRA_NONE_ID,
         {| raw_description := "An issue"; raw_status := "opened" |})] []
     = Jira.Finished
         (Jira.init_state
            [(JIRA_NONE_ID,
              {| raw_description := "An issue"; raw_status := "opened" |})]
            [Jira.SaveJiraJob
               {| jira_job_event := job_event compose_job;
                  jira_job_erratum := None;
                  jira_job_compose := job_compose compose_job;
                  jira_job_jira := mk_issue JIRA_NONE_ID;
                  jira_job_recipe := {| recipe_url := "recipe.yaml" |} |}]
            []).
Proof. repeat split. Qed.

(** The tracker in memory holds no issue under the text of the
    placeholder; its operations keep it so. *)
Definition no_placeholder (t : Tracker) : Prop := JIRA_NONE_ID ∉ t.*1.

Lemma key_of_real n : key_of n <> JIRA_NONE_ID.
Proof.
  unfold key_of, JIRA_NONE_ID. intros Heq.
  change ("NEWA-" +:+ pretty n) with (String "N" ("EWA-" +:+ pretty n)) in Heq.
  discriminate.
Qed.

Lemma memory_search (t : Tracker) artifact_job action closed :
  no_placeholder t ->
  JIRA_NONE_ID ∉ (Jira.get_related_issues t artifact_job action closed).*1.
Proof.
  intros Hn Hin. apply Hn. simpl in Hin.
  apply list_elem_of_fmap in Hin as (e & -> & He).
  apply list_elem_of_fmap. exists e. split; [done|].
  apply list_elem_of_In, filter_In in He as [He _]. by apply list_elem_of_In.
Qed.

Lemma memory_create (t : Tracker) artifact_job action s d a p g :
  no_placeholder t ->
  issue_id (Jira.create_issue t artifact_job action s d a p g).1
  <> JIRA_NONE_ID
  /\ no_placeholder (Jira.create_issue t artifact_job action s d a p g).2.
Proof.
  intros Hn. simpl. split; [apply key_of_real|].
  unfold no_placeholder. rewrite fmap_app. simpl.
  intros [Hin|Hin]%elem_of_app; [done|].
  apply list_elem_of_singleton in Hin. symmetry in Hin.
  by apply key_of_real in Hin.
Qed.

Lemma memory_drop (t : Tracker) artifact_job old_issue obsoleted_by :
  no_placeholder t ->
  no_placeholder
    (Jira.drop_obsoleted_issue t artifact_job old_issue obsoleted_by).
Proof.
  assert ((map (close_issue (issue_id old_issue)) t).*1 = t.*1) as Hkeys.
  { induction t as [|e t IH]; [done|]. cbn [map].
    rewrite !fmap_cons, IH. f_equal.
    unfold close_issue. by destruct (bool_decide _). }
  unfold no_placeholder.
  change (Jira.drop_obsoleted_issue t artifact_job old_issue obsoleted_by)
    with (map (close_issue (issue_id old_issue)) t).
  by rewrite Hkeys.
Qed.

Lemma memory_exists (t : Tracker) :
  no_placeholder t -> Jira.issue_exists t JIRA_NONE_ID = false.
Proof. intros Hn. simpl. by apply bool_decide_eq_false_2. Qed.

Lemma no_issue_is_never_commented_witness :
  (exists rest,
     Jira.calls
       (Jira.run_state
          (Jira.cmd_jira_job None false None (Some "recipe.yaml") None false
             compose_job ([] : Tracker) []))
     = [] ++ rest
     /\ (Jira.saves_placeholder rest
         <-> truthy (None : option string) = false
             /\ truthy (None : option string) = false
             /\ truthy (Some "recipe.yaml") = true))
  /\ Report.comments
       (Report.events
          (Report.outcome_world
             (Report.report_key
                (mappings_of [executed JIRA_NONE_ID "REQ-1" "b1"])
                (Report.record_id_of (executed JIRA_NONE_ID "REQ-1" "b1"))
                (world_of true []))))
     = Report.comments (Report.events (world_of true [])).
Proof.
  destruct (no_issue_is_never_commented (R := bool) (J := list string)
              no_placeholder None false None (Some "recipe.yaml") None false
              compose_job ([] : Tracker) [])
    as (Hkey & _ & Hjira).
  split.
  - apply Hjira.
    + intros t action closed. apply memory_search.
    + intros t action s d a p g. apply memory_create.
    + intros t action i Hn. exact Hn.
    + intros t old_issue obsoleted_by. apply memory_drop.
    + apply memory_exists.
    + intros Hin. by apply elem_of_nil in Hin.
  - apply (Hkey (mappings_of [executed JIRA_NONE_ID "REQ-1" "b1"])
             (executed JIRA_NONE_ID "REQ-1" "b1") (world_of true []) eq_refl).
Defined.

(** *** Whole runs of the reconciliation *)

Lemma finished_resolves_parents_witness :
  is_Some
    (Jira.processed_actions
       (Jira.run_state
          (Jira.reconcile false None false compose_job None 3
             (Jira.init_state ([] : Tracker) [] [child; root KEEP])))
     !! "root")
  /\ exists b,
       b ∈ [child; root KEEP] /\ action_id b = "root"
       /\ Jira.irrelevant compose_job b = false.
Proof.
  assert (Jira.reconcile false None false compose_job None 3
            (Jira.init_state ([] : Tracker) [] [child; root KEEP])
          = Jira.Finished
              (Jira.run_state
                 (Jira.reconcile false None false compose_job None 3
                    (Jira.init_state ([] : Tracker) [] [child; root KEEP]))))
    as Hrun by (vm_compute; reflexivity).
  exact (Jira.finished_resolves_parents false None false compose_job None 3
           [] [] [child; root KEEP] _ child "root" Hrun
           (list_elem_of_here child [root KEEP]) eq_refl eq_refl
           ltac:(discriminate)).
Defined.

Lemma unresolved_parent_is_fatal_witness :
  exists e st',
    Jira.reconcile false None false compose_job None (Jira.enough 2 + 0)
      (Jira.init_state ([] : Tracker) [] [orphan; root KEEP])
    = Jira.Failed e st'.
Proof.
  apply (Jira.unresolved_parent_is_fatal false None false compose_job None
           [] [] [orphan; root KEEP] 0 orphan "nobody").
  - apply list_elem_of_here.
  - reflexivity.
  - reflexivity.
  - discriminate.
  - intros b Hb Hid. apply elem_of_cons in Hb as [->|Hb]; [discriminate|].
    apply list_elem_of_singleton in Hb as ->. discriminate.
Defined.

Lemma one_job_per_artifact_job_witness :
  Jira.tracker
    (Jira.run_state
       (Jira.cmd_jira None false None (Some "recipe.yaml") None false
          "https://jira.example" "token" [compose_job] ([] : Tracker)))
  = []
  /\ Jira.calls
       (Jira.run_state
          (Jira.cmd_jira None false None (Some "recipe.yaml") None false
             "https://jira.example" "token" [compose_job] ([] : Tracker)))
     = [Jira.SaveJiraJob
          {| jira_job_event := job_event compose_job;
             jira_job_erratum := None;
             jira_job_compose := job_compose compose_job;
             jira_job_jira := mk_issue JIRA_NONE_ID;
             jira_job_recipe := {| recipe_url := "recipe.yaml" |} |}].
Proof.
  exact (Jira.one_job_per_artifact_job None false None (Some "recipe.yaml")
           None false "https://jira.example" "token" [compose_job]
           ([] : Tracker) _ eq_refl eq_refl).
Defined.

(** *** Whole runs of the worker *)

Lemma worker_done_completes_witness :
  exists details,
    (details_state details = "complete" \/ details_state details = "error")
    /\ Execute.files
         (Execute.result_world
            (Execute.worker (context_of false "s3cr3t") 5
               "schedule-REQ-1.yaml" schedule_1 empty_dir))
       !! "execute-REQ-1.yaml"
       = Some (Execute.complete submitted_1 details).
Proof.
  assert (Execute.worker (context_of false "s3cr3t") 5 "schedule-REQ-1.yaml"
            schedule_1 empty_dir
          = Execute.Done
              (Execute.result_world
                 (Execute.worker (context_of false "s3cr3t") 5
                    "schedule-REQ-1.yaml" schedule_1 empty_dir)))
    as Hrun by (vm_compute; reflexivity).
  destruct (Execute.worker_done_completes (context_of false "s3cr3t") 5
              "schedule-REQ-1.yaml" schedule_1 empty_dir _ Hrun)
    as (details & f & _ & Hstate & _ & Hfile & _).
  exists details. split; [exact Hstate|exact Hfile].
Defined.

(** The execute file of another request is in the directory. *)
Definition shared_dir : Execute.World nat :=
  {| Execute.farm := 0;
     Execute.files := {["execute-REQ-2.yaml" := submitted_1]};
     Execute.events := [] |}.

Lemma worker_keeps_other_files_witness :
  Execute.files
    (Execute.result_world
       (Execute.worker (context_of false "s3cr3t") 5 "schedule-REQ-1.yaml"
          schedule_1 shared_dir))
  !! "execute-REQ-2.yaml"
  = Some submitted_1.
Proof.
  apply (Execute.worker_keeps_other_files (context_of false "s3cr3t") 5
           "schedule-REQ-1.yaml" schedule_1 shared_dir "execute-REQ-2.yaml").
  - discriminate.
  - intros details. discriminate.
Defined.

(** *** The dictionaries of the report *)

Lemma launch_of_first_job_witness :
  Report.dict_get
    (Report.jira_launch_mapping
       (Report.collected true
          ([executed "NEWA-2" "REQ-1" "b0"]
           ++ executed "NEWA-1" "REQ-1" "b1"
              :: [executed "NEWA-1" "REQ-2" "b2"])))
    "RHEL-9.4.0%NEWA-1"
  = Some {| launch_name := Some "recipe"; launch_description := None |}.
Proof.
  assert (forall job', job' ∈ [executed "NEWA-2" "REQ-1" "b0"] ->
            Report.record_id_of job'
            <> Report.record_id_of (executed "NEWA-1" "REQ-1" "b1")) as Hfirst.
  { intros job' Hin. apply list_elem_of_singleton in Hin as ->. discriminate. }
  exact (Report.launch_of_first_job true [executed "NEWA-2" "REQ-1" "b0"]
           [executed "NEWA-1" "REQ-2" "b2"] (executed "NEWA-1" "REQ-1" "b1")
           Hfirst).
Defined.

(** A request that was executed twice: the launches of the second
    execution are listed. *)
Lemma launches_of_last_job_witness :
  Report.found
    (default []
       (Report.dict_get
          (Report.jira_request_mapping
             (Report.collected true
                ([executed "NEWA-1" "REQ-1" "b0"]
                 ++ executed "NEWA-1" "REQ-1" "b1"
                    :: [executed "NEWA-1" "REQ-2" "b2"])))
          "RHEL-9.4.0%NEWA-1"))
    "REQ-1"
  = ["launch-b1"].
Proof.
  assert (forall job', job' ∈ [executed "NEWA-1" "REQ-2" "b2"] ->
            Report.record_id_of job'
            <> Report.record_id_of (executed "NEWA-1" "REQ-1" "b1")
            \/ request_id (execute_request job')
               <> request_id
                    (execute_request (executed "NEWA-1" "REQ-1" "b1")))
    as Hlast.
  { intros job' Hin. apply list_elem_of_singleton in Hin as ->.
    right. discriminate. }
  exact (Report.launches_of_last_job true [executed "NEWA-1" "REQ-1" "b0"]
           [executed "NEWA-1" "REQ-2" "b2"] (executed "NEWA-1" "REQ-1" "b1")
           Hlast).
Defined.

Lemma record_id_round_trip_witness :
  Report.issue_of_key "RHEL-9.4.0%NEWA-1" = "NEWA-1"
  /\ (Report.record_id_of (executed "NEWA-1" "REQ-1" "b1")
      = Report.record_id_of (executed "NEWA-2" "REQ-1" "b2") ->
      "RHEL-9.4.0" = "RHEL-9.4.0" /\ "NEWA-1" = "NEWA-2").
Proof.
  exact (Report.record_id_round_trip (executed "NEWA-1" "REQ-1" "b1")
           (executed "NEWA-2" "REQ-1" "b2") eq_refl eq_refl).
Defined.

(** *** State directories *)

Definition run (name : string) (children : list string) : StateDir.DirEntry :=
  {| StateDir.entry_name := name; StateDir.entry_is_dir := true;
     StateDir.entry_children := children |}.

(** The counter is read as a number: after [run-007] comes [run-8], and
    the run of the shell 4242 is looked up as [run-7], which is not the
    name of its directory. A file named like a run and a directory
    with other text in its name do not count. *)
Example state_dir_leading_zeros :
  let entries :=
    [run "run-2" ["1000.ppid"]; run "run-007" ["4242.ppid"];
     {| StateDir.entry_name := "run-9"; StateDir.entry_is_dir := false;
        StateDir.entry_children := [] |};
     run "run-12-old" []] in
  StateDir.get_state_dir 4242 (Some entries) false
  = inr "/var/tmp/newa/run-8"
  /\ StateDir.get_state_dir 4242 (Some entries) true
     = inr "/var/tmp/newa/run-7"
  /\ StateDir.get_state_dir 1 (Some entries) true
     = inl (StateDir.PpidFileNotFound "1.ppid")
  /\ StateDir.get_state_dir 1 None true = inl StateDir.ParentDirMissing
  /\ StateDir.get_state_dir 1 None false = inr "/var/tmp/newa/run-1".
Proof. repeat split. Qed.

(** *** A run that is continued *)

(** The directory after a run that stopped at its first poll. *)
Definition stopped_dir : Execute.World nat :=
  Execute.result_world
    (Execute.worker (context_of false "s3cr3t") 1 "schedule-REQ-1.yaml"
       schedule_1 empty_dir).

Lemma continued_run_resumes_witness :
  Execute.tf_request_uuid
    (Execute.start (context_of true "s3cr3t") "schedule-REQ-1.yaml"
       schedule_1 stopped_dir)
  = Execute.tf_request_uuid
      (Execute.start (context_of false "s3cr3t") "schedule-REQ-1.yaml"
         schedule_1 empty_dir)
  /\ Execute.submissions
       (Execute.events
          (Execute.result_world
             (Execute.worker (context_of true "s3cr3t") 5
                "schedule-REQ-1.yaml" schedule_1 stopped_dir)))
     = Execute.submissions (Execute.events stopped_dir).
Proof.
  assert (Execute.job_file_suffix
            (Execute.started_job
               (Execute.start (context_of false "s3cr3t")
                  ("schedule-" +:+ "REQ-1.yaml") schedule_1 empty_dir))
          = "REQ-1.yaml") as Hsuffix by reflexivity.
  assert (forall details,
            Execute.job_file_suffix
              (Execute.complete
                 (Execute.started_job
                    (Execute.start (context_of false "s3cr3t")
                       ("schedule-" +:+ "REQ-1.yaml") schedule_1 empty_dir))
                 details)
            = "REQ-1.yaml") as Hcomplete by reflexivity.
  destruct (Execute.continued_run_resumes (context_of false "s3cr3t")
              (context_of true "s3cr3t") 1 5 "REQ-1.yaml" schedule_1
              schedule_1 empty_dir eq_refl Hsuffix Hcomplete)
    as (Huuid & _ & _ & Hsub).
  split; [exact Huuid|exact Hsub].
Defined.
End Scenario.
